(** * SMACT: screening of element combinations

    A shallow embedding of three parts of the SMACT repository:

    - [examples/mixed_ions_on_MP-v2.py]: the batched counting script,
      from [count_element_combination] to the rounds of the main program
      (module [MixedIons]);
    - [read_oxidation/smact_lattice.py]: the site-combination search
      (module [SmactLattice]);
    - [smact/properties.py]: [compound_electroneg],
      [compound_electroneg_pauling] and [band_gap_Harrison] (module
      [Properties]) and the solid-state-energy gaps (module
      [SolidStateEnergy]).

    Python dictionaries are stdpp [gmap]s, Python sets are [gset]s, Python
    integers are [Z] or [nat], Python floats are the kernel's binary64
    numbers, and a Python exception is the [Raise] branch of [result].
    Functions of the [smact] package that the scripts call but that are
    defined elsewhere ([pauling_test], [charge_neutrality_iter],
    [element_dictionary], [get_mulliken], ...) are section variables, and
    so are [raw_input], [numpy.exp], [numpy.mean] and the float power. *)

From stdpp Require Import base numbers list sorting gmap sets strings.
From Stdlib Require Import Uint63 PrimFloat FloatAxioms.

Open Scope nat_scope.

(** ** Python results and exceptions *)

Module Py.

Inductive exn : Type :=
| KeyError
| IndexError
| NameError (name : string)
| ValueError
| ZeroDivisionError
| OverflowError
| Exception (args : list string).

#[global] Instance exn_eq_dec : EqDecision exn.
Proof. solve_decision. Defined.

Inductive result (A : Type) : Type :=
| Ok (a : A)
| Raise (e : exn).
Arguments Ok {A} a.
Arguments Raise {A} e.

#[global] Instance result_ret : MRet result := λ A a, Ok a.
#[global] Instance result_bind : MBind result := λ A B k r,
  match r with
  | Ok a => k a
  | Raise e => Raise e
  end.

Definition is_ok {A} (r : result A) : Prop :=
  match r with Ok _ => True | Raise _ => False end.

Definition raises {A} (r : result A) : Prop :=
  match r with Ok _ => False | Raise _ => True end.

(** [d[k]] on a dictionary. *)
Definition getitem `{Countable K} {V} (d : gmap K V) (k : K) : result V :=
  match d !! k with
  | Some v => Ok v
  | None => Raise KeyError
  end.

(** [l[i]] on a list, for a non-negative index. *)
Definition index {A} (l : list A) (i : nat) : result A :=
  match l !! i with
  | Some v => Ok v
  | None => Raise IndexError
  end.

(** [tuple(sorted(l))] on integers. *)
Definition sorted (l : list Z) : list Z := merge_sort Z.le l.

(** [for x in s] on a set: its members, each once, in the set's own
    order. *)
Definition iter_set (s : gset Z) : list Z := elements s.

(** [range(a, b)]. *)
Definition range (a b : nat) : list nat := seq a (b - a).

(** Python's [float]: IEEE 754 binary64, rounded to nearest. *)
Abbreviation binary64 := PrimFloat.float.

(** [float(k)], for an integer below [2^63]. *)
Definition float_of_int (k : Z) : binary64 :=
  PrimFloat.of_uint63 (Uint63.of_Z k).

(** [a / b] on floats. *)
Definition truediv (a b : binary64) : result binary64 :=
  if (b =? 0)%float then Raise ZeroDivisionError else Ok (a / b)%float.

(** [a / k] and [a / float(k)] for a float [a] and a non-negative integer
    [k]: the divisor is zero exactly when [k] is. *)
Definition truediv_int (a : binary64) (k : nat) : result binary64 :=
  if decide (k = 0) then Raise ZeroDivisionError
  else Ok (a / float_of_int (Z.of_nat k))%float.

(** [sum] over integers. *)
Definition sum (l : list Z) : Z := foldl Z.add 0%Z l.

End Py.

Import Py.

(** ** itertools *)

Module Itertools.

(** [itertools.combinations(pool, r)]: the [r]-length subsequences of
    [pool], in lexicographic order of positions. *)
Fixpoint combinations {A} (pool : list A) (r : nat) {struct pool}
  : list (list A) :=
  match r, pool with
  | 0, _ => [[]]
  | S _, [] => []
  | S r', x :: pool' =>
      ((x ::.) <$> combinations pool' r') ++ combinations pool' r
  end.

(** [itertools.combinations_with_replacement(pool, r)]. *)
Fixpoint combinations_with_replacement {A} (pool : list A) (r : nat)
  {struct pool} : list (list A) :=
  match pool with
  | [] => match r with 0 => [[]] | S _ => [] end
  | x :: pool' =>
      (fix with_x (r : nat) : list (list A) :=
         match r with
         | 0 => [[]]
         | S r' =>
             ((x ::.) <$> with_x r')
               ++ combinations_with_replacement pool' r
         end) r
  end.

(** The chunks [multiprocessing.Pool] cuts a task list into: slices of
    [k] consecutive tasks, the last one possibly shorter. *)
Fixpoint chunks_from {A} (fuel k : nat) (l : list A) : list (list A) :=
  match fuel, l with
  | 0, _ | _, [] => []
  | S fuel', _ => take k l :: chunks_from fuel' k (drop k l)
  end.

Definition chunks {A} (k : positive) (l : list A) : list (list A) :=
  chunks_from (length l) (Pos.to_nat k) l.

End Itertools.

Import Itertools.


(** ** Counting *)

Module Counting.

(** The binomial coefficient, by Pascal's rule. *)
Fixpoint choose (n k : nat) : nat :=
  match k, n with
  | 0, _ => 1
  | S _, 0 => 0
  | S k', S n' => choose n' k' + choose n' k
  end.

End Counting.

Import Counting.
(** ** examples/mixed_ions_on_MP-v2.py *)

Module MixedIons.

(** The script's module-level settings. *)
Record config := {
  max_n : nat;
  neutral_stoichiometries_threshold : Z;
  pauling_test_threshold : binary64;
  count_progress_interval : positive;
  mp_use : bool;
  mp_processes : positive;
  mp_chunk_size : positive
}.

Definition defaults : config := {|
  max_n := 4;
  neutral_stoichiometries_threshold := 8;
  pauling_test_threshold := 0;
  count_progress_interval := 100;
  mp_use := true;
  mp_processes := 4;
  mp_chunk_size := 10
|}.

Definition with_pool (cfg : config) (processes chunk_size : positive) :=
  {| max_n := max_n cfg;
     neutral_stoichiometries_threshold :=
       neutral_stoichiometries_threshold cfg;
     pauling_test_threshold := pauling_test_threshold cfg;
     count_progress_interval := count_progress_interval cfg;
     mp_use := true;
     mp_processes := processes;
     mp_chunk_size := chunk_size |}.

Definition serial (cfg : config) :=
  {| max_n := max_n cfg;
     neutral_stoichiometries_threshold :=
       neutral_stoichiometries_threshold cfg;
     pauling_test_threshold := pauling_test_threshold cfg;
     count_progress_interval := count_progress_interval cfg;
     mp_use := false;
     mp_processes := mp_processes cfg;
     mp_chunk_size := mp_chunk_size cfg |}.

(** [smact.Element], as far as the script reads it.  [eneg] is the type of
    electronegativity values, which the script only hands to
    [pauling_test]. *)
Record Element {eneg : Type} := {
  symbol : string;
  oxidation_states : list Z;
  pauling_eneg : eneg
}.
Arguments Element : clear implicits.

(** What one run of a counting round gets from outside: the readings of
    [time.time()] (reading [0] is [start_time], reading [k] the one taken
    in pass [k]) and, for every dispatch to the worker pool, the order in
    which the pool hands the finished chunks back. *)
Record run := {
  time : nat → binary64;
  pool_order :
    positive → nat → list (list (result Z)) → list (list (result Z))
}.

(** One progress line. *)
Record progress := {
  processed : nat;
  percent_done : binary64;
  time_elapsed : binary64;
  time_remaining : binary64
}.

(** The variables of the [while] loop, the lines printed so far, and the
    number of passes made. *)
Record loop_state := {
  data_pointer : nat;
  count : Z;
  combination_generator : list (list string);
  passes : nat;
  printed : list progress
}.

Inductive outcome :=
| Finished (st : loop_state)
| Aborted (e : exn) (st : loop_state)
| Running (st : loop_state).

(** The count the round prints at its end, if it gets there. *)
Definition final_count (o : outcome) : option Z :=
  match o with
  | Finished st => Some (count st)
  | _ => None
  end.

(** The loop variables when the round ended, was aborted by an exception
    (before the failing pass), or ran out of fuel. *)
Definition last_state (o : outcome) : loop_state :=
  match o with
  | Finished st | Aborted _ st | Running st => st
  end.

(** The progress lines the round has printed. *)
Definition reports (o : outcome) : list progress := printed (last_state o).

(** [float(k)]. *)
Definition float (k : nat) : binary64 := float_of_int (Z.of_nat k).

(** The numbers of a progress line: lines 151 to 154, for [data_pointer]
    as just advanced. *)
Definition progress_line (combination_count data_pointer : nat)
    (time_elapsed : binary64) : result progress :=
  percent_done ← truediv_int (100 * float data_pointer) combination_count;
  per_combination ← truediv_int time_elapsed data_pointer;
  let time_remaining :=
    (float combination_count * per_combination - time_elapsed)%float in
  Ok {| processed := data_pointer;
        percent_done := percent_done;
        time_elapsed := time_elapsed;
        time_remaining := time_remaining |}.

(** [sum(results)], where fetching a result re-raises what its
    task raised. *)
Fixpoint sum_results (results : list (result Z)) (acc : Z) : result Z :=
  match results with
  | [] => Ok acc
  | r :: results' => x ← r; sum_results results' (acc + x)%Z
  end.

(** [itertools.imap(f, tasks)]. *)
Definition imap {A B} (f : A → result B) (tasks : list (result A))
  : list (result B) :=
  (λ t, t ≫= f) <$> tasks.

(** [thread_pool.imap_unordered(f, tasks, chunksize)]: the tasks are cut
    into chunks, each chunk is mapped by one worker, and the chunks come
    back in the order [order] the pool finishes them in. *)
Definition imap_unordered {A} (order : list (list (result Z))
                                      → list (list (result Z)))
    (f : A → result Z) (tasks : list (result A)) (chunksize : positive)
  : list (result Z) :=
  mjoin (order (imap f <$> chunks chunksize tasks)).

(** How the whole script ends: with the count of every round printed, or
    in round [n], which did not finish, after the counts of the rounds
    before it. *)
Inductive script_outcome :=
| Completed (counts : list (nat * Z))
| Stopped (n : nat) (o : outcome) (counts : list (nat * Z)).

Section script.
Context {eneg : Type}.

(** From the [smact] package. *)
Variable pauling_test :
  list string → list Z → list eneg → binary64 → bool → bool → bool.
Variable charge_neutrality_iter : list Z → Z → list (list Z).
(** [smact.ordered_elements(1, 103)] and
    [smact.element_dictionary(element_list)]. *)
Variable element_list : list string.
Variable elements : gmap string (Element eneg).

Abbreviation table := (gmap (list Z) Z).
Abbreviation state := (string * Z * eneg)%type.

Definition oxidation_states_list (element_combination : list (Element eneg))
  : list state :=
  element ← element_combination;
  oxidation_state ← oxidation_states element;
  [(symbol element, oxidation_state, pauling_eneg element)].

(** The body of [for state_combination in ...], from [count] on. *)
Fixpoint for_state_combination (cfg : config)
    (neutral_stoichiometries_lookup_table : table)
    (todo : list (list state)) (count : Z) : result Z :=
  match todo with
  | [] => Ok count
  | state_combination :: todo' =>
      let symbols := (λ x, x.1.1) <$> state_combination in
      let oxidation_states := (λ x, x.1.2) <$> state_combination in
      let pauling_electronegativities := (λ x, x.2) <$> state_combination in
      if pauling_test symbols oxidation_states pauling_electronegativities
           (pauling_test_threshold cfg) true true
      then
        m ← getitem neutral_stoichiometries_lookup_table
              (sorted oxidation_states);
        for_state_combination cfg neutral_stoichiometries_lookup_table
          todo' (count + m)%Z
      else
        for_state_combination cfg neutral_stoichiometries_lookup_table
          todo' count
  end.

Definition count_element_combination (cfg : config)
    (args : list (Element eneg) * nat * table) : result Z :=
  let '(element_combination, n, neutral_stoichiometries_lookup_table) :=
    args in
  for_state_combination cfg neutral_stoichiometries_lookup_table
    (combinations (oxidation_states_list element_combination) n) 0.

(** The script's set [oxidation_states]. *)
Definition known_oxidation_states : gset Z :=
  list_to_set
    (element ← (map_to_list elements).*2; oxidation_states element).

Definition oxidation_state_combinations (cfg : config)
  : gmap nat (list (list Z)) :=
  let unsorted : gmap nat (list (list Z)) :=
    list_to_map
      ((λ n, (n, combinations_with_replacement
                   (iter_set known_oxidation_states) n))
         <$> range 2 (max_n cfg + 1)) in
  (λ value : list (list Z), sorted <$> value) <$> unsorted.

(** The number of neutral stoichiometries of a key. *)
Definition multiplicity (cfg : config) (key : list Z) : Z :=
  Z.of_nat (length (charge_neutrality_iter key
                      (neutral_stoichiometries_threshold cfg))).

Definition neutral_stoichiometries (cfg : config) (n : nat)
  : result table :=
  keys ← getitem (oxidation_state_combinations cfg) n;
  Ok (foldl (λ t key, <[key := multiplicity cfg key]> t) ∅ keys).

Definition combination_count (n : nat) : nat :=
  sum_list ((λ i, length (combinations element_list i))
              <$> range 2 (n + 1)).

(** Everything [combination_generator] will yield, as symbols; the
    [Element]s are looked up when the combination is pulled. *)
Definition all_combinations (n : nat) : list (list string) :=
  i ← range 2 (n + 1); combinations element_list i.

Fixpoint elements_of (element_combination : list string)
  : result (list (Element eneg)) :=
  match element_combination with
  | [] => Ok []
  | symbol :: rest =>
      element ← getitem elements symbol;
      others ← elements_of rest;
      Ok (element :: others)
  end.

(** [((next(combination_generator), n, neutral_stoichiometries)
      for i in range(0, iterations))]. *)
Definition tasks (n : nat) (neutral_stoichiometries : table)
    (iterations : nat) (generator : list (list string))
  : list (result (list (Element eneg) * nat * table)) :=
  (λ element_combination,
     element_combination ← elements_of element_combination;
     Ok (element_combination, n, neutral_stoichiometries))
    <$> take iterations generator.

(** One pass of the [while] loop. *)
Definition pass (cfg : config) (env : run) (n : nat)
    (neutral_stoichiometries : table) (combination_count batch_size : nat)
    (st : loop_state) : result loop_state :=
  let iterations :=
    batch_size `min` (combination_count - data_pointer st) in
  let todo :=
    tasks n neutral_stoichiometries iterations
      (combination_generator st) in
  let results :=
    if mp_use cfg
    then imap_unordered (pool_order env (mp_processes cfg) (passes st))
           (count_element_combination cfg) todo (mp_chunk_size cfg)
    else imap (count_element_combination cfg) todo in
  batch ← sum_results results 0;
  let count := (count st + batch)%Z in
  let data_pointer := data_pointer st + iterations in
  let time_elapsed := (time env (S (passes st)) - time env 0)%float in
  line ← progress_line combination_count data_pointer time_elapsed;
  Ok {| data_pointer := data_pointer;
        count := count;
        combination_generator :=
          drop iterations (combination_generator st);
        passes := S (passes st);
        printed := printed st ++ [line] |}.

(** [while data_pointer < combination_count: ...], for at most [fuel]
    passes. *)
Fixpoint counting_loop (cfg : config) (env : run) (n : nat)
    (neutral_stoichiometries : table) (combination_count batch_size : nat)
    (fuel : nat) (st : loop_state) : outcome :=
  if decide (data_pointer st < combination_count) then
    match fuel with
    | 0 => Running st
    | S fuel' =>
        match pass cfg env n neutral_stoichiometries combination_count
                batch_size st with
        | Ok st' =>
            counting_loop cfg env n neutral_stoichiometries
              combination_count batch_size fuel' st'
        | Raise e => Aborted e st
        end
    end
  else Finished st.

(** The loop variables as the round sets them up. *)
Definition start (n : nat) : loop_state :=
  {| data_pointer := 0;
     count := 0;
     combination_generator := all_combinations n;
     passes := 0;
     printed := [] |}.

(** The body of [for n in range(2, max_n + 1)]. *)
Definition counting_round (cfg : config) (env : run) (n fuel : nat)
  : outcome :=
  match neutral_stoichiometries cfg n with
  | Raise e => Aborted e (start n)
  | Ok neutral_stoichiometries =>
      let combination_count := combination_count n in
      let batch_size :=
        combination_count / Pos.to_nat (count_progress_interval cfg) in
      counting_loop cfg env n neutral_stoichiometries combination_count
        batch_size fuel (start n)
  end.

(** The lines [m = i: k] printed before the counting: [k] is the number
    of keys listed for [i]. *)
Definition announced (cfg : config) : result (list (nat * nat)) :=
  mapM (λ i, keys ← getitem (oxidation_state_combinations cfg) i;
             Ok (i, length keys))
    (range 2 (max_n cfg + 1)).

(** [for n in range(2, max_n + 1)]: the rounds in turn, each with its own
    clock and pool; an exception that leaves a round ends the script. *)
Fixpoint rounds (cfg : config) (env : nat → run) (fuel : nat)
    (todo : list nat) (counts : list (nat * Z)) : script_outcome :=
  match todo with
  | [] => Completed counts
  | n :: todo' =>
      match counting_round cfg (env n) n fuel with
      | Finished st => rounds cfg env fuel todo' (counts ++ [(n, count st)])
      | o => Stopped n o counts
      end
  end.

(** The script under [if __name__ == '__main__']: what it announces, and
    how the rounds end when each may make up to [fuel] passes. *)
Definition main (cfg : config) (env : nat → run) (fuel : nat)
  : result (list (nat * nat) * script_outcome) :=
  sizes ← announced cfg;
  Ok (sizes, rounds cfg env fuel (range 2 (max_n cfg + 1)) []).

(** *** The totals the counting is compared with *)

(** The tuples drawn from the elements of a combination. *)
Definition tuples_of (element_combination : list string) : list state :=
  symbol ← element_combination;
  element ← option_list (elements !! symbol);
  oxidation_state ← oxidation_states element;
  [(MixedIons.symbol element, oxidation_state, pauling_eneg element)].

(** What one assignment adds: the table entry of its sorted oxidation
    states if the filter accepts it, nothing otherwise. *)
Definition assignment_value (cfg : config) (lookup_table : table)
    (state_combination : list state) : Z :=
  let symbols := (λ x, x.1.1) <$> state_combination in
  let oxidation_states := (λ x, x.1.2) <$> state_combination in
  let pauling_electronegativities := (λ x, x.2) <$> state_combination in
  if pauling_test symbols oxidation_states pauling_electronegativities
       (pauling_test_threshold cfg) true true
  then default 0%Z (lookup_table !! sorted oxidation_states)
  else 0%Z.

Definition combination_value (cfg : config) (lookup_table : table)
    (n : nat) (element_combination : list string) : Z :=
  sum (assignment_value cfg lookup_table
         <$> combinations (tuples_of element_combination) n).

(** The sum over the enumerated element combinations and over their
    [n]-sized assignments. *)
Definition filtered_weighted_sum (cfg : config) (n : nat)
    (lookup_table : table) : Z :=
  sum (combination_value cfg lookup_table n <$> all_combinations n).

(** One pass over the whole sequence, not cut into batches. *)
Definition single_pass (cfg : config) (n : nat) (lookup_table : table)
  : result Z :=
  sum_results
    (imap (count_element_combination cfg)
       (tasks n lookup_table (length (all_combinations n))
          (all_combinations n)))
    0.

(** *** What the loop keeps true *)

(** The progress lines: each was printed for a positive number of
    processed combinations, the numbers do not decrease, and the last one
    is for [data_pointer]. *)
Record progress_ok (combination_count : nat) (st : loop_state) : Prop := {
  pointer_le : data_pointer st ≤ combination_count;
  lines_ok :
    Forall (λ r, 0 < processed r ≤ data_pointer st
                 ∧ ∃ elapsed,
                     progress_line combination_count (processed r) elapsed
                     = Ok r)
      (printed st);
  lines_sorted :
    StronglySorted (λ a b, processed a ≤ processed b) (printed st);
  last_line : ∀ r, last (printed st) = Some r → processed r = data_pointer st
}.

(** The count: the generator has yielded the first [data_pointer]
    combinations and [count] is the sum of their values. *)
Record count_ok (cfg : config) (lookup_table : table) (n : nat)
    (st : loop_state) : Prop := {
  generator_ok :
    combination_generator st = drop (data_pointer st) (all_combinations n);
  count_val :
    count st
    = sum (combination_value cfg lookup_table n
             <$> take (data_pointer st) (all_combinations n))
}.

End script.
End MixedIons.

(** ** read_oxidation/smact_lattice.py *)

Module SmactLattice.

(** [class Lattice]: the three lists are stored as given. *)
Record Lattice := {
  sites : list string;
  site_ratios : list Z;
  site_oxidations : list (list Z)
}.

(** A [for] loop whose body may raise, threading the variables it
    assigns. *)
Fixpoint for_each {A S} (l : list A) (body : A → S → result S) (s : S)
  : result S :=
  match l with
  | [] => Ok s
  | x :: l' => s' ← body x s; for_each l' body s'
  end.

(** [np.sum(charges) == 0] decides whether [sites] is appended.  The
    source keeps [charges] in a float64 array; here the charges are
    integers and their sum is exact, which is what the source computes as
    long as the charges are in the range where float64 is exact
    ([float64_exact] below). *)
Definition check_lattice_charges (charges : list Z)
    (site_elements : list (list string)) (sites : list string)
  : list (list string) :=
  if decide (sum charges = 0%Z) then site_elements ++ [sites]
  else site_elements.

(** [elements] maps a symbol to its oxidation state; the loop runs over the
    keys of the dictionary and reads [elements[element]]. *)
Definition possible_elements (elements : gmap string Z)
    (oxidations : list Z) : list string :=
  '(element, oxidation) ← map_to_list elements;
  ox_state_a ← oxidations;
  if decide (oxidation = ox_state_a) then [element] else [].

Section possible_compositions.
Variable crystal : Lattice.
Variable elements : gmap string Z.
(** The list [atom], once filled. *)
Variable atom : list (list string).

Abbreviation vars := (list Z * list (list string))%type.

(** [charges[k] = int(elements[site]) * crystal.site_ratios[k]]. *)
Definition set_charge (k : nat) (site : string) (charges : list Z)
  : result (list Z) :=
  oxidation ← getitem elements site;
  ratio ← index (site_ratios crystal) k;
  Ok (<[k := (oxidation * ratio)%Z]> charges).

(** [for site_5 in atom[4]]: the right-hand side names
    [crystal_site_ratios], which is bound nowhere. *)
Definition sites_5 (s : vars) : result vars :=
  if decide (5 ≤ length atom) then
    atom_4 ← index atom 4;
    for_each atom_4
      (λ site_5 (_ : vars),
         _ ← getitem elements site_5;
         Raise (NameError "crystal_site_ratios"))
      s
  else Ok s.

Definition sites_4 (site_1 site_2 site_3 : string) (s : vars)
  : result vars :=
  if decide (4 ≤ length atom) then
    atom_3 ← index atom 3;
    s ← for_each atom_3
          (λ site_4 '(charges, site_elements),
             charges ← set_charge 3 site_4 charges;
             Ok (charges,
                 if decide (length atom = 4)
                 then check_lattice_charges charges site_elements
                        [site_1; site_2; site_3; site_4]
                 else site_elements))
          s;
    sites_5 s
  else Ok s.

Definition sites_3 (site_1 site_2 : string) (s : vars) : result vars :=
  if decide (3 ≤ length atom) then
    atom_2 ← index atom 2;
    for_each atom_2
      (λ site_3 '(charges, site_elements),
         charges ← set_charge 2 site_3 charges;
         sites_4 site_1 site_2 site_3
           (charges,
            if decide (length atom = 3)
            then check_lattice_charges charges site_elements
                   [site_1; site_2; site_3]
            else site_elements))
      s
  else Ok s.

Definition sites_2 (site_1 : string) (s : vars) : result vars :=
  if decide (2 ≤ length atom) then
    atom_1 ← index atom 1;
    for_each atom_1
      (λ site_2 '(charges, site_elements),
         charges ← set_charge 1 site_2 charges;
         sites_3 site_1 site_2
           (charges,
            if decide (length atom = 2)
            then check_lattice_charges charges site_elements
                   [site_1; site_2]
            else site_elements))
      s
  else Ok s.

(** [for site_1 in atom[0]]; [charges] is a fresh array of zeros in every
    iteration. *)
Definition sites_1 (site_elements : list (list string))
  : result (list (list string)) :=
  atom_0 ← index atom 0;
  for_each atom_0
    (λ site_1 site_elements,
       let charges := replicate (length atom) 0%Z in
       charges ← set_charge 0 site_1 charges;
       s ← sites_2 site_1
             (charges,
              if decide (length atom = 1)
              then check_lattice_charges charges site_elements [site_1]
              else site_elements);
       Ok s.2)
    site_elements.

End possible_compositions.

(** The [while i < len(crystal.sites)] loop that fills [atom]. *)
Definition fill_atom (crystal : Lattice) (elements : gmap string Z)
  : result (list (list string)) :=
  for_each (seq 0 (length (sites crystal)))
    (λ i atom,
       oxidations ← index (site_oxidations crystal) i;
       Ok (atom ++ [possible_elements elements oxidations]))
    [].

Definition possible_compositions (crystal : Lattice)
    (elements : gmap string Z) : result (list (list string)) :=
  atom ← fill_atom crystal elements;
  sites_1 crystal elements atom [].

(** *** What a returned composition is compared with *)

Definition oxidation_of (elements : gmap string Z) (element : string) : Z :=
  default 0%Z (elements !! element).

Definition ratio_of (crystal : Lattice) (i : nat) : Z :=
  default 0%Z (site_ratios crystal !! i).

(** The charge on site [i] when [element] sits there. *)
Definition site_charge (crystal : Lattice) (elements : gmap string Z)
    (i : nat) (element : string) : Z :=
  (oxidation_of elements element * ratio_of crystal i)%Z.

(** The charge of a composition: the sum over its sites of the oxidation
    state of the element times the ratio of the site. *)
Definition charge (crystal : Lattice) (elements : gmap string Z)
    (composition : list string) : Z :=
  sum (imap (site_charge crystal elements) composition).

(** The neutral compositions that extend [prefix], whose charges are
    [charges], over the sites [k], [k + 1], ... with candidates [rest], in
    the order of the nested loops. *)
Fixpoint completions (crystal : Lattice) (elements : gmap string Z)
    (rest : list (list string)) (k : nat) (prefix : list string)
    (charges : list Z) : list (list string) :=
  match rest with
  | [] => if decide (sum charges = 0%Z) then [prefix] else []
  | candidates :: rest' =>
      site ← candidates;
      completions crystal elements rest' (S k) (prefix ++ [site])
        (charges ++ [site_charge crystal elements k site])
  end.

(** The largest magnitude of an oxidation state in the dictionary. *)
Definition largest_oxidation (elements : gmap string Z) : Z :=
  foldr (λ '(_, oxidation) largest, Z.max (Z.abs oxidation) largest) 0%Z
    (map_to_list elements).

(** The charges of a composition, summed as magnitudes: no charge and no
    sum of some of the charges, in whatever order, is larger. *)
Definition magnitude (crystal : Lattice) (elements : gmap string Z)
    (composition : list string) : Z :=
  sum (imap (λ i element, Z.abs (site_charge crystal elements i element))
         composition).

(** The range in which the float64 array of the source holds the charges
    and their sums without rounding: integers of magnitude below [2^53].
    Every composition stays in it when the largest oxidation state times
    the sum of the magnitudes of the site ratios does. *)
Definition float64_exact (crystal : Lattice) (elements : gmap string Z)
  : Prop :=
  (largest_oxidation elements
   * sum (Z.abs <$> take (length (sites crystal)) (site_ratios crystal))
   < 2 ^ 53)%Z.

(** What the inner loops keep true of [charges]: one entry per site, the
    first ones being the charges of the sites already chosen. *)
Definition charges_begin (len : nat) (chosen charges : list Z) : Prop :=
  length charges = len ∧ ∃ tail, charges = chosen ++ tail.

(** The element may sit on site [i]: its oxidation state is one of those
    listed for the site. *)
Definition allowed (crystal : Lattice) (elements : gmap string Z)
    (i : nat) (element : string) : Prop :=
  ∃ oxidation oxidations,
    elements !! element = Some oxidation
    ∧ site_oxidations crystal !! i = Some oxidations
    ∧ oxidation ∈ oxidations.

(** Every site has its ratio and its list of oxidation states. *)
Definition well_formed (crystal : Lattice) : Prop :=
  length (sites crystal) ≤ length (site_ratios crystal)
  ∧ length (sites crystal) ≤ length (site_oxidations crystal).

(** The crystal with every site ratio multiplied by [k]. *)
Definition scale_ratios (k : Z) (crystal : Lattice) : Lattice :=
  {| sites := sites crystal;
     site_ratios := Z.mul k <$> site_ratios crystal;
     site_oxidations := site_oxidations crystal |}.

End SmactLattice.

(** ** smact/properties.py: [compound_electroneg] and [band_gap_Harrison] *)

Module Properties.

#[local] Set Warnings "-inexact-float".

(** What a call does besides computing its value, in order. *)
Inductive event :=
| Prompted (prompt : string)
| LoadedDictionary
| Electronegativity (el : string)
| Power
| Product
| Printed.

(** A computation that may raise, with the events it performed. *)
Record traced (A : Type) := Traced { log : list event; value : result A }.
Arguments Traced {A} log value.
Arguments log {A} t.
Arguments value {A} t.

#[global] Instance traced_ret : MRet traced := λ A a, Traced [] (Ok a).
#[global] Instance traced_bind : MBind traced := λ A B k t,
  match value t with
  | Ok a => Traced (log t ++ log (k a)) (value (k a))
  | Raise e => Traced (log t) (Raise e)
  end.

Definition emit (e : event) : traced unit := Traced [e] (Ok ()).
Definition lift {A} (r : result A) : traced A := Traced [] r.

(** [for x in l], collecting what the body returns. *)
Fixpoint collect {A B} (body : A → traced B) (l : list A)
  : traced (list B) :=
  match l with
  | [] => mret []
  | x :: l' => y ← body x; ys ← collect body l'; mret (y :: ys)
  end.

(** [s.split(" ")]. *)
Fixpoint split (s : string) : list string :=
  match s with
  | EmptyString => [EmptyString]
  | String c s' =>
      if Ascii.eqb c (Ascii.ascii_of_nat 32) then EmptyString :: split s'
      else match split s' with
           | w :: ws => String c w :: ws
           | [] => [String c EmptyString]
           end
  end.

(** A stoichiometry as the caller or the prompt gives it. *)
Inductive stoich :=
| Number (x : binary64)
| Text (s : string).

(** The ways a float power can fail. *)
Inductive pow_error := ZeroToNegative | NegativeToFraction | TooLarge.

Definition raise_pow (e : pow_error) : exn :=
  match e with
  | ZeroToNegative => ZeroDivisionError
  | NegativeToFraction => ValueError
  | TooLarge => OverflowError
  end.

Section compound_electroneg.
(** [smact.Element]. *)
Context {Element : Type}.
(** [smact.element_dictionary], which has no dictionary to return when a
    symbol is unknown, [smact.data.get_mulliken] and
    [smact.data.get_pauling]. *)
Variable element_dictionary :
  option (list string) → option (gmap string Element).
Variable get_mulliken get_pauling : Element → binary64.
(** [raw_input(prompt)], [float(text)] and [x ** y]. *)
Variable raw_input : string → string.
Variable parse_float : string → option binary64.
Variable pow : binary64 → binary64 → binary64 + pow_error.

Definition float (x : stoich) : result binary64 :=
  match x with
  | Number x => Ok x
  | Text s =>
      match parse_float s with
      | Some x => Ok x
      | None => Raise ValueError
      end
  end.

Definition power (x y : binary64) : traced binary64 :=
  _ ← emit Power;
  lift (match pow x y with
        | inl z => Ok z
        | inr e => Raise (raise_pow e)
        end).

Definition load_dictionary (elements : option (list string))
  : traced (gmap string Element) :=
  _ ← emit LoadedDictionary;
  lift (match element_dictionary elements with
        | Some d => Ok d
        | None => Raise KeyError
        end).

Definition ask (prompt : string) : traced (list string) :=
  _ ← emit (Prompted prompt); mret (split (raw_input prompt)).

(** Truth value of an optional list argument. *)
Definition given {A} (arg : option (list A)) : option (list A) :=
  match arg with
  | Some (x :: l) => Some (x :: l)
  | _ => None
  end.

(** Lines 127 to 144: the element list, the stoichiometries as floats,
    and the dictionary. *)
Definition arguments (elements : option (list string))
    (stoichs : option (list stoich))
    (elements_dict : option (gmap string Element))
  : traced (list string * list binary64 * gmap string Element) :=
  elementlist ←
    match given elements with
    | Some elements => mret elements
    | None => ask "Enter elements (space separated): "
    end;
  stoichslist ←
    match given stoichs with
    | Some stoichs => mret stoichs
    | None => l ← ask "Enter stoichiometries (space separated): ";
              mret (Text <$> l)
    end;
  elements_dict ←
    match elements_dict with
    | Some d => if decide (d = ∅) then load_dictionary elements else mret d
    | None => load_dictionary elements
    end;
  stoichslist ← collect (λ x, lift (float x)) stoichslist;
  mret (elementlist, stoichslist, elements_dict).

Definition not_recognised (source : string) : exn :=
  Exception ["Electronegativity type '" +:+ source +:+ "'";
             "is not recognised"].

(** Lines 147 to 155. *)
Definition electronegativities (source : string)
    (elements_dict : gmap string Element) (elementlist : list string)
  : traced (list binary64) :=
  if decide (source = "Mulliken") then
    collect (λ el, element ← lift (getitem elements_dict el);
                   _ ← emit (Electronegativity el);
                   mret (get_mulliken element)) elementlist
  else if decide (source = "Pauling") then
    collect (λ el, element ← lift (getitem elements_dict el);
                   _ ← emit (Electronegativity el);
                   mret (2.86 * get_pauling element)%float) elementlist
  else lift (Raise (not_recognised source)).

(** Lines 163 to 168. *)
Definition geometric_mean (elementlist stoichslist : list binary64)
  : traced binary64 :=
  powers ←
    collect (λ i, x ← lift (index elementlist i);
                  y ← lift (index stoichslist i);
                  power x y)
      (range 0 (length elementlist));
  _ ← emit Product;
  let prod := foldl PrimFloat.mul 1%float powers in
  exponent ← lift (truediv 1 (foldl PrimFloat.add 0%float stoichslist));
  power prod exponent.

Definition compound_electroneg (verbose : bool)
    (elements : option (list string)) (stoichs : option (list stoich))
    (elements_dict : option (gmap string Element)) (source : string)
  : traced binary64 :=
  '(elementlist, stoichslist, elements_dict) ←
    arguments elements stoichs elements_dict;
  elementlist ← electronegativities source elements_dict elementlist;
  _ ← (if verbose then emit Printed else mret ());
  compelectroneg ← geometric_mean elementlist stoichslist;
  _ ← (if verbose then emit Printed else mret ());
  mret compelectroneg.

(** [compound_electroneg_pauling]: the same call with
    [source='Pauling']. *)
Definition compound_electroneg_pauling (verbose : bool)
    (elements : option (list string)) (stoichs : option (list stoich))
    (elements_dict : option (gmap string Element))
  : traced binary64 :=
  compound_electroneg verbose elements stoichs elements_dict "Pauling".

(** *** [band_gap_Harrison] *)

(** The attributes [eig] and [eig_s] of an element. *)
Variable eig eig_s : Element → binary64.

(** Truth value of an optional string argument, and of the distance,
    which is a float or a string. *)
Definition given_text (arg : option string) : option string :=
  match arg with
  | Some (String c s) => Some (String c s)
  | _ => None
  end.

Definition given_distance (arg : option stoich) : option stoich :=
  match arg with
  | Some (Number x) => if (x =? 0)%float then None else Some (Number x)
  | Some (Text (String c s)) => Some (Text (String c s))
  | _ => None
  end.

Definition prompt (text : string) : traced string :=
  _ ← emit (Prompted text); mret (raw_input text).

(** Lines 52 to 68: the two symbols, the distance as a float, and the
    two elements. *)
Definition harrison_arguments (anion cation : option string)
    (distance : option stoich) (elements_dict : option (gmap string Element))
  : traced (Element * Element * binary64) :=
  An ← match given_text anion with
       | Some anion => mret anion
       | None => prompt "Enter Anion Symbol:"
       end;
  Cat ← match given_text cation with
        | Some cation => mret cation
        | None => prompt "Enter Cation Symbol:"
        end;
  d ← match given_distance distance with
      | Some distance => lift (float distance)
      | None =>
          text ← prompt "Enter internuclear separation (Angstroms): ";
          lift (float (Text text))
      end;
  elements_dict ←
    match elements_dict with
    | Some d' =>
        if decide (d' = ∅) then load_dictionary (Some [An; Cat]) else mret d'
    | None => load_dictionary (Some [An; Cat])
    end;
  An ← lift (getitem elements_dict An);
  Cat ← lift (getitem elements_dict Cat);
  mret (An, Cat, d).

(** Lines 71 to 79. *)
Definition harrison_gap (An Cat : Element) (d : binary64)
  : traced binary64 :=
  let hbarsq_over_m := 7.62%float in
  let V1_Cat := ((eig Cat - eig_s Cat) / 4)%float in
  let V1_An := ((eig An - eig_s An) / 4)%float in
  let V1_bar := ((V1_An + V1_Cat) / 2)%float in
  d_squared ← power d 2;
  V2 ← lift (truediv (2.16 * hbarsq_over_m) d_squared);
  let V3 := ((eig Cat - eig An) / 2)%float in
  V2_squared ← power V2 2;
  V3_squared ← power V3 2;
  let alpha_m :=
    (1.11 * V1_bar / PrimFloat.sqrt (V2_squared + V3_squared))%float in
  V2_squared ← power V2 2;
  V3_squared ← power V3 2;
  mret (3.60 / 3 * PrimFloat.sqrt (V2_squared + V3_squared)
        * (1 - alpha_m))%float.

Definition band_gap_Harrison (verbose : bool) (anion cation : option string)
    (distance : option stoich) (elements_dict : option (gmap string Element))
  : traced binary64 :=
  '(An, Cat, d) ← harrison_arguments anion cation distance elements_dict;
  Band_gap ← harrison_gap An Cat d;
  _ ← (if verbose
       then _ ← emit Printed; _ ← emit Printed; _ ← emit Printed;
            emit Printed
       else mret ());
  mret Band_gap.

(** The events that ask the user for input, and those that print. *)
Definition prompted (e : event) : bool :=
  match e with
  | Prompted _ => true
  | _ => false
  end.

Definition prints (e : event) : bool :=
  match e with
  | Printed => true
  | _ => false
  end.

(** The exceptions other than the one raised by [raise Exception(...)]. *)
Definition builtin (e : exn) : Prop :=
  match e with
  | Exception _ => False
  | _ => True
  end.

(** The events that read or combine electronegativities. *)
Definition aggregates (e : event) : bool :=
  match e with
  | Electronegativity _ | Power | Product => true
  | _ => false
  end.

(** A computation that reads and combines no electronegativity, and one
    that raises at most a built-in exception. *)
Definition quiet {A} (t : traced A) : Prop :=
  Forall (λ e, aggregates e = false) (log t).

Definition harmless {A} (t : traced A) : Prop :=
  ∀ e, value t = Raise e → builtin e.

End compound_electroneg.
End Properties.

(** ** smact/properties.py: the solid-state-energy gaps *)

Module SolidStateEnergy.

(** A [smact.Species], as far as the three functions read it. *)
Record Species := {
  oxidation : Z;
  SSE : binary64;
  SSE_2015 : binary64
}.

(** The value the loop appends for a species. *)
Definition energy (SSE_2015 : bool) (ele : Species) : binary64 :=
  if SSE_2015 then SolidStateEnergy.SSE_2015 ele else SSE ele.

(** [for ele in Compound]: the lists [anions] and [cations]. *)
Definition anions_cations (Compound : list Species) (SSE_2015 : bool)
  : list binary64 * list binary64 :=
  foldl (λ '(anions, cations) ele,
           if decide (oxidation ele < 0)%Z
           then (anions ++ [energy SSE_2015 ele], cations)
           else (anions, cations ++ [energy SSE_2015 ele]))
    ([], []) Compound.

(** [min(l)] and [max(l)]: the first item is kept until a smaller, or a
    larger, one comes; an empty list raises [ValueError]. *)
Definition min (l : list binary64) : result binary64 :=
  match l with
  | [] => Raise ValueError
  | x :: l' => Ok (foldl (λ least y, if (y <? least)%float then y else least)
                     x l')
  end.

Definition max (l : list binary64) : result binary64 :=
  match l with
  | [] => Raise ValueError
  | x :: l' => Ok (foldl (λ most y, if (most <? y)%float then y else most)
                     x l')
  end.

Definition SSE_min_gap (Compound : list Species) (SSE_2015 : bool)
  : result binary64 :=
  let '(anions, cations) := anions_cations Compound SSE_2015 in
  least ← min cations;
  most ← max anions;
  Ok (least - most)%float.

Section numpy.
(** [numpy.mean], [numpy.exp] and [x ** y]. *)
Variable mean : list binary64 → binary64.
Variable exp : binary64 → binary64.
Variable pow : binary64 → binary64 → result binary64.

Definition SSE_average_gap (Compound : list Species) (SSE_2015 : bool)
  : binary64 :=
  let '(anions, cations) := anions_cations Compound SSE_2015 in
  (mean cations - mean anions)%float.

(** [F1] and [F2]: a half when all the values are equal. *)
Definition weight (values : list binary64) (x : binary64)
  : result binary64 :=
  most ← max values;
  least ← min values;
  if (most =? least)%float then Ok 0.5%float
  else
    most ← max values;
    least ← min values;
    power ← pow (most - least) (- x);
    Ok (0.5 * exp (-1 * power))%float.

Definition SSE_weight_gap (Compound : list Species) (x : binary64)
    (SSE_2015 : bool) : result binary64 :=
  let '(anions, cations) := anions_cations Compound SSE_2015 in
  F1 ← weight cations x;
  F2 ← weight anions x;
  max_cations ← max cations;
  min_cations ← min cations;
  max_anions ← max anions;
  min_anions ← min anions;
  Ok (F1 * max_cations + (1 - F1) * min_cations - (1 - F2) * max_anions
      - F2 * min_anions)%float.

End numpy.
End SolidStateEnergy.

(** ** Small concrete inputs *)

Module Examples.
Import MixedIons.

#[local] Set Warnings "-inexact-float".

(** A three-element universe, with their Pauling
    electronegativities. *)
Definition H : Element binary64 :=
  {| symbol := "H"; oxidation_states := [1; -1]%Z; pauling_eneg := 2.2%float |}.
Definition O : Element binary64 :=
  {| symbol := "O"; oxidation_states := [-2]%Z; pauling_eneg := 3.44%float |}.
Definition Na : Element binary64 :=
  {| symbol := "Na"; oxidation_states := [1]%Z; pauling_eneg := 0.93%float |}.

Definition element_list : list string := ["H"; "O"; "Na"].
Definition elements : gmap string (Element binary64) :=
  <["H" := H]> (<["O" := O]> (<["Na" := Na]> ∅)).

(** A stand-in for [smact.pauling_test]: accepts the assignments whose
    oxidation states sum to zero. *)
Definition neutral_sum (symbols : list string) (oxidation_states : list Z)
    (paulings : list binary64) (threshold : binary64)
    (repeat_anions repeat_cations : bool)
  : bool :=
  bool_decide (sum oxidation_states = 0%Z).

(** A stand-in for [smact.charge_neutrality_iter]: the one-to-one ratio,
    when it is neutral. *)
Definition equal_ratios (oxidation_states : list Z) (threshold : Z)
  : list (list Z) :=
  if decide (sum oxidation_states = 0%Z)
  then [replicate (length oxidation_states) 1%Z]
  else [].

(** A clock that advances one second per reading, and a pool that hands
    the chunks back last first. *)
Definition env : run :=
  {| time := λ k, float k;
     pool_order := λ _ _ cs, reverse cs |}.

(** The defaults, but with two progress lines per round. *)
Definition two_reports : config :=
  {| max_n := 4;
     neutral_stoichiometries_threshold := 8;
     pauling_test_threshold := 0;
     count_progress_interval := 2;
     mp_use := true;
     mp_processes := 4;
     mp_chunk_size := 10 |}.

(** Oxidation states for the site search, and crystals of two, five and
    no sites: [rock_salt] allows both charges on each site, [single_valent]
    only one, [cations_only] no anion. *)
Definition oxidation : gmap string Z :=
  <["Na" := 1%Z]> (<["Cl" := (-1)%Z]> (<["Mg" := 2%Z]> (<["O" := (-2)%Z]> ∅))).

Definition rock_salt : SmactLattice.Lattice :=
  {| SmactLattice.sites := ["A"; "X"];
     SmactLattice.site_ratios := [1; 1]%Z;
     SmactLattice.site_oxidations := [[1; 2]; [-1; -2]]%Z |}.

Definition single_valent : SmactLattice.Lattice :=
  {| SmactLattice.sites := ["A"; "X"];
     SmactLattice.site_ratios := [1; 1]%Z;
     SmactLattice.site_oxidations := [[1]; [-1]]%Z |}.

Definition cations_only : SmactLattice.Lattice :=
  {| SmactLattice.sites := ["A"; "B"];
     SmactLattice.site_ratios := [1; 1]%Z;
     SmactLattice.site_oxidations := [[1; 2]; [1; 2]]%Z |}.

Definition five_sites : SmactLattice.Lattice :=
  {| SmactLattice.sites := ["A"; "B"; "C"; "D"; "E"];
     SmactLattice.site_ratios := [1; 1; 1; 1; 1]%Z;
     SmactLattice.site_oxidations := [[1]; [1]; [1]; [1]; [1]]%Z |}.

Definition no_sites : SmactLattice.Lattice :=
  {| SmactLattice.sites := [];
     SmactLattice.site_ratios := [];
     SmactLattice.site_oxidations := [] |}.

(** More crystals: one that lists an oxidation state twice, one that
    lacks the list of its second site, and two of five sites with no
    candidate for the fourth or for the fifth site. *)
Definition repeated_state : SmactLattice.Lattice :=
  {| SmactLattice.sites := ["A"; "X"];
     SmactLattice.site_ratios := [1; 1]%Z;
     SmactLattice.site_oxidations := [[1; 1]; [-1]]%Z |}.

Definition missing_list : SmactLattice.Lattice :=
  {| SmactLattice.sites := ["A"; "X"];
     SmactLattice.site_ratios := [1; 1]%Z;
     SmactLattice.site_oxidations := [[1]]%Z |}.

Definition empty_fourth : SmactLattice.Lattice :=
  {| SmactLattice.sites := ["A"; "B"; "C"; "D"; "E"];
     SmactLattice.site_ratios := [1; 1; 1; 1; 1]%Z;
     SmactLattice.site_oxidations := [[1]; [1]; [1]; [7]; [1]]%Z |}.

Definition empty_fifth : SmactLattice.Lattice :=
  {| SmactLattice.sites := ["A"; "B"; "C"; "D"; "E"];
     SmactLattice.site_ratios := [1; 1; 1; 1; 1]%Z;
     SmactLattice.site_oxidations := [[1]; [1]; [1]; [1]; [7]]%Z |}.

(** Electronegativities for [compound_electroneg]: an element is its pair
    of Mulliken and Pauling values. *)
Definition electronegativity : gmap string (binary64 * binary64) :=
  <["Cu" := (4.5, 2)%float]> (<["S" := (6.25, 2.5)%float]> ∅).

Definition element_dictionary (symbols : option (list string))
  : option (gmap string (binary64 * binary64)) := Some electronegativity.

Definition no_input (prompt : string) : string := "".

(** A stand-in for [float(text)]: unsigned decimal integers only. *)
Fixpoint digits (s : string) (acc : N) : option N :=
  match s with
  | EmptyString => Some acc
  | String c s' =>
      let d := Ascii.N_of_ascii c in
      if decide (48 ≤ d ∧ d ≤ 57)%N then digits s' (10 * acc + (d - 48))%N
      else None
  end.

Definition parse_float (s : string) : option binary64 :=
  match s with
  | EmptyString => None
  | _ => (λ k, float_of_int (Z.of_N k)) <$> digits s 0
  end.

(** A stand-in for [x ** y] that never fails. *)
Definition pow (x y : binary64) : binary64 + Properties.pow_error :=
  inl (x * y)%float.

(** Species for the gaps: two cations, one of them with oxidation state
    zero, and an anion. *)
Definition copper : SolidStateEnergy.Species :=
  {| SolidStateEnergy.oxidation := 1;
     SolidStateEnergy.SSE := (-4.5)%float;
     SolidStateEnergy.SSE_2015 := (-4.25)%float |}.

Definition neutral_atom : SolidStateEnergy.Species :=
  {| SolidStateEnergy.oxidation := 0;
     SolidStateEnergy.SSE := (-3.5)%float;
     SolidStateEnergy.SSE_2015 := (-3.25)%float |}.

Definition sulfide : SolidStateEnergy.Species :=
  {| SolidStateEnergy.oxidation := -2;
     SolidStateEnergy.SSE := (-6.5)%float;
     SolidStateEnergy.SSE_2015 := (-6.25)%float |}.

(** Stand-ins for [numpy.exp] and for [**] that are never reached in the
    examples. *)
Definition no_exp (x : binary64) : binary64 := x.
Definition no_pow (x y : binary64) : result binary64 := Ok x.

End Examples.
(** *** Facts about the enumerations *)

Section itertools_facts.
Context {A : Type}.
Implicit Types (pool l c : list A) (r : nat).

Lemma combinations_0 pool : combinations pool 0 = [[]].
Proof. by destruct pool. Qed.

Lemma combinations_sublist pool : ∀ r c,
  c ∈ combinations pool r → c `sublist_of` pool ∧ length c = r.
Proof.
  induction pool as [|x pool IH]; intros [|r] c; simpl.
  - intros ->%list_elem_of_singleton. by split.
  - by intros ?%elem_of_nil.
  - intros ->%list_elem_of_singleton. split; [apply sublist_nil_l|done].
  - rewrite elem_of_app, list_elem_of_fmap.
    intros [(c' & -> & Hc')|Hc].
    + destruct (IH _ _ Hc') as [? <-]. split; [by apply sublist_skip|done].
    + destruct (IH _ _ Hc) as [? ?]. split; [by apply sublist_cons|done].
Qed.

Lemma combinations_length pool r c :
  c ∈ combinations pool r → length c = r.
Proof. intros H. by apply combinations_sublist in H as [_ ?]. Qed.

Lemma combinations_elem_of pool r c x :
  c ∈ combinations pool r → x ∈ c → x ∈ pool.
Proof.
  intros H Hx. apply combinations_sublist in H as [H _].
  by eapply elem_of_sublist.
Qed.

Lemma cwr_unfold x pool r :
  combinations_with_replacement (x :: pool) (S r)
  = ((x ::.) <$> combinations_with_replacement (x :: pool) r)
      ++ combinations_with_replacement pool (S r).
Proof. done. Qed.

Lemma cwr_0 pool : combinations_with_replacement pool 0 = [[]].
Proof. by destruct pool. Qed.

Lemma cwr_skip x pool r c :
  c ∈ combinations_with_replacement pool r →
  c ∈ combinations_with_replacement (x :: pool) r.
Proof.
  destruct r as [|r]; [by rewrite !cwr_0|].
  rewrite cwr_unfold, elem_of_app. auto.
Qed.

Lemma cwr_replicate x pool k r c :
  c ∈ combinations_with_replacement pool r →
  replicate k x ++ c ∈ combinations_with_replacement (x :: pool) (k + r).
Proof.
  intros Hc. induction k as [|k IH]; [by apply cwr_skip|].
  change (S k + r) with (S (k + r)).
  change (replicate (S k) x ++ c) with (x :: (replicate k x ++ c)).
  rewrite cwr_unfold, elem_of_app. left. by apply list_elem_of_fmap_2.
Qed.

(** Every multiset of [r] members of [pool] is enumerated, up to order. *)
Lemma cwr_complete `{!EqDecision A} pool : ∀ r l,
  length l = r → (∀ x, x ∈ l → x ∈ pool) →
  ∃ c, c ∈ combinations_with_replacement pool r ∧ c ≡ₚ l.
Proof.
  induction pool as [|x pool IH]; intros r l Hr Hin.
  - destruct l as [|y l].
    + subst r. exists []. split; [by left|done].
    + exfalso. eapply not_elem_of_nil, (Hin y). by left.
  - set (l1 := filter (λ y, y = x) l).
    set (l2 := filter (λ y, y ≠ x) l).
    assert (l ≡ₚ l1 ++ l2) as Hl.
    { subst l1 l2. clear. induction l as [|y l IHl]; [done|].
      rewrite !filter_cons. destruct (decide (y = x)) as [->|Hne].
      - rewrite decide_False by naive_solver. simpl. by f_equiv.
      - rewrite decide_True by done.
        rewrite <-Permutation_middle. by f_equiv. }
    assert (l1 = replicate (length l1) x) as Hl1.
    { subst l1. clear. induction l as [|y l IHl]; [done|].
      rewrite filter_cons. destruct (decide (y = x)) as [->|]; [|done].
      simpl. by f_equal. }
    destruct (IH (length l2) l2 eq_refl) as (c2 & Hc2 & Hp).
    { intros y [Hne Hy]%list_elem_of_filter.
      apply Hin in Hy. by inv Hy. }
    exists (replicate (length l1) x ++ c2). split.
    + assert (r = length l1 + length l2) as ->.
      { by rewrite <-Hr, Hl, length_app. }
      by apply cwr_replicate.
    + by rewrite Hl, Hp, <-Hl1.
Qed.

Lemma chunks_from_concat fuel k l :
  0 < k → length l ≤ fuel → mjoin (chunks_from fuel k l) = l.
Proof.
  intros Hk. revert l. induction fuel as [|fuel IH]; intros l Hl.
  - destruct l; [done|simpl in Hl; lia].
  - destruct l as [|x l]; [done|].
    change (chunks_from (S fuel) k (x :: l))
      with (take k (x :: l) :: chunks_from fuel k (drop k (x :: l))).
    cbn [mjoin list_join]. rewrite IH, take_drop; [done|].
    rewrite length_drop. simpl in *. lia.
Qed.

Lemma chunks_concat k l : mjoin (chunks k l) = l.
Proof. apply chunks_from_concat; lia. Qed.

End itertools_facts.

(** *** Facts about [sorted] and [sum] *)

Lemma sorted_Permutation l : sorted l ≡ₚ l.
Proof. apply merge_sort_Permutation. Qed.

Lemma sorted_perm_eq l1 l2 : l1 ≡ₚ l2 → sorted l1 = sorted l2.
Proof.
  intros Hp. unfold sorted.
  apply (Sorted_unique Z.le); [apply Sorted_merge_sort, _..|].
  by rewrite !merge_sort_Permutation.
Qed.

Lemma sum_from (a : Z) l : foldl Z.add a l = (a + sum l)%Z.
Proof.
  unfold sum. revert a. induction l as [|x l IH]; intros a; simpl; [lia|].
  rewrite (IH (a + x)%Z), (IH (0 + x)%Z). lia.
Qed.

Lemma sum_cons x l : sum (x :: l) = (x + sum l)%Z.
Proof. unfold sum at 1. simpl. rewrite sum_from. lia. Qed.

Lemma sum_app l1 l2 : sum (l1 ++ l2) = (sum l1 + sum l2)%Z.
Proof.
  induction l1 as [|x l1 IH]; [by unfold sum; simpl; rewrite sum_from|].
  simpl. rewrite !sum_cons, IH. lia.
Qed.

Lemma sum_Permutation l1 l2 : l1 ≡ₚ l2 → sum l1 = sum l2.
Proof.
  induction 1; rewrite ?sum_cons in *; lia.
Qed.

(** *** Facts about lists *)


Lemma filter_sublist_mono {A} (P : A → Prop) `{!∀ x, Decision (P x)} l1 l2 :
  l1 `sublist_of` l2 → filter P l1 `sublist_of` filter P l2.
Proof.
  induction 1 as [|x l1 l2 _ IH|x l1 l2 _ IH]; [done|..];
    rewrite ?filter_cons; case_decide; auto using sublist_skip, sublist_cons.
Qed.

Lemma remove_dups_length {A} `{!EqDecision A} (l : list A) :
  length (remove_dups l) ≤ length l
  ∧ (¬ NoDup l → length (remove_dups l) < length l).
Proof.
  induction l as [|x l [IHle IHlt]]; simpl.
  - split; [done|]. intros []. constructor.
  - destruct (decide_rel elem_of x l) as [Hin|Hnot]; simpl.
    + split; lia.
    + split; [lia|]. intros Hdup. rewrite NoDup_cons in Hdup.
      assert (¬ NoDup l) by tauto. apply IHlt in H. lia.
Qed.

(** *** How many combinations there are *)

Lemma choose_0_r n : choose n 0 = 1.
Proof. by destruct n. Qed.

Lemma choose_small n k : n < k → choose n k = 0.
Proof.
  revert k. induction n as [|n IH]; intros [|k] Hk; try lia; [done|].
  cbn [choose]. rewrite !IH by lia. done.
Qed.

Lemma choose_diag n : choose n n = 1.
Proof.
  induction n as [|n IH]; [done|].
  cbn [choose]. rewrite IH, choose_small by lia. done.
Qed.

Lemma choose_pos n k : k ≤ n → 0 < choose n k.
Proof.
  revert k. induction n as [|n IH]; intros [|k] Hk; cbn [choose]; try lia.
  specialize (IH k ltac:(lia)). lia.
Qed.

Lemma Nat_fact_S n : fact (S n) = S n * fact n.
Proof. done. Qed.

(** [choose n k] is [n! / (k! (n - k)!)]. *)
Lemma choose_fact n : ∀ k,
  k ≤ n → choose n k * (fact k * fact (n - k)) = fact n.
Proof.
  induction n as [|n IH]; intros [|k] Hk; try lia.
  - done.
  - rewrite choose_0_r. cbn [fact Nat.sub]. lia.
  - cbn [choose]. destruct (decide (k = n)) as [->|Hne].
    + rewrite choose_diag, choose_small by lia.
      rewrite Nat.sub_diag. cbn [fact]. lia.
    + pose proof (IH k ltac:(lia)) as IH1.
      pose proof (IH (S k) ltac:(lia)) as IH2.
      change (S n - S k) with (n - k).
      replace (n - k) with (S (n - S k)) in * by lia.
      rewrite !Nat_fact_S in *.
      assert (S n = S k + S (n - S k)) as Hn by lia.
      set (a := choose n k) in *. set (b := choose n (S k)) in *.
      set (fk := fact k) in *. set (fr := fact (n - S k)) in *.
      set (fn := fact n) in *. set (m := n - S k) in *.
      rewrite Hn.
      transitivity (S k * (a * (fk * (S m * fr)))
                    + S m * (b * (S k * fk * fr))); [lia|].
      rewrite IH1, IH2. lia.
Qed.

Lemma choose_1 n : choose n 1 = n.
Proof.
  induction n as [|n IH]; [done|].
  cbn [choose]. rewrite choose_0_r. cbn [choose] in IH. lia.
Qed.

Lemma choose_2 n : 2 * choose n 2 = n * (n - 1).
Proof.
  induction n as [|n IH]; [done|].
  change (choose (S n) 2) with (choose n 1 + choose n 2).
  rewrite choose_1. destruct n as [|n]; [done|].
  replace (S n - 1) with n in IH by lia.
  replace (S (S n) - 1) with (S n) by lia. lia.
Qed.

Section counting_facts.
Context {A : Type}.
Implicit Types (pool l c : list A) (r : nat).

Lemma combinations_count pool : ∀ r,
  length (combinations pool r) = choose (length pool) r.
Proof.
  induction pool as [|x pool IH]; intros [|r]; try done.
  cbn [combinations length choose].
  by rewrite length_app, length_fmap, !IH.
Qed.

Lemma combinations_short pool r :
  length pool < r → combinations pool r = [].
Proof.
  intros Hlt. apply length_zero_iff_nil.
  rewrite combinations_count. by apply choose_small.
Qed.

(** The multisets of [r] members of a pool of [s]: [choose (s + r - 1) r]. *)
Lemma cwr_count pool : ∀ r,
  length (combinations_with_replacement pool r)
  = choose (length pool + r - 1) r.
Proof.
  induction pool as [|x pool IH]; intros r.
  - destruct r as [|r]; [done|]. cbn [length Nat.add].
    rewrite choose_small by lia. done.
  - induction r as [|r IHr]; [by rewrite cwr_0, choose_0_r|].
    rewrite cwr_unfold, length_app, length_fmap, IHr, IH.
    cbn [length]. replace (S (length pool) + S r - 1)
      with (S (length pool + r)) by lia.
    cbn [choose].
    replace (S (length pool) + r - 1) with (length pool + r) by lia.
    replace (length pool + S r - 1) with (length pool + r) by lia.
    done.
Qed.

Lemma cwr_elem_of pool : ∀ r c x,
  c ∈ combinations_with_replacement pool r → x ∈ c → x ∈ pool.
Proof.
  induction pool as [|y pool IH]; intros r.
  - destruct r; [|by intros ?? ?%elem_of_nil].
    intros c x ->%list_elem_of_singleton ?%elem_of_nil. done.
  - induction r as [|r IHr]; intros c x.
    + rewrite cwr_0. intros ->%list_elem_of_singleton ?%elem_of_nil. done.
    + rewrite cwr_unfold, elem_of_app, list_elem_of_fmap.
      intros [(c' & -> & Hc')|Hc] Hx.
      * apply elem_of_cons in Hx as [->|Hx]; [by left|]. eauto.
      * right. eauto.
Qed.

(** Over a pool without repetition no multiset is enumerated twice, in
    whatever order. *)
Lemma cwr_NoDup pool : NoDup pool → ∀ r,
  NoDup (combinations_with_replacement pool r).
Proof.
  induction 1 as [|y pool Hy Hpool IH]; intros r.
  - destruct r; [apply NoDup_singleton|constructor].
  - induction r as [|r IHr]; [rewrite cwr_0; apply NoDup_singleton|].
    rewrite cwr_unfold. apply NoDup_app. split; [|split].
    + apply NoDup_fmap_2; [|done]. by intros ?? [=].
    + intros c (c' & -> & _)%list_elem_of_fmap Hc.
      apply Hy. eapply cwr_elem_of; [done|]. by left.
    + apply IH.
Qed.

Lemma cwr_perm_inj pool : NoDup pool → ∀ r c1 c2,
  c1 ∈ combinations_with_replacement pool r →
  c2 ∈ combinations_with_replacement pool r →
  c1 ≡ₚ c2 → c1 = c2.
Proof.
  induction 1 as [|y pool Hy Hpool IH]; intros r.
  - destruct r; [|by intros ?? ?%elem_of_nil].
    by intros c1 c2 ->%list_elem_of_singleton ->%list_elem_of_singleton.
  - induction r as [|r IHr]; intros c1 c2.
    + rewrite cwr_0.
      by intros ->%list_elem_of_singleton ->%list_elem_of_singleton.
    + rewrite cwr_unfold, !elem_of_app, !list_elem_of_fmap.
      intros [(c1' & -> & H1)|H1] [(c2' & -> & H2)|H2] Hp.
      * f_equal. apply IHr; [done..|]. by eapply Permutation_cons_inv.
      * exfalso. apply Hy. eapply cwr_elem_of; [exact H2|].
        rewrite <-Hp. by left.
      * exfalso. apply Hy. eapply cwr_elem_of; [exact H1|].
        rewrite Hp. by left.
      * by apply IH with (S r).
Qed.

End counting_facts.

(** The keys of the lookup table: sorting keeps the enumerated multisets
    apart. *)
Lemma sorted_cwr_NoDup (pool : list Z) r :
  NoDup pool → NoDup (sorted <$> combinations_with_replacement pool r).
Proof.
  intros Hpool. apply NoDup_fmap_2_strong; [|by apply cwr_NoDup].
  intros c1 c2 H1 H2 Heq. apply (cwr_perm_inj pool Hpool r); [done..|].
  by rewrite <-(sorted_Permutation c1), Heq, sorted_Permutation.
Qed.

(** *** Facts about tables, loops and sums *)

Lemma foldl_insert_size (f : list Z → Z) (keys : list (list Z)) :
  ∀ t0 : gmap (list Z) Z,
  NoDup keys → (∀ key, key ∈ keys → t0 !! key = None) →
  base.size (foldl (λ t k, <[k := f k]> t) t0 keys) = base.size t0 + length keys.
Proof.
  induction keys as [|k keys IH]; intros t0 Hnodup Hfresh; simpl; [lia|].
  apply NoDup_cons in Hnodup as [Hk Hnodup].
  rewrite IH; [|done|].
  - rewrite map_size_insert_None by (apply Hfresh; by left). lia.
  - intros key Hkey. rewrite lookup_insert_ne by (by intros ->).
    apply Hfresh. by right.
Qed.

Lemma foldl_insert_keys (f : list Z → Z) (keys : list (list Z)) :
  ∀ (t0 : gmap (list Z) Z) key,
  is_Some (foldl (λ t k, <[k := f k]> t) t0 keys !! key)
  ↔ key ∈ keys ∨ is_Some (t0 !! key).
Proof.
  induction keys as [|k keys IH]; intros t0 key; simpl.
  - rewrite elem_of_nil. tauto.
  - rewrite IH, elem_of_cons, lookup_insert_is_Some'. split.
    + intros [?|[<-|?]]; [left; by right|left; by left|by right].
    + intros [[->|?]|?]; [right; by left|by left|right; by right].
Qed.

Lemma mapM_result_ok {A B} (f : A → result B) (g : A → B) (l : list A) :
  (∀ x, x ∈ l → f x = Ok (g x)) → mapM f l = Ok (g <$> l).
Proof.
  induction l as [|x l IH]; intros Hf; [done|].
  cbn [mapM]. rewrite Hf by left. cbn [mbind result_bind].
  rewrite IH by (intros; apply Hf; by right). done.
Qed.

Lemma sum_nonneg (l : list Z) : Forall (λ x, 0 ≤ x)%Z l → (0 ≤ sum l)%Z.
Proof.
  induction 1 as [|x l Hx _ IH]; [done|]. rewrite sum_cons. lia.
Qed.

Lemma sum_take_mono {A} (f : A → Z) (l : list A) k k' :
  (∀ x, x ∈ l → 0 ≤ f x)%Z → k ≤ k' →
  (0 ≤ sum (f <$> take k l) ≤ sum (f <$> take k' l))%Z.
Proof.
  intros Hf Hk.
  assert (∀ l', l' `sublist_of` l → (0 ≤ sum (f <$> l'))%Z) as Hpos.
  { intros l' Hl'. apply sum_nonneg, Forall_fmap, Forall_forall.
    intros x Hx. apply Hf. by eapply elem_of_sublist. }
  split; [apply Hpos, sublist_take|].
  rewrite <-(take_drop k (take k' l)), fmap_app, sum_app.
  rewrite take_take, Nat.min_l by done.
  assert (drop k (take k' l) `sublist_of` l) as Hsub
    by (etrans; [apply sublist_drop|apply sublist_take]).
  specialize (Hpos _ Hsub). lia.
Qed.

Lemma sum_list_zero (f : nat → nat) (l : list nat) :
  (∀ i, i ∈ l → f i = 0) → sum_list (f <$> l) = 0.
Proof.
  induction l as [|i l IH]; intros Hf; [done|].
  cbn. rewrite Hf by left. apply IH. intros. apply Hf. by right.
Qed.


(** ** The counting script *)

Section mixed_ions_facts.
Import MixedIons.
Context {eneg : Type}.
Variable pauling_test :
  list string → list Z → list eneg → binary64 → bool → bool → bool.
Variable charge_neutrality_iter : list Z → Z → list (list Z).
Variable element_list : list string.
Variable elements : gmap string (Element eneg).

Abbreviation table := (gmap (list Z) Z).
Abbreviation state := (string * Z * eneg)%type.
Abbreviation known := (known_oxidation_states elements).
Abbreviation value_of cfg t n :=
  (combination_value pauling_test elements cfg t n).
Abbreviation everything n := (all_combinations element_list n).
Abbreviation total n := (combination_count element_list n).

Implicit Types (cfg : config) (env : run) (t : table) (st : loop_state).

(** *** The lookup table *)

Lemma foldl_insert_lookup (f : list Z → Z) (keys : list (list Z)) t0 key :
  key ∈ keys →
  foldl (λ t k, <[k := f k]> t) t0 keys !! key = Some (f key).
Proof.
  revert t0. induction keys as [|k keys IH]; intros t0 Hin; [by inv Hin|].
  simpl. destruct (decide (key ∈ keys)) as [?|Hnot]; [by apply IH|].
  assert (key = k) as -> by (by inv Hin).
  clear IH Hin. revert t0 Hnot.
  induction keys as [|k' keys IH]; intros t0 Hnot; simpl.
  - by rewrite lookup_insert_eq.
  - rewrite not_elem_of_cons in Hnot. destruct Hnot as [Hne Hnot].
    rewrite insert_insert_ne by done. by apply IH.
Qed.

Lemma range_elem_of a b i : i ∈ range a b ↔ a ≤ i < b.
Proof. unfold range. rewrite elem_of_seq. lia. Qed.

Lemma oxidation_state_combinations_lookup cfg n :
  2 ≤ n ≤ max_n cfg →
  oxidation_state_combinations elements cfg !! n
  = Some (sorted <$> combinations_with_replacement (iter_set known) n).
Proof.
  intros Hn. unfold oxidation_state_combinations.
  rewrite lookup_fmap.
  erewrite (elem_of_list_to_map_1 _ n); [done| |].
  - rewrite <-list_fmap_compose.
    assert (∀ (g : nat → list (list Z)) l, (fst ∘ (λ n, (n, g n))) <$> l = l)
      as -> by (intros g l; induction l; simpl; by f_equal).
    apply NoDup_seq.
  - apply list_elem_of_fmap. exists n. split; [done|].
    apply range_elem_of. lia.
Qed.

Lemma neutral_stoichiometries_ok cfg n :
  2 ≤ n ≤ max_n cfg →
  ∃ t, neutral_stoichiometries charge_neutrality_iter elements cfg n = Ok t
       ∧ ∀ key,
           key ∈ sorted <$> combinations_with_replacement (iter_set known) n →
           t !! key = Some (multiplicity charge_neutrality_iter cfg key).
Proof.
  intros Hn. unfold neutral_stoichiometries, getitem.
  rewrite oxidation_state_combinations_lookup by done.
  eexists. split; [done|]. intros key Hkey.
  by apply (foldl_insert_lookup (multiplicity charge_neutrality_iter cfg)).
Qed.

(** A key made of known oxidation states is one of the table's keys. *)
Lemma sorted_key_enumerated n (l : list Z) :
  length l = n → (∀ x, x ∈ l → x ∈ known) →
  sorted l ∈ sorted <$> combinations_with_replacement (iter_set known) n.
Proof.
  intros Hlen Hin.
  destruct (cwr_complete (iter_set known) n l Hlen) as (c & Hc & Hp).
  { intros x Hx. unfold iter_set. apply elem_of_elements. auto. }
  apply list_elem_of_fmap. exists c. split; [|done].
  symmetry. by apply sorted_perm_eq.
Qed.

Lemma known_oxidation_state (s : string) (e : Element eneg) x :
  elements !! s = Some e → x ∈ oxidation_states e → x ∈ known.
Proof.
  intros Hs Hx. unfold known_oxidation_states.
  apply elem_of_list_to_set, list_elem_of_bind. exists e. split; [done|].
  apply list_elem_of_fmap. exists (s, e). split; [done|].
  by apply elem_of_map_to_list.
Qed.

(** *** Counting one element combination *)

Lemma for_state_combination_ok cfg t (todo : list (list state)) c :
  (∀ sc, sc ∈ todo → is_Some (t !! sorted ((λ x, x.1.2) <$> sc))) →
  for_state_combination pauling_test cfg t todo c
  = Ok (c + sum (assignment_value pauling_test cfg t <$> todo))%Z.
Proof.
  revert c. induction todo as [|sc todo IH]; intros c Hkeys.
  - unfold sum. simpl. f_equal; lia.
  - rewrite fmap_cons, sum_cons. cbn [for_state_combination].
    unfold assignment_value at 1.
    destruct (pauling_test _ _ _ _ _ _).
    + destruct (Hkeys sc) as [m Hm]; [by left|].
      unfold getitem. rewrite Hm.
      cbn [mbind result_bind default from_option id].
      rewrite IH by (intros; apply Hkeys; by right). f_equal; lia.
    + rewrite IH by (intros; apply Hkeys; by right). f_equal; lia.
Qed.

Lemma elements_of_ok (combo : list string) :
  (∀ s, s ∈ combo → is_Some (elements !! s)) →
  ∃ ec, elements_of elements combo = Ok ec
        ∧ Forall2 (λ s e, elements !! s = Some e) combo ec.
Proof.
  induction combo as [|s combo IH]; intros Hin; simpl.
  - exists []. by split.
  - destruct (Hin s) as [e He]; [by left|].
    destruct IH as (ec & Hec & Hall); [intros; apply Hin; by right|].
    exists (e :: ec). unfold getitem. rewrite He. simpl. rewrite Hec.
    split; [done|by constructor].
Qed.

Lemma tuples_of_elements (combo : list string) ec :
  Forall2 (λ s e, elements !! s = Some e) combo ec →
  tuples_of elements combo = oxidation_states_list ec.
Proof.
  unfold tuples_of, oxidation_states_list.
  induction 1 as [|s e combo ec He _ IH]; [done|].
  rewrite !bind_cons, IH, He. simpl. by rewrite app_nil_r.
Qed.

Lemma assignment_states_known (ec : list (Element eneg)) n sc :
  Forall (λ e, ∃ s, elements !! s = Some e) ec →
  sc ∈ combinations (oxidation_states_list ec) n →
  length ((λ x : state, x.1.2) <$> sc) = n
  ∧ ∀ x, x ∈ (λ x : state, x.1.2) <$> sc → x ∈ known.
Proof.
  intros Hec Hsc. split.
  - rewrite length_fmap. by eapply combinations_length.
  - intros x (tu & -> & Htu)%list_elem_of_fmap.
    eapply combinations_elem_of in Htu; [|done].
    unfold oxidation_states_list in Htu.
    apply list_elem_of_bind in Htu as (e & Htu & He).
    apply list_elem_of_bind in Htu as (ox & Htu & Hox).
    apply list_elem_of_singleton in Htu as ->. simpl.
    rewrite Forall_forall in Hec. destruct (Hec e He) as [s Hs].
    by eapply known_oxidation_state.
Qed.

(** With the table of the round, no lookup misses and the count of a
    combination is the sum of its assignments' values. *)
Lemma count_element_combination_ok cfg n t (ec : list (Element eneg)) :
  (∀ key,
     key ∈ sorted <$> combinations_with_replacement (iter_set known) n →
     is_Some (t !! key)) →
  Forall (λ e, ∃ s, elements !! s = Some e) ec →
  count_element_combination pauling_test cfg (ec, n, t)
  = Ok (sum (assignment_value pauling_test cfg t
               <$> combinations (oxidation_states_list ec) n)).
Proof.
  intros Ht Hec. unfold count_element_combination.
  rewrite for_state_combination_ok; [f_equal; lia|].
  intros sc Hsc. apply Ht.
  destruct (assignment_states_known ec n sc Hec Hsc) as [Hlen Hin].
  by apply sorted_key_enumerated.
Qed.

Lemma task_value cfg n t (combo : list string) :
  (∀ key,
     key ∈ sorted <$> combinations_with_replacement (iter_set known) n →
     is_Some (t !! key)) →
  (∀ s, s ∈ combo → is_Some (elements !! s)) →
  (element_combination ← elements_of elements combo;
   Ok (element_combination, n, t))
    ≫= count_element_combination pauling_test cfg
  = Ok (value_of cfg t n combo).
Proof.
  intros Ht Hin. destruct (elements_of_ok combo Hin) as (ec & -> & Hall).
  cbn [mbind result_bind]. rewrite (count_element_combination_ok cfg n t ec Ht).
  - unfold combination_value. by rewrite (tuples_of_elements combo ec).
  - apply Forall_forall. intros e He.
    apply list_elem_of_lookup in He as [i Hi].
    destruct (Forall2_lookup_r _ _ _ _ _ Hall Hi) as (s & _ & Hs). eauto.
Qed.

Lemma imap_tasks cfg n t k (gen : list (list string)) :
  (∀ key,
     key ∈ sorted <$> combinations_with_replacement (iter_set known) n →
     is_Some (t !! key)) →
  (∀ combo s, combo ∈ gen → s ∈ combo → is_Some (elements !! s)) →
  imap (count_element_combination pauling_test cfg)
    (tasks elements n t k gen)
  = Ok <$> (value_of cfg t n <$> take k gen).
Proof.
  intros Ht Hgen. unfold imap, tasks. rewrite <-!list_fmap_compose.
  apply list_fmap_ext. intros i combo Hi. simpl.
  apply task_value; [done|]. intros s Hs.
  apply (Hgen combo); [|done].
  apply list_elem_of_lookup_2 in Hi.
  eapply elem_of_sublist; [done|]. apply sublist_take.
Qed.

(** *** Summing the results of a batch *)

Lemma sum_results_ok (vs : list Z) acc :
  sum_results (Ok <$> vs) acc = Ok (acc + sum vs)%Z.
Proof.
  revert acc. induction vs as [|v vs IH]; intros acc; simpl.
  - unfold sum. simpl. f_equal; lia.
  - rewrite IH, sum_cons. f_equal; lia.
Qed.

Lemma sum_results_perm (rs : list (result Z)) (vs : list Z) acc :
  rs ≡ₚ Ok <$> vs → sum_results rs acc = Ok (acc + sum vs)%Z.
Proof.
  intros Hp. apply Permutation_map_inv in Hp as (vs' & -> & Hp').
  rewrite sum_results_ok. f_equal. f_equal. symmetry.
  by apply sum_Permutation.
Qed.

Lemma fmap_join {A B} (f : A → B) (ls : list (list A)) :
  mjoin (fmap f <$> ls) = f <$> mjoin ls.
Proof.
  induction ls as [|l ls IH]; [done|].
  rewrite fmap_cons. cbn [mjoin list_join]. rewrite fmap_app. by f_equal.
Qed.

(** Whatever order the pool returns the chunks in, it returns the results
    of the serial map, permuted. *)
Lemma imap_unordered_perm {A} order (f : A → result Z) ts chunksize :
  (∀ cs, order cs ≡ₚ cs) →
  imap_unordered order f ts chunksize ≡ₚ imap f ts.
Proof.
  intros Horder. unfold imap_unordered. rewrite Horder.
  unfold imap at 1.
  rewrite (fmap_join (λ t : result A, t ≫= f)), chunks_concat. done.
Qed.

(** *** One pass of the loop *)

Lemma progress_line_inv cc dp elapsed :
  0 < cc →
  (dp = 0 → progress_line cc dp elapsed = Raise ZeroDivisionError)
  ∧ (0 < dp → ∃ r, progress_line cc dp elapsed = Ok r ∧ processed r = dp).
Proof.
  intros Hcc. unfold progress_line, truediv_int.
  rewrite (decide_False (P := cc = 0)) by lia. cbn [mbind result_bind].
  split.
  - intros ->. by rewrite decide_True.
  - intros Hdp. rewrite decide_False by lia. cbn [mbind result_bind].
    by eexists.
Qed.

(** A pass that returns has advanced [data_pointer] by the size of its
    batch, to a positive value, and added the line for it. *)
Lemma pass_inv cfg env n t cc batch_size st st' :
  data_pointer st < cc →
  pass pauling_test elements cfg env n t cc batch_size st = Ok st' →
  let iterations := batch_size `min` (cc - data_pointer st) in
  data_pointer st' = data_pointer st + iterations
  ∧ 0 < data_pointer st'
  ∧ passes st' = S (passes st)
  ∧ combination_generator st' = drop iterations (combination_generator st)
  ∧ ∃ r, printed st' = printed st ++ [r]
         ∧ processed r = data_pointer st'
         ∧ progress_line cc (data_pointer st')
             (time env (S (passes st)) - time env 0)%float
           = Ok r.
Proof.
  intros Hlt. unfold pass.
  set (iterations := batch_size `min` (cc - data_pointer st)).
  destruct (sum_results _ 0) as [b|e]; [|done].
  cbn [mbind result_bind].
  destruct (progress_line_inv cc (data_pointer st + iterations)
              (time env (S (passes st)) - time env 0)%float)
    as [Hzero Hpos]; [lia|].
  destruct (decide (data_pointer st + iterations = 0)) as [Hz|Hnz].
  { by rewrite (Hzero Hz). }
  destruct Hpos as (r & Hr & Hproc); [lia|]. rewrite Hr.
  cbn [mbind result_bind]. intros [= <-]. cbn. repeat split; try done; try lia.
  exists r. by rewrite Hproc.
Qed.

(** The only pass that can divide by zero is one that leaves
    [data_pointer] at [0]. *)
Lemma pass_stuck cfg env n t cc st :
  data_pointer st = 0 → 0 < cc →
  ∀ st', pass pauling_test elements cfg env n t cc 0 st ≠ Ok st'.
Proof.
  intros Hdp Hcc st' Hpass.
  apply pass_inv in Hpass as (Hdp' & Hpos & _); [|lia].
  rewrite Hdp in Hdp'. simpl in Hdp'. lia.
Qed.

Lemma pass_progress cfg env n t cc batch_size st st' :
  data_pointer st < cc → progress_ok cc st →
  pass pauling_test elements cfg env n t cc batch_size st = Ok st' →
  progress_ok cc st'.
Proof.
  intros Hlt [Hle Hlines Hsorted Hlast] Hpass.
  apply pass_inv in Hpass
    as (Hdp & Hpos & _ & _ & r & Hpr & Hproc & Hline); [|done].
  cbn zeta in Hdp. split.
  - lia.
  - rewrite Hpr. apply Forall_app. split.
    + eapply Forall_impl; [done|]. intros r' (? & ?).
      split; [lia|done].
    + apply Forall_singleton. rewrite Hproc. split; [lia|]. eauto.
  - rewrite Hpr. apply StronglySorted_app_2; [|done|by repeat constructor].
    intros r1 r2 Hr1 ->%list_elem_of_singleton.
    rewrite Forall_forall in Hlines. destruct (Hlines r1 Hr1) as (? & _).
    lia.
  - intros r'. rewrite Hpr, last_snoc. by intros [= <-].
Qed.

(** *** The enumerated sequence *)

Lemma all_combinations_symbols n (combo : list string) s :
  combo ∈ everything n → s ∈ combo → s ∈ element_list.
Proof.
  unfold all_combinations. intros (i & Hc & _)%list_elem_of_bind Hs.
  by eapply combinations_elem_of.
Qed.

Lemma all_combinations_length n : length (everything n) = total n.
Proof.
  unfold all_combinations, combination_count.
  induction (range 2 (n + 1)) as [|i l IH]; [done|].
  rewrite bind_cons, length_app, IH. done.
Qed.

(** *** The count kept by the loop *)

Section round.
Variables (cfg : config) (env : run) (n : nat) (t : table).
Hypothesis Ht : ∀ key,
  key ∈ sorted <$> combinations_with_replacement (iter_set known) n →
  is_Some (t !! key).
Hypothesis Hdict : ∀ s, s ∈ element_list → is_Some (elements !! s).
Hypothesis Horder :
  mp_use cfg = true → ∀ p k cs, pool_order env p k cs ≡ₚ cs.

Lemma batch_sum k i (combos : list (list string)) :
  (∀ combo, combo ∈ combos → combo ∈ everything n) →
  sum_results
    (if mp_use cfg
     then imap_unordered (pool_order env (mp_processes cfg) i)
            (count_element_combination pauling_test cfg)
            (tasks elements n t k combos) (mp_chunk_size cfg)
     else imap (count_element_combination pauling_test cfg)
            (tasks elements n t k combos))
    0
  = Ok (sum (value_of cfg t n <$> take k combos)).
Proof.
  intros Hsub.
  assert (imap (count_element_combination pauling_test cfg)
            (tasks elements n t k combos)
          = Ok <$> (value_of cfg t n <$> take k combos)) as Himap.
  { apply imap_tasks; [done|]. intros combo s Hc Hs.
    eapply Hdict, all_combinations_symbols; eauto. }
  destruct (mp_use cfg) eqn:Huse.
  - erewrite sum_results_perm; [f_equal; lia|].
    rewrite <-Himap. by apply imap_unordered_perm, Horder.
  - rewrite Himap, sum_results_ok. f_equal; lia.
Qed.

Lemma pass_count batch_size st :
  data_pointer st < total n →
  count_ok pauling_test element_list elements cfg t n st →
  let iterations := batch_size `min` (total n - data_pointer st) in
  (data_pointer st + iterations = 0 →
   pass pauling_test elements cfg env n t (total n) batch_size st
   = Raise ZeroDivisionError)
  ∧ (0 < data_pointer st + iterations →
     ∃ st', pass pauling_test elements cfg env n t (total n) batch_size st
            = Ok st'
            ∧ count_ok pauling_test element_list elements cfg t n st').
Proof.
  intros Hlt [Hgen Hcount] iterations. unfold pass. fold iterations.
  rewrite batch_sum; cycle 1.
  { intros combo Hc. rewrite Hgen in Hc.
    eapply elem_of_sublist; [done|]. apply sublist_drop. }
  cbn [mbind result_bind].
  destruct (progress_line_inv (total n) (data_pointer st + iterations)
              (time env (S (passes st)) - time env 0)%float)
    as [Hzero Hpos]; [lia|].
  split.
  - intros Hz. by rewrite (Hzero Hz).
  - intros Hp. destruct (Hpos Hp) as (r & -> & _). cbn [mbind result_bind].
    eexists. split; [done|]. split; cbn.
    + by rewrite Hgen, drop_drop.
    + rewrite Hcount, Hgen, <-take_take_drop, fmap_app, sum_app. done.
Qed.

(** *** The whole loop *)

Abbreviation loop batch_size fuel st :=
  (counting_loop pauling_test elements cfg env n t (total n) batch_size
     fuel st).

Lemma loop_finished batch_size fuel st st' :
  loop batch_size fuel st = Finished st' → total n ≤ data_pointer st'.
Proof.
  revert st. induction fuel as [|fuel IH]; intros st; simpl.
  - case_decide; [done|]. intros [= <-]. lia.
  - case_decide; [|intros [= <-]; lia].
    destruct (pass _ _ _ _ _ _ _ _ _) as [st1|e]; [apply IH|done].
Qed.

Lemma loop_progress batch_size fuel st :
  progress_ok (total n) st →
  progress_ok (total n) (last_state (loop batch_size fuel st)).
Proof.
  revert st. induction fuel as [|fuel IH]; intros st Hst; simpl.
  - by case_decide.
  - case_decide; [|done].
    destruct (pass _ _ _ _ _ _ _ _ _) as [st1|e] eqn:Hpass; [|done].
    eapply IH, pass_progress; eauto.
Qed.

Lemma loop_count batch_size fuel st :
  data_pointer st ≤ total n →
  count_ok pauling_test element_list elements cfg t n st →
  count_ok pauling_test element_list elements cfg t n
    (last_state (loop batch_size fuel st))
  ∧ data_pointer (last_state (loop batch_size fuel st)) ≤ total n.
Proof.
  revert st. induction fuel as [|fuel IH]; intros st Hle Hst; simpl.
  - by case_decide.
  - case_decide; [|done].
    destruct (pass _ _ _ _ _ _ _ _ _) as [st1|e] eqn:Hpass; [|done].
    pose proof Hpass as Hinv. apply pass_inv in Hinv as (Hdp & _); [|done].
    cbn zeta in Hdp.
    destruct (pass_count batch_size st) as [_ Hok]; [done..|].
    destruct Hok as (st2 & Hpass2 & Hst2).
    { apply pass_inv in Hpass as (? & ? & _); [|done]. cbn zeta in *. lia. }
    assert (st2 = st1) as -> by congruence.
    apply IH; [lia|done].
Qed.

(** With a batch of at least one combination the loop reaches its exit
    condition. *)
Lemma loop_terminates batch_size fuel st :
  0 < batch_size →
  total n - data_pointer st ≤ fuel →
  count_ok pauling_test element_list elements cfg t n st →
  ∃ st', loop batch_size fuel st = Finished st'
         ∧ (data_pointer st < total n → printed st' ≠ []).
Proof.
  intros Hbatch. revert st.
  induction fuel as [|fuel IH]; intros st Hfuel Hst; simpl.
  - case_decide; [lia|]. exists st. split; [done|lia].
  - case_decide; [|exists st; split; [done|lia]].
    destruct (pass_count batch_size st) as [_ Hok]; [done..|].
    destruct Hok as (st1 & Hpass & Hst1); [lia|].
    rewrite Hpass.
    apply pass_inv in Hpass as (Hdp & _ & _ & _ & r & Hr & _); [|done].
    cbn zeta in Hdp.
    destruct (IH st1) as (st' & Hloop & Hprinted); [lia|done|].
    exists st'. split; [done|]. intros _.
    destruct (decide (data_pointer st1 < total n)); [auto|].
    clear Hprinted. destruct fuel; simpl in Hloop.
    + rewrite decide_False in Hloop by done. injection Hloop as <-.
      rewrite Hr. by destruct (printed st).
    + rewrite decide_False in Hloop by done. injection Hloop as <-.
      rewrite Hr. by destruct (printed st).
Qed.

End round.

Lemma start_count_ok cfg t n :
  count_ok pauling_test element_list elements cfg t n
    (start element_list n).
Proof. by split. Qed.

Lemma start_progress_ok n : progress_ok (total n) (start element_list n).
Proof. split; cbn; [lia|constructor|constructor|done]. Qed.

(** A round that finishes has counted every combination. *)
Lemma round_finished_count cfg env n t fuel st :
  2 ≤ n ≤ max_n cfg →
  (∀ s, s ∈ element_list → is_Some (elements !! s)) →
  (mp_use cfg = true → ∀ p k cs, pool_order env p k cs ≡ₚ cs) →
  neutral_stoichiometries charge_neutrality_iter elements cfg n = Ok t →
  counting_round pauling_test charge_neutrality_iter element_list elements
    cfg env n fuel = Finished st →
  data_pointer st = total n
  ∧ count st
    = filtered_weighted_sum pauling_test element_list elements cfg n t.
Proof.
  intros Hn Hdict Horder Ht Hround.
  destruct (neutral_stoichiometries_ok cfg n Hn) as (t' & Ht' & Hkeys).
  assert (t' = t) as -> by congruence.
  unfold counting_round in Hround. rewrite Ht in Hround.
  pose proof (loop_finished _ _ _ _ _ _ _ _ Hround) as Hge.
  edestruct (loop_count cfg env n t) as [[_ Hcount] Hle];
    [by eauto|done|done| |apply start_count_ok|].
  { cbn. lia. }
  rewrite Hround in Hcount, Hle. cbn in Hcount, Hle.
  split; [lia|]. rewrite Hcount, take_ge; [done|].
  rewrite all_combinations_length. lia.
Qed.

(** A round over nothing, or with batches of at least one combination,
    finishes. *)
Lemma round_finishes cfg env n :
  2 ≤ n ≤ max_n cfg →
  (∀ s, s ∈ element_list → is_Some (elements !! s)) →
  (mp_use cfg = true → ∀ p k cs, pool_order env p k cs ≡ₚ cs) →
  total n = 0 ∨ Pos.to_nat (count_progress_interval cfg) ≤ total n →
  ∃ st, counting_round pauling_test charge_neutrality_iter element_list
          elements cfg env n (total n) = Finished st
        ∧ (0 < total n → printed st ≠ []).
Proof.
  intros Hn Hdict Horder Hsize.
  destruct (neutral_stoichiometries_ok cfg n Hn) as (t & Ht & Hkeys).
  unfold counting_round. rewrite Ht.
  destruct Hsize as [Hzero|Hsize].
  - rewrite Hzero. cbn. eexists. split; [done|lia].
  - edestruct (loop_terminates cfg env n t) with
      (batch_size := total n / Pos.to_nat (count_progress_interval cfg))
      (fuel := total n) (st := start element_list n)
      as (st & Hst & Hprinted);
      [by eauto|done|done| | |apply start_count_ok|].
    + apply Nat.div_str_pos. lia.
    + cbn. lia.
    + exists st. split; [done|]. intros Hpos. apply Hprinted. cbn. lia.
Qed.

(** With fewer combinations than progress lines the batch is empty and
    the first pass divides by [data_pointer = 0]. *)
Lemma small_round_batch cfg n :
  0 < total n < Pos.to_nat (count_progress_interval cfg) →
  total n / Pos.to_nat (count_progress_interval cfg) = 0.
Proof. intros H. apply Nat.div_small. lia. Qed.

Lemma small_round_never_finishes cfg env n fuel st :
  0 < total n < Pos.to_nat (count_progress_interval cfg) →
  counting_round pauling_test charge_neutrality_iter element_list elements
    cfg env n fuel ≠ Finished st.
Proof.
  intros Hsmall. unfold counting_round.
  destruct (neutral_stoichiometries _ _ _ _) as [t|e]; [|done].
  rewrite small_round_batch by done.
  destruct fuel as [|fuel]; cbn [counting_loop].
  - rewrite decide_True by (cbn; lia). done.
  - rewrite decide_True by (cbn; lia).
    destruct (pass _ _ _ _ _ _ _ _ _) as [st1|e] eqn:Hpass; [|done].
    exfalso. eapply pass_stuck; [| |exact Hpass]; [done|lia].
Qed.

Lemma small_round_aborts cfg env n fuel :
  2 ≤ n ≤ max_n cfg →
  (∀ s, s ∈ element_list → is_Some (elements !! s)) →
  (mp_use cfg = true → ∀ p k cs, pool_order env p k cs ≡ₚ cs) →
  0 < total n < Pos.to_nat (count_progress_interval cfg) →
  counting_round pauling_test charge_neutrality_iter element_list elements
    cfg env n (S fuel)
  = Aborted ZeroDivisionError (start element_list n).
Proof.
  intros Hn Hdict Horder Hsmall.
  destruct (neutral_stoichiometries_ok cfg n Hn) as (t & Ht & Hkeys).
  unfold counting_round. rewrite Ht, small_round_batch by done.
  cbn [counting_loop]. rewrite decide_True by (cbn; lia).
  edestruct (pass_count cfg env n t) as [Hzero _];
    [by eauto|done|done| |apply start_count_ok|].
  { cbn. lia. }
  rewrite Hzero; [done|]. cbn. lia.
Qed.

Lemma single_pass_total cfg n t :
  (∀ key,
     key ∈ sorted <$> combinations_with_replacement (iter_set known) n →
     is_Some (t !! key)) →
  (∀ s, s ∈ element_list → is_Some (elements !! s)) →
  single_pass pauling_test element_list elements cfg n t
  = Ok (filtered_weighted_sum pauling_test element_list elements cfg n t).
Proof.
  intros Ht Hdict. unfold single_pass.
  rewrite imap_tasks, sum_results_ok, take_ge by eauto using all_combinations_symbols.
  done.
Qed.

(** The pool settings do not enter the value of a combination. *)
Lemma count_ok_with_pool cfg t n st processes chunk :
  count_ok pauling_test element_list elements cfg t n st
  ↔ count_ok pauling_test element_list elements
      (with_pool cfg processes chunk) t n st.
Proof. split; intros [Hg Hc]; split; [exact Hg|exact Hc|exact Hg|exact Hc]. Qed.

Lemma count_ok_serial cfg t n st :
  count_ok pauling_test element_list elements cfg t n st
  ↔ count_ok pauling_test element_list elements (serial cfg) t n st.
Proof. split; intros [Hg Hc]; split; [exact Hg|exact Hc|exact Hg|exact Hc]. Qed.

(** The two code paths count alike: from states with the same
    [data_pointer], the parallel loop and the serial loop end with the
    same count, or both end without one. *)
Lemma loop_same_count cfg env env' n t processes chunk batch_size fuel :
  (∀ key,
     key ∈ sorted <$> combinations_with_replacement (iter_set known) n →
     is_Some (t !! key)) →
  (∀ s, s ∈ element_list → is_Some (elements !! s)) →
  (∀ p k cs, pool_order env p k cs ≡ₚ cs) →
  ∀ st st',
    data_pointer st = data_pointer st' →
    count_ok pauling_test element_list elements cfg t n st →
    count_ok pauling_test element_list elements cfg t n st' →
    final_count
      (counting_loop pauling_test elements (with_pool cfg processes chunk)
         env n t (total n) batch_size fuel st)
    = final_count
        (counting_loop pauling_test elements (serial cfg) env' n t (total n)
           batch_size fuel st').
Proof.
  intros Ht Hdict Horder.
  induction fuel as [|fuel IH]; intros st st' Hdp Hst Hst';
    cbn [counting_loop]; rewrite <-Hdp.
  - case_decide; [done|]. cbn.
    destruct Hst as [_ ->], Hst' as [_ ->]. by rewrite Hdp.
  - case_decide as Hlt; cycle 1.
    { cbn. destruct Hst as [_ ->], Hst' as [_ ->]. by rewrite Hdp. }
    destruct (pass_count (with_pool cfg processes chunk) env n t Ht Hdict
                (λ _, Horder) batch_size st Hlt) as [Hzero Hpos].
    { exact (proj1 (count_ok_with_pool _ _ _ _ _ _) Hst). }
    edestruct (pass_count (serial cfg) env' n t Ht Hdict) with
      (batch_size := batch_size) (st := st') as [Hzero' Hpos'].
    { intros [=]. }
    { lia. }
    { exact (proj1 (count_ok_serial _ _ _ _) Hst'). }
    cbn zeta in *. rewrite <-Hdp in *.
    destruct (decide (data_pointer st
                      + batch_size `min` (total n - data_pointer st) = 0))
      as [Hz|Hnz].
    + by rewrite Hzero, Hzero'.
    + destruct Hpos as (st1 & Hpass & Hst1); [lia|].
      destruct Hpos' as (st1' & Hpass' & Hst1'); [lia|].
      rewrite Hpass, Hpass'.
      apply IH;
        [|exact (proj2 (count_ok_with_pool _ _ _ _ _ _) Hst1)
         |exact (proj2 (count_ok_serial _ _ _ _) Hst1')].
      apply pass_inv in Hpass as (-> & _); [|done].
      apply pass_inv in Hpass' as (-> & _); [|lia].
      by rewrite Hdp.
Qed.

(** *** The claims about the counting script *)

(** C1.  The count a round reports at its end is the sum, over every
    element combination of the enumerated sequence and every [n]-sized
    combination of that combination's (symbol, oxidation state,
    electronegativity) tuples, of the lookup-table entry for the sorted
    oxidation states of the assignments the filter accepts; and a round
    over no combination, or over at least [count_progress_interval] of
    them, does report a count. *)
Theorem final_count_is_filtered_weighted_sum cfg env n :
  2 ≤ n ≤ max_n cfg →
  (∀ s, s ∈ element_list → is_Some (elements !! s)) →
  (∀ p k cs, pool_order env p k cs ≡ₚ cs) →
  ∃ t,
    neutral_stoichiometries charge_neutrality_iter elements cfg n = Ok t
    ∧ (∀ fuel c,
         final_count
           (counting_round pauling_test charge_neutrality_iter element_list
              elements cfg env n fuel) = Some c →
         c = filtered_weighted_sum pauling_test element_list elements cfg n t)
    ∧ (total n = 0 ∨ Pos.to_nat (count_progress_interval cfg) ≤ total n →
       ∃ fuel,
         final_count
           (counting_round pauling_test charge_neutrality_iter element_list
              elements cfg env n fuel)
         = Some (filtered_weighted_sum pauling_test element_list elements
                   cfg n t)).
Proof.
  intros Hn Hdict Horder.
  destruct (neutral_stoichiometries_ok cfg n Hn) as (t & Ht & Hkeys).
  exists t. split; [done|].
  assert (∀ fuel c,
    final_count
      (counting_round pauling_test charge_neutrality_iter element_list
         elements cfg env n fuel) = Some c →
    c = filtered_weighted_sum pauling_test element_list elements cfg n t)
    as Hpartial.
  { intros fuel c Hc.
    destruct (counting_round _ _ _ _ _ _ _ _) as [st| |] eqn:Hround;
      [|done..].
    injection Hc as <-.
    by eapply round_finished_count; eauto. }
  split; [done|]. intros Hsize.
  destruct (round_finishes cfg env n Hn Hdict (λ _, Horder) Hsize)
    as (st & Hround & _).
  exists (total n). rewrite Hround. cbn. f_equal.
  apply (Hpartial (total n)). by rewrite Hround.
Qed.

(** C2.  Whatever the number of workers, the chunk size and the order in
    which the pool returns the chunks, a round run with the pool ends with
    the same count as the round run serially, and ends with one whenever
    the serial round does. *)
Theorem parallel_total_equals_serial cfg env env' n processes chunk :
  2 ≤ n ≤ max_n cfg →
  (∀ s, s ∈ element_list → is_Some (elements !! s)) →
  (∀ p k cs, pool_order env p k cs ≡ₚ cs) →
  (∀ fuel,
     final_count
       (counting_round pauling_test charge_neutrality_iter element_list
          elements (with_pool cfg processes chunk) env n fuel)
     = final_count
         (counting_round pauling_test charge_neutrality_iter element_list
            elements (serial cfg) env' n fuel))
  ∧ (total n = 0 ∨ Pos.to_nat (count_progress_interval cfg) ≤ total n →
     ∃ fuel c,
       final_count
         (counting_round pauling_test charge_neutrality_iter element_list
            elements (with_pool cfg processes chunk) env n fuel) = Some c
       ∧ final_count
           (counting_round pauling_test charge_neutrality_iter element_list
              elements (serial cfg) env' n fuel) = Some c).
Proof.
  intros Hn Hdict Horder.
  assert (∀ fuel,
    final_count
      (counting_round pauling_test charge_neutrality_iter element_list
         elements (with_pool cfg processes chunk) env n fuel)
    = final_count
        (counting_round pauling_test charge_neutrality_iter element_list
           elements (serial cfg) env' n fuel)) as Hsame.
  { intros fuel.
    destruct (neutral_stoichiometries_ok cfg n Hn) as (t & Ht & Hkeys).
    unfold counting_round.
    change (neutral_stoichiometries charge_neutrality_iter elements
              (with_pool cfg processes chunk) n)
      with (neutral_stoichiometries charge_neutrality_iter elements cfg n).
    change (neutral_stoichiometries charge_neutrality_iter elements
              (serial cfg) n)
      with (neutral_stoichiometries charge_neutrality_iter elements cfg n).
    rewrite Ht.
    apply (loop_same_count cfg); eauto using start_count_ok. }
  split; [done|]. intros Hsize.
  destruct (round_finishes (with_pool cfg processes chunk) env n Hn Hdict
              (λ _, Horder) Hsize) as (st & Hround & _).
  exists (total n), (count st). rewrite <-Hsame, Hround. done.
Qed.

(** C3.  A single pass over the whole sequence yields the filtered,
    weighted sum.  The batched round yields the same total when it has no
    combination or at least [count_progress_interval] of them; with fewer,
    its batches are empty, its first pass divides by [data_pointer = 0],
    and it yields no total. *)
Theorem batched_count_vs_single_pass cfg env n :
  2 ≤ n ≤ max_n cfg →
  (∀ s, s ∈ element_list → is_Some (elements !! s)) →
  (∀ p k cs, pool_order env p k cs ≡ₚ cs) →
  ∃ t,
    neutral_stoichiometries charge_neutrality_iter elements cfg n = Ok t
    ∧ single_pass pauling_test element_list elements cfg n t
      = Ok (filtered_weighted_sum pauling_test element_list elements
              cfg n t)
    ∧ (total n = 0 ∨ Pos.to_nat (count_progress_interval cfg) ≤ total n →
       ∃ fuel,
         final_count
           (counting_round pauling_test charge_neutrality_iter element_list
              elements cfg env n fuel)
         = Some (filtered_weighted_sum pauling_test element_list elements
                   cfg n t))
    ∧ (0 < total n < Pos.to_nat (count_progress_interval cfg) →
       ∀ fuel,
         counting_round pauling_test charge_neutrality_iter element_list
           elements cfg env n (S fuel)
         = Aborted ZeroDivisionError (start element_list n)).
Proof.
  intros Hn Hdict Horder.
  destruct (neutral_stoichiometries_ok cfg n Hn) as (t & Ht & Hkeys).
  exists t. split; [done|]. split; [|split].
  - apply single_pass_total; eauto.
  - intros Hsize.
    destruct (round_finishes cfg env n Hn Hdict (λ _, Horder) Hsize)
      as (st & Hround & _).
    exists (total n). rewrite Hround. cbn. f_equal.
    by eapply round_finished_count; eauto.
  - intros Hsmall fuel. by apply small_round_aborts.
Qed.

(** C5.  For [n] in [range(2, max_n + 1)] the table is built, it holds
    the multiplicity of every sorted tuple of [n] known oxidation states,
    so that no lookup made while counting a combination of elements of
    the dictionary misses, and the loop is run with that one table. *)
Theorem lookup_table_complete cfg n :
  2 ≤ n ≤ max_n cfg →
  ∃ t,
    neutral_stoichiometries charge_neutrality_iter elements cfg n = Ok t
    ∧ (∀ l : list Z,
         length l = n → (∀ x, x ∈ l → x ∈ known) →
         t !! sorted l
         = Some (multiplicity charge_neutrality_iter cfg (sorted l)))
    ∧ (∀ ec : list (Element eneg),
         Forall (λ e, ∃ s, elements !! s = Some e) ec →
         (∀ sc, sc ∈ combinations (oxidation_states_list ec) n →
                is_Some (t !! sorted ((λ x : state, x.1.2) <$> sc)))
         ∧ is_ok (count_element_combination pauling_test cfg (ec, n, t)))
    ∧ (∀ env fuel,
         counting_round pauling_test charge_neutrality_iter element_list
           elements cfg env n fuel
         = counting_loop pauling_test elements cfg env n t (total n)
             (total n / Pos.to_nat (count_progress_interval cfg)) fuel
             (start element_list n)).
Proof.
  intros Hn.
  destruct (neutral_stoichiometries_ok cfg n Hn) as (t & Ht & Hkeys).
  exists t. split; [done|]. split; [|split].
  - intros l Hlen Hin. by apply Hkeys, sorted_key_enumerated.
  - intros ec Hec. split.
    + intros sc Hsc.
      destruct (assignment_states_known ec n sc Hec Hsc) as [Hlen Hin].
      rewrite Hkeys; [done|]. by apply sorted_key_enumerated.
    + rewrite (count_element_combination_ok cfg n t ec); [done| |done].
      intros key Hkey. by rewrite Hkeys.
  - intros env fuel. unfold counting_round. by rewrite Ht.
Qed.

Lemma sorted_lines_lookup (lines : list progress) i j a b :
  StronglySorted (λ a b, processed a ≤ processed b) lines →
  i ≤ j → lines !! i = Some a → lines !! j = Some b →
  processed a ≤ processed b.
Proof.
  intros Hsorted. revert i j.
  induction Hsorted as [|r lines _ IH Hall]; intros i j Hij Hi Hj.
  - by rewrite lookup_nil in Hi.
  - destruct i as [|i], j as [|j]; simplify_eq/=.
    + lia.
    + rewrite Forall_forall in Hall. apply Hall.
      by eapply list_elem_of_lookup_2.
    + lia.
    + apply (IH i j); [lia|done..].
Qed.

(** The progress lines of a round, as far as the integers go: each line
    holds the numbers of lines 151 to 154 for a positive count of processed
    combinations, the counts never decrease from one line to the next, and
    when the round finishes the last line is for all the combinations. *)
Lemma progress_lines_processed cfg env n fuel :
  let round :=
    counting_round pauling_test charge_neutrality_iter element_list
      elements cfg env n fuel in
  (∀ r, r ∈ reports round →
        0 < processed r ≤ total n
        ∧ ∃ elapsed, progress_line (total n) (processed r) elapsed = Ok r)
  ∧ (∀ i j a b,
       i ≤ j → reports round !! i = Some a → reports round !! j = Some b →
       processed a ≤ processed b)
  ∧ (∀ st r,
       round = Finished st → last (reports round) = Some r →
       processed r = total n).
Proof.
  intros round.
  assert (progress_ok (total n) (last_state round)) as Hok.
  { subst round. unfold counting_round.
    destruct (neutral_stoichiometries _ _ _ _) as [t|e].
    - apply loop_progress, start_progress_ok.
    - apply start_progress_ok. }
  assert (∀ st, round = Finished st → total n ≤ data_pointer st) as Hend.
  { subst round. unfold counting_round. intros st.
    destruct (neutral_stoichiometries _ _ _ _) as [t|e]; [|done].
    apply loop_finished. }
  clearbody round. unfold reports.
  destruct Hok as [Hle Hlines Hsorted Hlast].
  rewrite Forall_forall in Hlines. split; [|split].
  - intros r Hr. destruct (Hlines r Hr) as (Hpos & Hline).
    split; [lia|done].
  - intros i j a b. by apply sorted_lines_lookup.
  - intros st r -> Hr. pose proof (Hend st eq_refl) as Hge.
    cbn in *. specialize (Hlast r Hr). lia.
Qed.

(** C9 (as amended).  A round over at least [count_progress_interval]
    combinations reaches the exit condition of its loop, with every
    combination processed.  A round over fewer combinations, but at least
    one, has a batch size of [0]: [data_pointer] stays at [0] and the exit
    condition is never reached. *)
Theorem counting_loop_termination cfg env n :
  (2 ≤ n ≤ max_n cfg →
   (∀ s, s ∈ element_list → is_Some (elements !! s)) →
   (∀ p k cs, pool_order env p k cs ≡ₚ cs) →
   Pos.to_nat (count_progress_interval cfg) ≤ total n →
   1 ≤ total n / Pos.to_nat (count_progress_interval cfg)
   ∧ ∃ fuel st,
       counting_round pauling_test charge_neutrality_iter element_list
         elements cfg env n fuel = Finished st
       ∧ data_pointer st = total n)
  ∧ (0 < total n < Pos.to_nat (count_progress_interval cfg) →
     total n / Pos.to_nat (count_progress_interval cfg) = 0
     ∧ ∀ fuel,
         let round :=
           counting_round pauling_test charge_neutrality_iter element_list
             elements cfg env n fuel in
         data_pointer (last_state round) = 0
         ∧ ∀ st, round ≠ Finished st).
Proof.
  split.
  - intros Hn Hdict Horder Hsize. split; [apply Nat.div_str_pos; lia|].
    destruct (neutral_stoichiometries_ok cfg n Hn) as (t & Ht & Hkeys).
    destruct (round_finishes cfg env n Hn Hdict (λ _, Horder))
      as (st & Hround & _); [by right|].
    exists (total n), st. split; [done|].
    by eapply round_finished_count; eauto.
  - intros Hsmall. split; [by apply small_round_batch|].
    intros fuel round.
    assert (∀ st, round ≠ Finished st) as Hnever.
    { intros st. by apply small_round_never_finishes. }
    split; [|done]. subst round. unfold counting_round in *.
    destruct (neutral_stoichiometries _ _ _ _) as [t|e]; [|done].
    rewrite small_round_batch in * by done.
    destruct fuel as [|fuel]; cbn [counting_loop] in *.
    + by case_decide.
    + case_decide; [|done].
      destruct (pass _ _ _ _ _ _ _ _ _) as [st1|e] eqn:Hpass; [|done].
      exfalso. eapply pass_stuck; [| |exact Hpass]; [done|lia].
Qed.

(** *** Further properties of the counting script *)

(** **** How much there is to count *)

Lemma total_as_choose n :
  total n = sum_list (choose (length element_list) <$> range 2 (n + 1)).
Proof.
  unfold combination_count. f_equal.
  apply list_fmap_ext. intros _ i _. apply combinations_count.
Qed.

(** The number of element combinations a round announces is a sum of
    binomial coefficients over the sizes [2] to [n]; for [n = 2] it is
    [N (N - 1) / 2] for a list of [N] elements. *)
Theorem combination_count_binomial n :
  total n = sum_list (choose (length element_list) <$> range 2 (n + 1))
  ∧ 2 * total 2 = length element_list * (length element_list - 1).
Proof.
  split; [apply total_as_choose|].
  rewrite total_as_choose.
  cbn [range Nat.add Nat.sub seq fmap list_fmap sum_list sum_list_with].
  rewrite Nat.add_0_r. apply choose_2.
Qed.

(** The lookup table of a round has one entry for each multiset of [n]
    known oxidation states: no two of the listed keys are equal, there are
    [choose (s + n - 1) n] of them for [s] known states, and the table
    holds exactly these. *)
Theorem lookup_table_size cfg n :
  2 ≤ n ≤ max_n cfg →
  ∃ keys t,
    oxidation_state_combinations elements cfg !! n = Some keys
    ∧ neutral_stoichiometries charge_neutrality_iter elements cfg n = Ok t
    ∧ NoDup keys
    ∧ length keys = choose (length (iter_set known) + n - 1) n
    ∧ base.size t = length keys
    ∧ ∀ key, is_Some (t !! key) ↔ key ∈ keys.
Proof.
  clear pauling_test element_list. intros Hn.
  pose proof (oxidation_state_combinations_lookup cfg n Hn) as Hkeys.
  eexists _, _. split; [exact Hkeys|].
  unfold neutral_stoichiometries, getitem. rewrite Hkeys.
  cbn [mbind result_bind]. split; [done|].
  assert (NoDup (sorted <$> combinations_with_replacement (iter_set known) n))
    as Hnodup by apply sorted_cwr_NoDup, NoDup_elements.
  split; [done|]. split; [|split].
  - by rewrite length_fmap, cwr_count.
  - rewrite foldl_insert_size; [by rewrite map_size_empty|done|].
    intros. apply lookup_empty.
  - intros key. rewrite foldl_insert_keys, lookup_empty.
    split; [intros [?|[? [=]]]; done|auto].
Qed.

(** Before counting, the script announces for every size [i] from [2] to
    [max_n] the number of multisets of [i] known oxidation states. *)
Theorem announced_sizes cfg :
  announced elements cfg
  = Ok ((λ i, (i, choose (length (iter_set known) + i - 1) i))
          <$> range 2 (max_n cfg + 1)).
Proof.
  unfold announced. apply mapM_result_ok. intros i Hi%range_elem_of.
  unfold getitem. rewrite oxidation_state_combinations_lookup by lia.
  cbn [mbind result_bind]. by rewrite length_fmap, cwr_count.
Qed.

(** **** Counting one element combination *)

Abbreviation accepted cfg sc :=
  (pauling_test ((λ x : state, x.1.1) <$> sc) ((λ x : state, x.1.2) <$> sc)
     ((λ x : state, x.2) <$> sc) (pauling_test_threshold cfg) true true).
Abbreviation key_of sc := (sorted ((λ x : state, x.1.2) <$> sc)).

Lemma for_state_combination_cases cfg t (todo : list (list state)) : ∀ c,
  (∃ sc, sc ∈ todo ∧ accepted cfg sc = true ∧ t !! key_of sc = None)
  ∧ for_state_combination pauling_test cfg t todo c = Raise KeyError
  ∨ (∀ sc, sc ∈ todo → accepted cfg sc = true → is_Some (t !! key_of sc))
    ∧ for_state_combination pauling_test cfg t todo c
      = Ok (c + sum (assignment_value pauling_test cfg t <$> todo))%Z.
Proof.
  induction todo as [|sc todo IH]; intros c.
  - right. split; [by intros ? ?%elem_of_nil|].
    unfold sum. simpl. f_equal; lia.
  - cbn [for_state_combination]. rewrite fmap_cons, sum_cons.
    unfold assignment_value at 1.
    destruct (accepted cfg sc) eqn:Hacc.
    + unfold getitem. destruct (t !! key_of sc) as [m|] eqn:Hm.
      * cbn [mbind result_bind default from_option id].
        destruct (IH (c + m)%Z) as [[(sc' & ? & ? & ?) ->]|[Hall ->]].
        { left. split; [|done]. exists sc'. by rewrite elem_of_cons; auto. }
        right. split; [|f_equal; lia].
        intros sc' [->|?]%elem_of_cons ?; [by rewrite Hm|auto].
      * left. split; [|done]. exists sc. split; [by left|done].
    + destruct (IH c) as [[(sc' & ? & ? & ?) ->]|[Hall ->]].
      { left. split; [|done]. exists sc'. by rewrite elem_of_cons; auto. }
      right. split; [|f_equal; lia].
      intros sc' [->|?]%elem_of_cons ?; [congruence|auto].
Qed.

(** [count_element_combination] raises nothing but [KeyError], and raises
    it exactly when some assignment that passes the filter has a key
    missing from the table it was handed; otherwise it returns the sum of
    the table entries of the assignments that pass. *)
Theorem missing_key_raises cfg (ec : list (Element eneg)) n t :
  let r := count_element_combination pauling_test cfg (ec, n, t) in
  let missing :=
    ∃ sc, sc ∈ combinations (oxidation_states_list ec) n
          ∧ accepted cfg sc = true ∧ t !! key_of sc = None in
  (∀ e, r = Raise e → e = KeyError)
  ∧ (r = Raise KeyError ↔ missing)
  ∧ (r = Ok (sum (assignment_value pauling_test cfg t
                    <$> combinations (oxidation_states_list ec) n))
     ↔ ¬ missing).
Proof.
  cbn zeta. unfold count_element_combination.
  destruct (for_state_combination_cases cfg t
              (combinations (oxidation_states_list ec) n) 0)
    as [[Hmiss ->]|[Hall ->]].
  - split; [by intros e [= <-]|]. split; [done|].
    split; [done|]. by intros [].
  - rewrite Z.add_0_l. split; [done|].
    assert (¬ ∃ sc, sc ∈ combinations (oxidation_states_list ec) n
                    ∧ accepted cfg sc = true ∧ t !! key_of sc = None)
      as Hnone.
    { intros (sc & Hsc & Hacc & Hkey). destruct (Hall sc Hsc Hacc) as [m Hm].
      congruence. }
    split; [split; [done|by intros ?]|done].
Qed.

Lemma oxidation_states_list_length (ec : list (Element eneg)) :
  length (oxidation_states_list ec)
  = sum_list ((λ e, length (oxidation_states e)) <$> ec).
Proof.
  unfold oxidation_states_list. induction ec as [|e ec IH]; [done|].
  rewrite bind_cons, length_app, IH, fmap_cons. cbn [sum_list sum_list_with].
  f_equal. clear. induction (oxidation_states e) as [|x l IH]; [done|].
  rewrite bind_cons, length_app, IH. done.
Qed.

(** When the elements of a combination have fewer than [n] oxidation
    states between them there is no assignment to test: the count is [0],
    whatever the filter and the table. *)
Theorem short_pool_counts_nothing cfg (ec : list (Element eneg)) n t :
  sum_list ((λ e, length (oxidation_states e)) <$> ec) < n →
  count_element_combination pauling_test cfg (ec, n, t) = Ok 0%Z.
Proof.
  intros Hshort. unfold count_element_combination.
  rewrite combinations_short; [done|].
  by rewrite oxidation_states_list_length.
Qed.

(** **** The progress lines of a finished round *)

(** Pass [j + 1] starts with [j] full batches counted, fewer than there
    are combinations, and prints the line for [j + 1] batches or for all
    the combinations. *)
Lemma loop_lines cfg env n t cc bs fuel : ∀ st,
  length (printed st) = passes st →
  data_pointer st = (passes st * bs) `min` cc →
  (∀ j r, printed st !! j = Some r →
          processed r = (S j * bs) `min` cc ∧ j * bs < cc) →
  let st' :=
    last_state (counting_loop pauling_test elements cfg env n t cc bs fuel
                  st) in
  length (printed st') = passes st'
  ∧ data_pointer st' = (passes st' * bs) `min` cc
  ∧ ∀ j r, printed st' !! j = Some r →
           processed r = (S j * bs) `min` cc ∧ j * bs < cc.
Proof.
  induction fuel as [|fuel IH]; intros st Hlen Hdp Hlines;
    cbn [counting_loop].
  - by case_decide.
  - case_decide as Hlt; [|done].
    destruct (pass _ _ _ _ _ _ _ _ _) as [st1|e] eqn:Hpass; [|done].
    apply pass_inv in Hpass
      as (Hdp1 & _ & Hpasses & _ & r & Hprinted & Hproc & _); [|done].
    cbn zeta in Hdp1. apply IH.
    + rewrite Hprinted, length_app, Hpasses. cbn [length]. lia.
    + rewrite Hdp1, Hpasses. cbn [Nat.mul]. lia.
    + intros j r'. rewrite Hprinted.
      destruct (decide (j < length (printed st))) as [Hj|Hj].
      * rewrite lookup_app_l by done. apply Hlines.
      * rewrite lookup_app_r by lia.
        destruct (j - length (printed st)) as [|j'] eqn:Hj'; [|done].
        intros [= <-]. assert (j = passes st) as -> by lia.
        rewrite Hproc, Hdp1. cbn [Nat.mul]. lia.
Qed.

(** A round over at least [count_progress_interval] combinations prints
    at least that many progress lines and fewer than twice as many; line
    [j + 1] is for [j + 1] batches of [combination_count //
    count_progress_interval] combinations, the last one for all of
    them. *)
Theorem progress_line_count cfg env n :
  2 ≤ n ≤ max_n cfg →
  (∀ s, s ∈ element_list → is_Some (elements !! s)) →
  (∀ p k cs, pool_order env p k cs ≡ₚ cs) →
  Pos.to_nat (count_progress_interval cfg) ≤ total n →
  ∃ st,
    counting_round pauling_test charge_neutrality_iter element_list elements
      cfg env n (total n) = Finished st
    ∧ let interval := Pos.to_nat (count_progress_interval cfg) in
      let batch_size := total n / interval in
      interval ≤ length (printed st) < 2 * interval
      ∧ ∀ j r, printed st !! j = Some r →
               processed r = (S j * batch_size) `min` total n.
Proof.
  intros Hn Hdict Horder Hsize.
  destruct (neutral_stoichiometries_ok cfg n Hn) as (t & Ht & Hkeys).
  destruct (round_finishes cfg env n Hn Hdict (λ _, Horder))
    as (st & Hround & _); [by right|].
  exists st. split; [done|].
  destruct (round_finished_count cfg env n t (total n) st Hn Hdict
              (λ _, Horder) Ht Hround) as [Hdp _].
  unfold counting_round in Hround. rewrite Ht in Hround.
  set (interval := Pos.to_nat (count_progress_interval cfg)) in *.
  set (bs := total n / interval) in *. cbn zeta.
  destruct (loop_lines cfg env n t (total n) bs (total n)
              (start element_list n)) as (Hlen & Hmin & Hlines);
    [done|done|intros j r Hj; cbn in Hj; by rewrite lookup_nil in Hj|].
  rewrite Hround in Hlen, Hmin, Hlines. cbn [last_state] in *.
  split; [|intros j r Hj; by apply Hlines].
  rewrite Hlen. set (p := passes st) in *.
  assert (0 < interval) as Hpos by (subst interval; lia).
  pose proof (Nat.div_mod_eq (total n) interval) as Hdiv.
  pose proof (Nat.mod_upper_bound (total n) interval ltac:(lia)) as Hmod.
  fold bs in Hdiv.
  assert (0 < p) as Hp by (destruct p; [cbn in Hmin|]; lia).
  destruct (lookup_lt_is_Some_2 (printed st) (p - 1)) as [r Hr]; [lia|].
  destruct (Hlines _ _ Hr) as [_ Hlast].
  assert (total n ≤ p * bs) as Hall by lia.
  split; nia.
Qed.

(** **** The running count *)

Lemma loop_pointer_mono cfg env n t cc bs fuel : ∀ st,
  data_pointer
    (last_state (counting_loop pauling_test elements cfg env n t cc bs fuel
                   st))
  ≤ data_pointer
      (last_state (counting_loop pauling_test elements cfg env n t cc bs
                     (S fuel) st)).
Proof.
  induction fuel as [|fuel IH]; intros st.
  - cbn [counting_loop]. case_decide as Hlt; [|done].
    destruct (pass _ _ _ _ _ _ _ _ _) as [st1|e] eqn:Hpass; [|done].
    apply pass_inv in Hpass as (Hdp1 & _); [|done]. cbn zeta in Hdp1.
    case_decide; cbn [last_state]; lia.
  - remember (S fuel) as fuel1 eqn:Hfuel1.
    cbn [counting_loop]. subst fuel1.
    case_decide; [|by cbn [counting_loop]; rewrite decide_False].
    change (counting_loop pauling_test elements cfg env n t cc bs
              (S fuel) st)
      with (if decide (data_pointer st < cc) then
              match pass pauling_test elements cfg env n t cc bs st with
              | Ok st' =>
                  counting_loop pauling_test elements cfg env n t cc bs
                    fuel st'
              | Raise e => Aborted e st
              end
            else Finished st) at 1.
    rewrite decide_True by done.
    destruct (pass _ _ _ _ _ _ _ _ _) as [st1|e]; [apply IH|done].
Qed.

Lemma table_entries_nonneg cfg n t :
  neutral_stoichiometries charge_neutrality_iter elements cfg n = Ok t →
  ∀ key m, t !! key = Some m → (0 ≤ m)%Z.
Proof.
  unfold neutral_stoichiometries, getitem.
  destruct (oxidation_state_combinations elements cfg !! n) as [keys|];
    [|done].
  cbn [mbind result_bind]. intros [= <-] key m Hm.
  assert (key ∈ keys) as Hkey.
  { destruct (foldl_insert_keys (multiplicity charge_neutrality_iter cfg)
                keys ∅ key) as [Hin _].
    destruct Hin as [?|[? Hempty]]; [by rewrite Hm|done|].
    by rewrite lookup_empty in Hempty. }
  rewrite (foldl_insert_lookup (multiplicity charge_neutrality_iter cfg))
    in Hm by done.
  injection Hm as <-. unfold multiplicity. lia.
Qed.

Lemma value_nonneg cfg n t combo :
  (∀ key m, t !! key = Some m → (0 ≤ m)%Z) → (0 ≤ value_of cfg t n combo)%Z.
Proof.
  intros Ht. unfold combination_value.
  apply sum_nonneg, Forall_fmap, Forall_forall. intros sc _. cbn.
  unfold assignment_value. destruct (accepted cfg sc); [|done].
  destruct (t !! key_of sc) as [m|] eqn:Hm; [|done]. cbn. eauto.
Qed.

(** The count a round keeps is never negative and never decreases from
    one pass to the next, whether the round goes on, finishes or is
    aborted. *)
Theorem running_count_monotone cfg env n fuel :
  2 ≤ n ≤ max_n cfg →
  (∀ s, s ∈ element_list → is_Some (elements !! s)) →
  (∀ p k cs, pool_order env p k cs ≡ₚ cs) →
  let count_after fuel :=
    count (last_state
             (counting_round pauling_test charge_neutrality_iter
                element_list elements cfg env n fuel)) in
  (0 ≤ count_after fuel ≤ count_after (S fuel))%Z.
Proof.
  intros Hn Hdict Horder. cbn zeta.
  destruct (neutral_stoichiometries_ok cfg n Hn) as (t & Ht & Hkeys).
  unfold counting_round. rewrite Ht.
  set (bs := total n / Pos.to_nat (count_progress_interval cfg)).
  assert (∀ key,
    key ∈ sorted <$> combinations_with_replacement (iter_set known) n →
    is_Some (t !! key)) as Hsome by (intros key Hkey; by rewrite Hkeys).
  destruct (loop_count cfg env n t Hsome Hdict (λ _, Horder) bs fuel
              (start element_list n)) as [[_ Hc1] _];
    [cbn; lia|apply start_count_ok|].
  destruct (loop_count cfg env n t Hsome Hdict (λ _, Horder) bs (S fuel)
              (start element_list n)) as [[_ Hc2] _];
    [cbn; lia|apply start_count_ok|].
  rewrite Hc1, Hc2. apply sum_take_mono; [|apply loop_pointer_mono].
  intros combo _. apply value_nonneg. by eapply table_entries_nonneg.
Qed.

(** **** The rounds of the script *)

Lemma total_mono n m : n ≤ m → total n ≤ total m.
Proof.
  intros Hnm. unfold combination_count, range.
  destruct n as [|n]; [cbn; lia|].
  replace (m + 1 - 2) with ((S n + 1 - 2) + (m - S n)) by lia.
  rewrite seq_app, fmap_app, sum_list_with_app. unfold sum_list. lia.
Qed.

(** When there is no pair of elements there is no larger combination
    either. *)
Lemma total_nothing n : total 2 = 0 → total n = 0.
Proof.
  rewrite !total_as_choose.
  cbn [range Nat.add Nat.sub seq fmap list_fmap sum_list sum_list_with].
  rewrite Nat.add_0_r. unfold id. intros Hzero.
  assert (length element_list < 2) as Hshort.
  { destruct (decide (2 ≤ length element_list)) as [Hle|]; [|lia].
    apply choose_pos in Hle. lia. }
  apply sum_list_zero. intros i Hi%elem_of_seq.
  apply choose_small. lia.
Qed.

(** A round over nothing, or with batches of at least one combination,
    finishes within as many passes as it has combinations, and so with
    any larger number allowed. *)
Lemma round_finishes_within cfg env n fuel :
  2 ≤ n ≤ max_n cfg →
  (∀ s, s ∈ element_list → is_Some (elements !! s)) →
  (mp_use cfg = true → ∀ p k cs, pool_order env p k cs ≡ₚ cs) →
  total n = 0 ∨ Pos.to_nat (count_progress_interval cfg) ≤ total n →
  total n ≤ fuel →
  ∃ st t,
    counting_round pauling_test charge_neutrality_iter element_list elements
      cfg env n fuel = Finished st
    ∧ neutral_stoichiometries charge_neutrality_iter elements cfg n = Ok t
    ∧ count st
      = filtered_weighted_sum pauling_test element_list elements cfg n t.
Proof.
  intros Hn Hdict Horder Hsize Hfuel.
  destruct (neutral_stoichiometries_ok cfg n Hn) as (t & Ht & Hkeys).
  assert (∃ st,
    counting_round pauling_test charge_neutrality_iter element_list elements
      cfg env n fuel = Finished st) as [st Hround].
  { unfold counting_round. rewrite Ht.
    destruct Hsize as [Hzero|Hsize].
    - rewrite Hzero. destruct fuel; cbn; eauto.
    - edestruct (loop_terminates cfg env n t) with
        (batch_size := total n / Pos.to_nat (count_progress_interval cfg))
        (fuel := fuel) (st := start element_list n)
        as (st & Hst & _);
        [by eauto|done|done| | |apply start_count_ok|by eauto].
      + apply Nat.div_str_pos. lia.
      + cbn. lia. }
  exists st, t. split; [done|]. split; [done|].
  by eapply round_finished_count.
Qed.

Lemma rounds_complete cfg (envs : nat → run) fuel (todo : list nat) : ∀ counts,
  (∀ s, s ∈ element_list → is_Some (elements !! s)) →
  (∀ n p k cs, pool_order (envs n) p k cs ≡ₚ cs) →
  (∀ n, n ∈ todo →
        2 ≤ n ≤ max_n cfg ∧ total n ≤ fuel
        ∧ (total n = 0 ∨ Pos.to_nat (count_progress_interval cfg) ≤ total n)) →
  ∃ more,
    rounds pauling_test charge_neutrality_iter element_list elements cfg envs
      fuel todo counts = Completed (counts ++ more)
    ∧ Forall2
        (λ n c,
           c.1 = n
           ∧ ∃ t, neutral_stoichiometries charge_neutrality_iter elements
                    cfg n = Ok t
                  ∧ c.2 = filtered_weighted_sum pauling_test element_list
                            elements cfg n t)
        todo more.
Proof.
  induction todo as [|n todo IH]; intros counts Hdict Horder Htodo.
  - exists []. by rewrite app_nil_r.
  - destruct (Htodo n) as (Hn & Hfuel & Hsize); [by left|].
    destruct (round_finishes_within cfg (envs n) n fuel Hn Hdict
                (λ _, Horder n) Hsize Hfuel) as (st & t & Hround & Ht & Hcount).
    cbn [rounds]. rewrite Hround.
    destruct (IH (counts ++ [(n, count st)]) Hdict Horder)
      as (more & -> & Hmore); [intros; apply Htodo; by right|].
    exists ((n, count st) :: more). rewrite <-app_assoc. split; [done|].
    constructor; [|done]. split; [done|]. by exists t.
Qed.

(** The script prints the count of every round or of none.  When the
    list has no pair of elements, or at least [count_progress_interval]
    pairs, every round from [2] to [max_n] finishes, and its count is the
    filtered sum of the entries of its own table.  When there are pairs,
    but fewer than [count_progress_interval], the first round is aborted
    by a [ZeroDivisionError] in its first pass and no count is printed. *)
Theorem script_all_or_nothing cfg (envs : nat → run) :
  (∀ s, s ∈ element_list → is_Some (elements !! s)) →
  (∀ n p k cs, pool_order (envs n) p k cs ≡ₚ cs) →
  let interval := Pos.to_nat (count_progress_interval cfg) in
  (total 2 = 0 ∨ interval ≤ total 2 →
   ∃ sizes counts,
     main pauling_test charge_neutrality_iter element_list elements cfg envs
       (total (max_n cfg)) = Ok (sizes, Completed counts)
     ∧ Forall2
         (λ n c,
            c.1 = n
            ∧ ∃ t, neutral_stoichiometries charge_neutrality_iter elements
                     cfg n = Ok t
                   ∧ c.2 = filtered_weighted_sum pauling_test element_list
                             elements cfg n t)
         (range 2 (max_n cfg + 1)) counts)
  ∧ (0 < total 2 < interval → 2 ≤ max_n cfg →
     ∀ fuel, ∃ sizes,
       main pauling_test charge_neutrality_iter element_list elements cfg
         envs (S fuel)
       = Ok (sizes,
             Stopped 2 (Aborted ZeroDivisionError (start element_list 2))
               [])).
Proof.
  intros Hdict Horder interval.
  assert (∃ sizes, announced elements cfg = Ok sizes) as [sizes Hsizes].
  { eexists. apply mapM_result_ok with
      (g := λ i, (i, length (sorted <$> combinations_with_replacement
                                          (iter_set known) i))).
    intros i Hi%range_elem_of. unfold getitem.
    by rewrite oxidation_state_combinations_lookup by lia. }
  unfold main. rewrite Hsizes. cbn [mbind result_bind]. split.
  - intros Hsize.
    destruct (rounds_complete cfg envs (total (max_n cfg))
                (range 2 (max_n cfg + 1)) [] Hdict Horder)
      as (counts & Hrounds & Hcounts).
    { intros n Hn%range_elem_of. split; [lia|].
      split; [apply total_mono; lia|].
      destruct Hsize as [Hzero|Hsize]; [left; by apply total_nothing|].
      right. etrans; [exact Hsize|]. apply total_mono. lia. }
    exists sizes, counts. by rewrite Hrounds.
  - intros Hsmall Hmax fuel. exists sizes.
    unfold range. replace (max_n cfg + 1 - 2) with (S (max_n cfg - 2)) by lia.
    cbn [seq rounds].
    by rewrite (small_round_aborts cfg (envs 2) 2 fuel ltac:(lia) Hdict
                  (λ _, Horder 2) Hsmall).
Qed.

End mixed_ions_facts.

(** *** Elements in an assignment *)

Section assignment_facts.
Import MixedIons.
Context {eneg : Type}.
Abbreviation state := (string * Z * eneg)%type.

(** The tuples of one element in the pool. *)
Lemma tuples_with_symbol (e' : Element eneg) (s : string) (l : list Z) :
  length (filter (λ x : state, x.1.1 = s)
            (ox ← l; [(symbol e', ox, pauling_eneg e')]))
  = if decide (symbol e' = s) then length l else 0.
Proof.
  induction l as [|ox l IH]; [by case_decide|].
  rewrite bind_cons. cbn [app]. rewrite filter_cons. cbn [fst].
  destruct (decide (symbol e' = s)); cbn [length]; by rewrite IH.
Qed.

Lemma pool_without_element (l : list (Element eneg)) (s : string) :
  s ∉ symbol <$> l →
  filter (λ x : state, x.1.1 = s) (oxidation_states_list l) = [].
Proof.
  unfold oxidation_states_list. induction l as [|e1 l IH]; intros Hl; [done|].
  rewrite fmap_cons, not_elem_of_cons in Hl. destruct Hl as [Hne Hl].
  rewrite bind_cons, filter_app, IH, app_nil_r by done.
  apply length_zero_iff_nil. rewrite tuples_with_symbol.
  by rewrite decide_False by done.
Qed.

Lemma pool_of_element (ec : list (Element eneg)) e :
  NoDup (symbol <$> ec) → e ∈ ec →
  length (filter (λ x : state, x.1.1 = symbol e) (oxidation_states_list ec))
  = length (oxidation_states e).
Proof.
  induction ec as [|e0 ec IH]; intros Hnodup Hin; [by inv Hin|].
  rewrite fmap_cons, NoDup_cons in Hnodup. destruct Hnodup as [Hfresh Hnodup].
  change (oxidation_states_list (e0 :: ec))
    with ((ox ← oxidation_states e0; [(symbol e0, ox, pauling_eneg e0)])
            ++ oxidation_states_list ec).
  rewrite filter_app, length_app, tuples_with_symbol.
  apply elem_of_cons in Hin as [->|Hin].
  - rewrite decide_True by done.
    rewrite pool_without_element by done. simpl. lia.
  - rewrite decide_False.
    + by rewrite IH.
    + intros Heq. apply Hfresh. rewrite Heq. by apply list_elem_of_fmap_2.
Qed.

(** C4 (as amended).  Over a subset of elements with distinct symbols, an
    element has as many tuples in the pool as it has oxidation states, and
    no more than that many in any assignment.  In an assignment in which
    every element of the subset takes part, an element occurs twice only
    when [n] exceeds the size of the subset; when [n] equals that size such
    an assignment holds every element once. *)
Theorem assignment_element_multiplicity (ec : list (Element eneg)) n :
  NoDup (symbol <$> ec) →
  (∀ e, e ∈ ec →
     length (filter (λ x : state, x.1.1 = symbol e)
               (oxidation_states_list ec))
     = length (oxidation_states e))
  ∧ ∀ a, a ∈ combinations (oxidation_states_list ec) n →
      (∀ e, e ∈ ec →
         length (filter (λ x : state, x.1.1 = symbol e) a)
         ≤ length (oxidation_states e))
      ∧ ((∀ e, e ∈ ec → symbol e ∈ (λ x : state, x.1.1) <$> a) →
         (¬ NoDup ((λ x : state, x.1.1) <$> a) → length ec < n)
         ∧ (n = length ec → NoDup ((λ x : state, x.1.1) <$> a))).
Proof.
  intros Hnodup. split; [intros e He; by apply pool_of_element|].
  intros a Ha. apply combinations_sublist in Ha as [Hsub Hlen]. split.
  - intros e He. rewrite <-(pool_of_element ec e) by done.
    by apply sublist_length, filter_sublist_mono.
  - intros Hcover.
    assert (¬ NoDup ((λ x : state, x.1.1) <$> a) → length ec < n) as Hrep.
    { intros Hdup.
      apply (remove_dups_length ((λ x : state, x.1.1) <$> a)) in Hdup.
      rewrite length_fmap, Hlen in Hdup.
      assert (symbol <$> ec ⊆+ remove_dups ((λ x : state, x.1.1) <$> a))
        as Hsubm.
      { apply NoDup_submseteq; [done|].
        intros s (e & -> & He)%list_elem_of_fmap.
        apply elem_of_remove_dups. by apply Hcover. }
      apply submseteq_length in Hsubm. rewrite length_fmap in Hsubm. lia. }
    split; [done|]. intros ->.
    destruct (decide (NoDup ((λ x : state, x.1.1) <$> a))) as [|Hdup];
      [done|].
    apply Hrep in Hdup. lia.
Qed.

End assignment_facts.

(** *** The claims at concrete inputs *)

Section mixed_ions_examples.
Import MixedIons Examples.

#[local] Set Warnings "-inexact-float,-abstract-large-number".

Ltac example_dictionary :=
  let s := fresh "s" in
  let Hs := fresh "Hs" in
  intros s Hs; rewrite list_elem_of_In in Hs; simpl in Hs;
  repeat (destruct Hs as [<-|Hs]; [vm_compute; eauto|]); destruct Hs.

Ltac example_pool := intros; apply reverse_Permutation.

Lemma final_count_is_filtered_weighted_sum_witness :
  (2 ≤ 2 ≤ max_n two_reports)
  ∧ (∀ s, s ∈ element_list → is_Some (elements !! s))
  ∧ (∀ p k cs, pool_order env p k cs ≡ₚ cs)
  ∧ ∃ t,
      neutral_stoichiometries equal_ratios elements two_reports 2 = Ok t
      ∧ (∀ fuel c,
           final_count
             (counting_round neutral_sum equal_ratios element_list elements
                two_reports env 2 fuel) = Some c →
           c = filtered_weighted_sum neutral_sum element_list elements
                 two_reports 2 t)
      ∧ (combination_count element_list 2 = 0
         ∨ Pos.to_nat (count_progress_interval two_reports)
           ≤ combination_count element_list 2 →
         ∃ fuel,
           final_count
             (counting_round neutral_sum equal_ratios element_list elements
                two_reports env 2 fuel)
           = Some (filtered_weighted_sum neutral_sum element_list elements
                     two_reports 2 t)).
Proof.
  assert (2 ≤ 2 ≤ max_n two_reports) as Hn by (simpl; lia).
  assert (∀ s, s ∈ element_list → is_Some (elements !! s)) as Hdict
    by example_dictionary.
  assert (∀ p k cs, pool_order env p k cs ≡ₚ cs) as Horder by example_pool.
  split; [exact Hn|]. split; [exact Hdict|]. split; [exact Horder|].
  exact (final_count_is_filtered_weighted_sum neutral_sum equal_ratios
           element_list elements two_reports env 2 Hn Hdict Horder).
Defined.

Lemma parallel_total_equals_serial_witness :
  (2 ≤ 2 ≤ max_n two_reports)
  ∧ (∀ s, s ∈ element_list → is_Some (elements !! s))
  ∧ (∀ p k cs, pool_order env p k cs ≡ₚ cs)
  ∧ (∀ fuel,
       final_count
         (counting_round neutral_sum equal_ratios element_list elements
            (with_pool two_reports 2 3) env 2 fuel)
       = final_count
           (counting_round neutral_sum equal_ratios element_list elements
              (serial two_reports) env 2 fuel))
  ∧ (combination_count element_list 2 = 0
     ∨ Pos.to_nat (count_progress_interval two_reports)
       ≤ combination_count element_list 2 →
     ∃ fuel c,
       final_count
         (counting_round neutral_sum equal_ratios element_list elements
            (with_pool two_reports 2 3) env 2 fuel) = Some c
       ∧ final_count
           (counting_round neutral_sum equal_ratios element_list elements
              (serial two_reports) env 2 fuel) = Some c).
Proof.
  assert (2 ≤ 2 ≤ max_n two_reports) as Hn by (simpl; lia).
  assert (∀ s, s ∈ element_list → is_Some (elements !! s)) as Hdict
    by example_dictionary.
  assert (∀ p k cs, pool_order env p k cs ≡ₚ cs) as Horder by example_pool.
  split; [exact Hn|]. split; [exact Hdict|]. split; [exact Horder|].
  exact (parallel_total_equals_serial neutral_sum equal_ratios element_list
           elements two_reports env env 2 2 3 Hn Hdict Horder).
Defined.

(** The three-element universe under the default settings: three
    combinations for [n = 2], fewer than the hundred progress lines. *)
Lemma batched_count_vs_single_pass_witness :
  (2 ≤ 2 ≤ max_n defaults)
  ∧ (∀ s, s ∈ element_list → is_Some (elements !! s))
  ∧ (∀ p k cs, pool_order env p k cs ≡ₚ cs)
  ∧ 0 < combination_count element_list 2
      < Pos.to_nat (count_progress_interval defaults)
  ∧ ∃ t,
      neutral_stoichiometries equal_ratios elements defaults 2 = Ok t
      ∧ single_pass neutral_sum element_list elements defaults 2 t
        = Ok (filtered_weighted_sum neutral_sum element_list elements
                defaults 2 t)
      ∧ ∀ fuel,
          counting_round neutral_sum equal_ratios element_list elements
            defaults env 2 (S fuel)
          = Aborted ZeroDivisionError (start element_list 2).
Proof.
  assert (2 ≤ 2 ≤ max_n defaults) as Hn by (simpl; lia).
  assert (∀ s, s ∈ element_list → is_Some (elements !! s)) as Hdict
    by example_dictionary.
  assert (∀ p k cs, pool_order env p k cs ≡ₚ cs) as Horder by example_pool.
  assert (0 < combination_count element_list 2
            < Pos.to_nat (count_progress_interval defaults)) as Hsmall
    by (vm_compute; lia).
  split; [exact Hn|]. split; [exact Hdict|]. split; [exact Horder|].
  split; [exact Hsmall|].
  destruct (batched_count_vs_single_pass neutral_sum equal_ratios element_list
              elements defaults env 2 Hn Hdict Horder)
    as (t & Ht & Hsingle & _ & Haborts).
  exists t. split; [exact Ht|]. split; [exact Hsingle|]. exact (Haborts Hsmall).
Defined.

(** The same input, evaluated: the single pass counts three neutral
    assignments, the batched round stops in its first pass. *)
Example small_universe_single_pass :
  (t ← neutral_stoichiometries equal_ratios elements defaults 2;
   single_pass neutral_sum element_list elements defaults 2 t)
  = Ok 3%Z.
Proof. by vm_compute. Qed.

Example small_universe_batched :
  counting_round neutral_sum equal_ratios element_list elements defaults env
    2 1
  = Aborted ZeroDivisionError (start element_list 2).
Proof. by vm_compute. Qed.

Example larger_interval_batched :
  final_count
    (counting_round neutral_sum equal_ratios element_list elements
       two_reports env 2 3)
  = Some 3%Z.
Proof. by vm_compute. Qed.

(** C4, as stated, fails for hydrogen and oxygen with [n = 2]: the two
    oxidation states of hydrogen form an assignment although [n] equals
    the size of the subset. *)
Lemma repeated_element_at_subset_size :
  ¬ (∀ a : list (string * Z * binary64),
       a ∈ combinations (oxidation_states_list [H; O]) (length [H; O]) →
       NoDup ((λ x, x.1.1) <$> a)).
Proof.
  intros Hall.
  specialize (Hall [("H", 1%Z, 2.2%float); ("H", (-1)%Z, 2.2%float)]).
  assert (NoDup ["H"; "H"]) as Hdup by (apply Hall; left).
  apply NoDup_cons in Hdup as [Hnot _]. apply Hnot. by left.
Qed.

Lemma assignment_element_multiplicity_witness :
  NoDup (symbol <$> [H; O])
  ∧ (∀ e, e ∈ [H; O] →
       length (filter (λ x : string * Z * binary64, x.1.1 = symbol e)
                 (oxidation_states_list [H; O]))
       = length (oxidation_states e))
  ∧ ∀ a, a ∈ combinations (oxidation_states_list [H; O]) 2 →
      (∀ e, e ∈ [H; O] →
         length (filter (λ x : string * Z * binary64, x.1.1 = symbol e) a)
         ≤ length (oxidation_states e))
      ∧ ((∀ e, e ∈ [H; O] →
            symbol e ∈ (λ x : string * Z * binary64, x.1.1) <$> a) →
         (¬ NoDup ((λ x : string * Z * binary64, x.1.1) <$> a) →
          length [H; O] < 2)
         ∧ (2 = length [H; O] →
            NoDup ((λ x : string * Z * binary64, x.1.1) <$> a))).
Proof.
  assert (NoDup (symbol <$> [H; O])) as Hnodup by (by vm_compute; compute_done).
  split; [exact Hnodup|].
  exact (assignment_element_multiplicity [H; O] 2 Hnodup).
Defined.

Lemma lookup_table_complete_witness :
  (2 ≤ 2 ≤ max_n defaults)
  ∧ ∃ t,
      neutral_stoichiometries equal_ratios elements defaults 2 = Ok t
      ∧ (∀ l : list Z,
           length l = 2 →
           (∀ x, x ∈ l → x ∈ known_oxidation_states elements) →
           t !! sorted l = Some (multiplicity equal_ratios defaults (sorted l)))
      ∧ (∀ ec : list (Element binary64),
           Forall (λ e, ∃ s, elements !! s = Some e) ec →
           (∀ sc, sc ∈ combinations (oxidation_states_list ec) 2 →
                  is_Some (t !! sorted ((λ x : string * Z * binary64, x.1.2) <$> sc)))
           ∧ is_ok (count_element_combination neutral_sum defaults
                      (ec, 2, t)))
      ∧ (∀ env fuel,
           counting_round neutral_sum equal_ratios element_list elements
             defaults env 2 fuel
           = counting_loop neutral_sum elements defaults env 2 t
               (combination_count element_list 2)
               (combination_count element_list 2
                  / Pos.to_nat (count_progress_interval defaults))
               fuel (start element_list 2)).
Proof.
  assert (2 ≤ 2 ≤ max_n defaults) as Hn by (simpl; lia).
  split; [exact Hn|].
  exact (lookup_table_complete neutral_sum equal_ratios element_list
           elements defaults 2 Hn).
Defined.

(** C6.  The numbers of the last progress line of the [n = 2] round of
    the script as it stands (103 elements, 5253 combinations), printed 3.5
    seconds after [start_time]: the percentage is 100, and the remaining
    time, [5253 * (3.5 / 5253) - 3.5], is negative, the quotient having
    been rounded down. *)
Theorem last_line_remaining_time_negative :
  ∃ r, progress_line 5253 5253 3.5 = Ok r
       ∧ percent_done r = 100%float
       ∧ time_remaining r = (-0x1p-51)%float
       ∧ (time_remaining r <? 0)%float = true.
Proof. eexists. by vm_compute. Qed.

(** The lines of a short round, with a clock that does not step on a
    rounding error. *)
Example two_reports_lines :
  reports
    (counting_round neutral_sum equal_ratios element_list elements
       two_reports env 2 3)
  = [{| processed := 1; percent_done := 0x1.0aaaaaaaaaaabp+5;
        time_elapsed := 1; time_remaining := 2 |};
     {| processed := 2; percent_done := 0x1.0aaaaaaaaaaabp+6;
        time_elapsed := 2; time_remaining := 1 |};
     {| processed := 3; percent_done := 100;
        time_elapsed := 3; time_remaining := 0 |}]%float.
Proof. by vm_compute. Qed.

(** C9, as stated, fails for the three-element universe under the default
    settings: the round has three combinations, and with one pass allowed
    it has already stopped, on a division by zero. *)
Lemma small_round_stops_with_error :
  0 < combination_count element_list 2
    < Pos.to_nat (count_progress_interval defaults)
  ∧ ¬ (∀ fuel, ∃ st,
         counting_round neutral_sum equal_ratios element_list elements
           defaults env 2 fuel = Running st).
Proof.
  split; [vm_compute; lia|]. intros Hruns.
  destruct (Hruns 1) as [st Hst]. by vm_compute in Hst.
Qed.

Lemma counting_loop_termination_witness :
  ((2 ≤ 2 ≤ max_n two_reports)
   ∧ (∀ s, s ∈ element_list → is_Some (elements !! s))
   ∧ (∀ p k cs, pool_order env p k cs ≡ₚ cs)
   ∧ Pos.to_nat (count_progress_interval two_reports)
       ≤ combination_count element_list 2
   ∧ 1 ≤ combination_count element_list 2
         / Pos.to_nat (count_progress_interval two_reports)
   ∧ ∃ fuel st,
       counting_round neutral_sum equal_ratios element_list elements
         two_reports env 2 fuel = Finished st
       ∧ data_pointer st = combination_count element_list 2)
  ∧ (0 < combination_count element_list 2
       < Pos.to_nat (count_progress_interval defaults)
     ∧ combination_count element_list 2
         / Pos.to_nat (count_progress_interval defaults) = 0
     ∧ ∀ fuel,
         let round :=
           counting_round neutral_sum equal_ratios element_list elements
             defaults env 2 fuel in
         data_pointer (last_state round) = 0
         ∧ ∀ st, round ≠ Finished st).
Proof.
  assert (2 ≤ 2 ≤ max_n two_reports) as Hn by (simpl; lia).
  assert (∀ s, s ∈ element_list → is_Some (elements !! s)) as Hdict
    by example_dictionary.
  assert (∀ p k cs, pool_order env p k cs ≡ₚ cs) as Horder by example_pool.
  assert (Pos.to_nat (count_progress_interval two_reports)
            ≤ combination_count element_list 2) as Hlarge
    by (vm_compute; lia).
  assert (0 < combination_count element_list 2
            < Pos.to_nat (count_progress_interval defaults)) as Hsmall
    by (vm_compute; lia).
  split.
  - split; [exact Hn|]. split; [exact Hdict|]. split; [exact Horder|].
    split; [exact Hlarge|].
    exact (proj1 (counting_loop_termination neutral_sum equal_ratios
                    element_list elements two_reports env 2)
             Hn Hdict Horder Hlarge).
  - split; [exact Hsmall|].
    exact (proj2 (counting_loop_termination neutral_sum equal_ratios
                    element_list elements defaults env 2) Hsmall).
Defined.

(** *** The further properties at concrete inputs *)

Lemma lookup_table_size_witness :
  (2 ≤ 2 ≤ max_n defaults)
  ∧ ∃ keys t,
      oxidation_state_combinations elements defaults !! 2 = Some keys
      ∧ neutral_stoichiometries equal_ratios elements defaults 2 = Ok t
      ∧ NoDup keys
      ∧ length keys
        = choose (length (iter_set (known_oxidation_states elements)) + 2 - 1)
            2
      ∧ base.size t = length keys
      ∧ ∀ key, is_Some (t !! key) ↔ key ∈ keys.
Proof.
  assert (2 ≤ 2 ≤ max_n defaults) as Hn by (simpl; lia).
  split; [exact Hn|].
  exact (lookup_table_size equal_ratios elements defaults 2 Hn).
Defined.

(** Three oxidation states are known in the small universe, which makes
    six keys for pairs. *)
Example small_universe_keys :
  announced elements defaults = Ok [(2, 6); (3, 10); (4, 15)].
Proof. by vm_compute. Qed.

(** Oxygen and sodium have one oxidation state each: no assignment of
    three. *)
Lemma short_pool_counts_nothing_witness :
  sum_list ((λ e, length (oxidation_states e)) <$> [O; Na]) < 3
  ∧ count_element_combination neutral_sum defaults ([O; Na], 3, ∅) = Ok 0%Z.
Proof.
  assert (sum_list ((λ e, length (oxidation_states e)) <$> [O; Na]) < 3)
    as Hshort by (vm_compute; lia).
  split; [exact Hshort|].
  exact (short_pool_counts_nothing neutral_sum defaults [O; Na] 3 ∅ Hshort).
Defined.

(** With an empty table, hydrogen and sodium have a neutral pair whose
    key is missing; oxygen and sodium have none. *)
Example empty_table_raises :
  count_element_combination neutral_sum defaults ([H; Na], 2, ∅)
  = Raise KeyError
  ∧ count_element_combination neutral_sum defaults ([O; Na], 2, ∅) = Ok 0%Z.
Proof. by vm_compute. Qed.

Lemma progress_line_count_witness :
  (2 ≤ 2 ≤ max_n two_reports)
  ∧ (∀ s, s ∈ element_list → is_Some (elements !! s))
  ∧ (∀ p k cs, pool_order env p k cs ≡ₚ cs)
  ∧ Pos.to_nat (count_progress_interval two_reports)
      ≤ combination_count element_list 2
  ∧ ∃ st,
      counting_round neutral_sum equal_ratios element_list elements
        two_reports env 2 (combination_count element_list 2) = Finished st
      ∧ let interval := Pos.to_nat (count_progress_interval two_reports) in
        let batch_size := combination_count element_list 2 / interval in
        interval ≤ length (printed st) < 2 * interval
        ∧ ∀ j r, printed st !! j = Some r →
                 processed r
                 = (S j * batch_size) `min` combination_count element_list 2.
Proof.
  assert (2 ≤ 2 ≤ max_n two_reports) as Hn by (simpl; lia).
  assert (∀ s, s ∈ element_list → is_Some (elements !! s)) as Hdict
    by example_dictionary.
  assert (∀ p k cs, pool_order env p k cs ≡ₚ cs) as Horder by example_pool.
  assert (Pos.to_nat (count_progress_interval two_reports)
            ≤ combination_count element_list 2) as Hlarge
    by (vm_compute; lia).
  split; [exact Hn|]. split; [exact Hdict|]. split; [exact Horder|].
  split; [exact Hlarge|].
  exact (progress_line_count neutral_sum equal_ratios element_list elements
           two_reports env 2 Hn Hdict Horder Hlarge).
Defined.

Lemma running_count_monotone_witness :
  (2 ≤ 2 ≤ max_n two_reports)
  ∧ (∀ s, s ∈ element_list → is_Some (elements !! s))
  ∧ (∀ p k cs, pool_order env p k cs ≡ₚ cs)
  ∧ (0 ≤ count (last_state
                   (counting_round neutral_sum equal_ratios element_list
                      elements two_reports env 2 1))
       ≤ count (last_state
                  (counting_round neutral_sum equal_ratios element_list
                     elements two_reports env 2 2)))%Z.
Proof.
  assert (2 ≤ 2 ≤ max_n two_reports) as Hn by (simpl; lia).
  assert (∀ s, s ∈ element_list → is_Some (elements !! s)) as Hdict
    by example_dictionary.
  assert (∀ p k cs, pool_order env p k cs ≡ₚ cs) as Horder by example_pool.
  split; [exact Hn|]. split; [exact Hdict|]. split; [exact Horder|].
  exact (running_count_monotone neutral_sum equal_ratios element_list
           elements two_reports env 2 1 Hn Hdict Horder).
Defined.

(** The count of the short round after no, one, two and three passes. *)
Example small_universe_running_count :
  (λ fuel, count (last_state
                    (counting_round neutral_sum equal_ratios element_list
                       elements two_reports env 2 fuel)))
    <$> [0; 1; 2; 3]
  = [0; 1; 3; 3]%Z.
Proof. by vm_compute. Qed.

Lemma script_all_or_nothing_witness :
  (∀ s, s ∈ element_list → is_Some (elements !! s))
  ∧ (∀ (n : nat) p k cs, pool_order env p k cs ≡ₚ cs)
  ∧ (combination_count element_list 2 = 0
     ∨ Pos.to_nat (count_progress_interval two_reports)
       ≤ combination_count element_list 2)
  ∧ (∃ sizes counts,
       main neutral_sum equal_ratios element_list elements two_reports
         (λ _, env) (combination_count element_list (max_n two_reports))
       = Ok (sizes, Completed counts)
       ∧ Forall2
           (λ n c,
              c.1 = n
              ∧ ∃ t, neutral_stoichiometries equal_ratios elements
                       two_reports n = Ok t
                     ∧ c.2 = filtered_weighted_sum neutral_sum element_list
                               elements two_reports n t)
           (range 2 (max_n two_reports + 1)) counts)
  ∧ 0 < combination_count element_list 2
      < Pos.to_nat (count_progress_interval defaults)
  ∧ 2 ≤ max_n defaults
  ∧ ∀ fuel, ∃ sizes,
      main neutral_sum equal_ratios element_list elements defaults
        (λ _, env) (S fuel)
      = Ok (sizes,
            Stopped 2 (Aborted ZeroDivisionError (start element_list 2)) []).
Proof.
  assert (∀ s, s ∈ element_list → is_Some (elements !! s)) as Hdict
    by example_dictionary.
  assert (∀ (n : nat) p k cs, pool_order env p k cs ≡ₚ cs) as Horder
    by example_pool.
  assert (combination_count element_list 2 = 0
          ∨ Pos.to_nat (count_progress_interval two_reports)
            ≤ combination_count element_list 2) as Hlarge
    by (right; vm_compute; lia).
  assert (0 < combination_count element_list 2
            < Pos.to_nat (count_progress_interval defaults)) as Hsmall
    by (vm_compute; lia).
  assert (2 ≤ max_n defaults) as Hmax by (simpl; lia).
  split; [exact Hdict|]. split; [exact Horder|]. split; [exact Hlarge|].
  split.
  - exact (proj1 (script_all_or_nothing neutral_sum equal_ratios
                    element_list elements two_reports (λ _, env) Hdict
                    Horder) Hlarge).
  - split; [exact Hsmall|]. split; [exact Hmax|].
    exact (proj2 (script_all_or_nothing neutral_sum equal_ratios
                    element_list elements defaults (λ _, env) Hdict Horder)
             Hsmall Hmax).
Defined.

(** The script on the small universe, with two progress lines a round
    and with the default hundred. *)
Example small_universe_script :
  main neutral_sum equal_ratios element_list elements two_reports
    (λ _, env) 4
  = Ok ([(2, 6); (3, 10); (4, 15)], Completed [(2, 3%Z); (3, 1%Z); (4, 0%Z)])
  ∧ main neutral_sum equal_ratios element_list elements defaults
      (λ _, env) 4
    = Ok ([(2, 6); (3, 10); (4, 15)],
          Stopped 2 (Aborted ZeroDivisionError (start element_list 2)) []).
Proof. by vm_compute. Qed.

End mixed_ions_examples.

(** ** The site search *)

Section lattice_facts.
Import SmactLattice.

Lemma for_each_ok {A S} (l : list A) (body : A → S → result S)
    (step : A → S → S) (s : S) :
  (∀ x s, x ∈ l → body x s = Ok (step x s)) →
  for_each l body s = Ok (foldl (λ s x, step x s) s l).
Proof.
  revert s. induction l as [|x l IH]; intros s Hbody; [done|].
  cbn [for_each foldl]. rewrite Hbody by left. cbn [mbind result_bind].
  apply IH. intros. apply Hbody. by right.
Qed.

(** A loop whose body appends [out x] to the compositions found. *)
Lemma for_each_collect {A} (out : A → list (list string)) (l : list A)
    (body : A → list (list string) → result (list (list string))) :
  (∀ x se, x ∈ l → body x se = Ok (se ++ out x)) →
  ∀ se, for_each l body se = Ok (se ++ (l ≫= out)).
Proof.
  induction l as [|x l IH]; intros Hbody se.
  - by rewrite app_nil_r.
  - cbn [for_each]. rewrite Hbody by left. cbn [mbind result_bind].
    rewrite IH by (intros; apply Hbody; by right).
    by rewrite bind_cons, app_assoc.
Qed.

(** The same for the inner loops, which also carry [charges]; [P] is what
    the loop keeps true of it. *)
Lemma for_each_collect_charges {A} (P : list Z → Prop)
    (out : A → list (list string)) (l : list A)
    (body : A → list Z * list (list string)
            → result (list Z * list (list string))) :
  (∀ x c se, x ∈ l → P c →
     ∃ c', body x (c, se) = Ok (c', se ++ out x) ∧ P c') →
  ∀ c se, P c →
    ∃ c', for_each l body (c, se) = Ok (c', se ++ (l ≫= out)) ∧ P c'.
Proof.
  induction l as [|x l IH]; intros Hbody c se Hc.
  - exists c. by rewrite app_nil_r.
  - cbn [for_each]. destruct (Hbody x c se) as (c1 & -> & Hc1); [by left|done|].
    cbn [mbind result_bind].
    destruct (IH (λ y c se Hy, Hbody y c se (list_elem_of_further _ _ _ Hy))
                c1 (se ++ out x) Hc1) as (c2 & -> & Hc2).
    exists c2. by rewrite bind_cons, app_assoc.
Qed.

Lemma possible_elements_spec (elements : gmap string Z) oxidations e :
  e ∈ possible_elements elements oxidations
  ↔ ∃ ox, elements !! e = Some ox ∧ ox ∈ oxidations.
Proof.
  unfold possible_elements. rewrite list_elem_of_bind. split.
  - intros ([e' ox] & Hin & Hpair).
    apply list_elem_of_bind in Hin as (ox' & Hin & Hox').
    case_decide; [|by apply elem_of_nil in Hin].
    apply list_elem_of_singleton in Hin as ->. subst ox'.
    exists ox. split; [|done]. by apply elem_of_map_to_list.
  - intros (ox & He & Hox). exists (e, ox). split.
    + apply list_elem_of_bind. exists ox. split; [|done].
      rewrite decide_True by done. by left.
    + by apply elem_of_map_to_list.
Qed.

Lemma fill_atom_ok crystal (elements : gmap string Z) :
  length (sites crystal) ≤ length (site_oxidations crystal) →
  fill_atom crystal elements
  = Ok (possible_elements elements
          <$> take (length (sites crystal)) (site_oxidations crystal)).
Proof.
  intros Hlen. unfold fill_atom.
  assert (∀ k a acc,
    a + k ≤ length (site_oxidations crystal) →
    for_each (seq a k)
      (λ i atom,
         oxidations ← index (site_oxidations crystal) i;
         Ok (atom ++ [possible_elements elements oxidations]))
      acc
    = Ok (acc ++ (possible_elements elements
                    <$> take k (drop a (site_oxidations crystal))))) as Hgen.
  { induction k as [|k IH]; intros a acc Hk.
    - by rewrite app_nil_r.
    - destruct (lookup_lt_is_Some_2 (site_oxidations crystal) a) as [ox Hox];
        [lia|].
      cbn [seq for_each].
      replace (index (site_oxidations crystal) a) with (Ok ox)
        by (unfold index; by rewrite Hox).
      cbn [mbind result_bind]. rewrite IH by lia.
      rewrite (drop_S _ ox a Hox). cbn [take fmap list_fmap].
      by rewrite <-app_assoc. }
  by rewrite (Hgen _ 0 []) by lia.
Qed.

(** *** The nested loops *)

Section search.
Variables (crystal : Lattice) (elements : gmap string Z).

Abbreviation q := (site_charge crystal elements).

Lemma set_charge_ok k site (c : list Z) :
  is_Some (elements !! site) → k < length (site_ratios crystal) →
  set_charge crystal elements k site c = Ok (<[k := q k site]> c).
Proof.
  intros [ox Hox] Hk.
  destruct (lookup_lt_is_Some_2 _ _ Hk) as [r Hr].
  unfold set_charge, getitem, index, site_charge, oxidation_of, ratio_of.
  by rewrite Hox, Hr.
Qed.

Lemma check_as_append (c : list Z) se sites :
  check_lattice_charges c se sites
  = se ++ (if decide (sum c = 0%Z) then [sites] else []).
Proof.
  unfold check_lattice_charges. case_decide; [done|by rewrite app_nil_r].
Qed.

Lemma charges_begin_insert len (chosen c : list Z) v :
  charges_begin len chosen c → length chosen < len →
  charges_begin len (chosen ++ [v]) (<[length chosen := v]> c).
Proof.
  intros [Hlen (tail & ->)] Hlt. rewrite length_app in Hlen.
  destruct tail as [|x tail]; [simpl in Hlen; lia|].
  split.
  - by rewrite length_insert, length_app.
  - exists tail. rewrite <-app_assoc. simpl.
    clear. induction chosen as [|y chosen IH]; [done|]. simpl. by f_equal.
Qed.

Lemma charges_begin_weaken len (chosen c : list Z) v :
  charges_begin len (chosen ++ [v]) c → charges_begin len chosen c.
Proof.
  intros [Hlen (tail & ->)]. split; [done|].
  exists (v :: tail). by rewrite <-app_assoc.
Qed.

Lemma charges_begin_full (chosen c : list Z) :
  charges_begin (length chosen) chosen c → c = chosen.
Proof.
  intros [Hlen (tail & ->)]. rewrite length_app in Hlen.
  destruct tail; [by rewrite app_nil_r|simpl in Hlen; lia].
Qed.

(** Runs the loop that the goal is about to enter, given what it keeps
    true of [charges] and what each iteration appends. *)
Ltac enter_loop P out c' Hloop Hc' :=
  match goal with
  | |- context [for_each ?l ?body (?c, ?se)] =>
      destruct (for_each_collect_charges P out l body) with (c := c) (se := se)
        as (c' & Hloop & Hc')
  end.

Lemma sites_4_spec atom a0 a1 a2 a3 s1 s2 s3 v1 v2 v3 c se :
  atom = [a0; a1; a2; a3] →
  (∀ s, s ∈ a3 → is_Some (elements !! s)) →
  4 ≤ length (site_ratios crystal) →
  charges_begin 4 [v1; v2; v3] c →
  ∃ c', sites_4 crystal elements atom s1 s2 s3 (c, se)
        = Ok (c', se ++ completions crystal elements [a3] 3 [s1; s2; s3]
                          [v1; v2; v3])
        ∧ charges_begin 4 [v1; v2; v3] c'.
Proof.
  intros -> Hel Hr Hc. unfold sites_4. cbn [length].
  rewrite decide_True by lia.
  change (index [a0; a1; a2; a3] 3) with (Ok a3). cbn [mbind result_bind].
  enter_loop (charges_begin 4 [v1; v2; v3])
    (λ s4, completions crystal elements [] 4 ([s1; s2; s3] ++ [s4])
             ([v1; v2; v3] ++ [q 3 s4])) c' Hloop Hc'; [|exact Hc|].
  { intros s4 c0 se0 Hs4 Hc0. cbv beta iota.
    rewrite set_charge_ok by (auto; lia). cbn [mbind result_bind].
    rewrite decide_True by done.
    pose proof (charges_begin_insert 4 [v1; v2; v3] c0 (q 3 s4) Hc0) as Hc1.
    cbn [length] in Hc1. specialize (Hc1 ltac:(lia)).
    exists (<[3 := q 3 s4]> c0). split; [|by eapply charges_begin_weaken].
    rewrite check_as_append.
    by rewrite (charges_begin_full ([v1; v2; v3] ++ [q 3 s4]) _ Hc1). }
  rewrite Hloop. cbn [mbind result_bind]. unfold sites_5. cbn [length].
  rewrite decide_False by lia. by exists c'.
Qed.

Lemma sites_3_spec atom a0 a1 a2 rest s1 s2 v1 v2 c se :
  atom = a0 :: a1 :: a2 :: rest → length rest ≤ 1 →
  (∀ a s, a ∈ a2 :: rest → s ∈ a → is_Some (elements !! s)) →
  length atom ≤ length (site_ratios crystal) →
  charges_begin (length atom) [v1; v2] c →
  ∃ c', sites_3 crystal elements atom s1 s2 (c, se)
        = Ok (c', se ++ completions crystal elements (a2 :: rest) 2 [s1; s2]
                          [v1; v2])
        ∧ charges_begin (length atom) [v1; v2] c'.
Proof.
  intros -> Hrest Hel Hr Hc. unfold sites_3.
  rewrite decide_True by (cbn [length]; lia).
  change (index (a0 :: a1 :: a2 :: rest) 2) with (Ok a2).
  cbn [mbind result_bind].
  enter_loop (charges_begin (length (a0 :: a1 :: a2 :: rest)) [v1; v2])
    (λ s3, completions crystal elements rest 3 ([s1; s2] ++ [s3])
             ([v1; v2] ++ [q 2 s3])) c' Hloop Hc'; [|exact Hc|by exists c'].
  intros s3 c0 se0 Hs3 Hc0. cbv beta iota.
  rewrite set_charge_ok by (cbn [length] in *; eauto using list_elem_of_here with lia).
  cbn [mbind result_bind].
  pose proof (charges_begin_insert _ [v1; v2] c0 (q 2 s3) Hc0) as Hc1.
  cbn [length] in Hc1. specialize (Hc1 ltac:(lia)).
  destruct rest as [|a3 rest].
  - cbn [length] in *. rewrite decide_True by done.
    unfold sites_4. cbn [length]. rewrite decide_False by lia.
    exists (<[2 := q 2 s3]> c0). split; [|by eapply charges_begin_weaken].
    rewrite check_as_append.
    by rewrite (charges_begin_full ([v1; v2] ++ [q 2 s3]) _ Hc1).
  - destruct rest; [|cbn [length] in Hrest; lia].
    cbn [length] in *. rewrite decide_False by lia.
    edestruct (sites_4_spec [a0; a1; a2; a3] a0 a1 a2 a3 s1 s2 s3 v1 v2
                 (q 2 s3)) as (c1 & Hs4 & Hc1'); [done| |lia|exact Hc1|].
    { intros s Hs. apply (Hel a3); [|done]. by right; left. }
    rewrite Hs4. exists c1. split; [done|].
    apply (charges_begin_weaken _ [v1; v2] _ (q 2 s3)). exact Hc1'.
Qed.

Lemma sites_2_spec atom a0 a1 rest s1 v1 c se :
  atom = a0 :: a1 :: rest → length rest ≤ 2 →
  (∀ a s, a ∈ a1 :: rest → s ∈ a → is_Some (elements !! s)) →
  length atom ≤ length (site_ratios crystal) →
  charges_begin (length atom) [v1] c →
  ∃ c', sites_2 crystal elements atom s1 (c, se)
        = Ok (c', se ++ completions crystal elements (a1 :: rest) 1 [s1]
                          [v1])
        ∧ charges_begin (length atom) [v1] c'.
Proof.
  intros -> Hrest Hel Hr Hc. unfold sites_2.
  rewrite decide_True by (cbn [length]; lia).
  change (index (a0 :: a1 :: rest) 1) with (Ok a1).
  cbn [mbind result_bind].
  enter_loop (charges_begin (length (a0 :: a1 :: rest)) [v1])
    (λ s2, completions crystal elements rest 2 ([s1] ++ [s2])
             ([v1] ++ [q 1 s2])) c' Hloop Hc'; [|exact Hc|by exists c'].
  intros s2 c0 se0 Hs2 Hc0. cbv beta iota.
  rewrite set_charge_ok by (cbn [length] in *; eauto using list_elem_of_here with lia).
  cbn [mbind result_bind].
  pose proof (charges_begin_insert _ [v1] c0 (q 1 s2) Hc0) as Hc1.
  cbn [length] in Hc1. specialize (Hc1 ltac:(lia)).
  destruct rest as [|a2 rest].
  - cbn [length] in *. rewrite decide_True by done.
    unfold sites_3. cbn [length]. rewrite decide_False by lia.
    exists (<[1 := q 1 s2]> c0). split; [|by eapply charges_begin_weaken].
    rewrite check_as_append.
    by rewrite (charges_begin_full ([v1] ++ [q 1 s2]) _ Hc1).
  - rewrite decide_False by (cbn [length]; lia).
    edestruct (sites_3_spec (a0 :: a1 :: a2 :: rest) a0 a1 a2 rest s1 s2 v1
                 (q 1 s2)) as (c1 & Hs3 & Hc1');
      [done|cbn [length] in Hrest; lia| |done|exact Hc1|].
    { intros a s Ha Hs. apply (Hel a); [|done]. by right. }
    rewrite Hs3. exists c1. split; [done|].
    apply (charges_begin_weaken _ [v1] _ (q 1 s2)). exact Hc1'.
Qed.

Lemma sites_1_spec atom a0 rest :
  atom = a0 :: rest → length rest ≤ 3 →
  (∀ a s, a ∈ atom → s ∈ a → is_Some (elements !! s)) →
  length atom ≤ length (site_ratios crystal) →
  sites_1 crystal elements atom []
  = Ok (completions crystal elements atom 0 [] []).
Proof.
  intros -> Hrest Hel Hr. unfold sites_1.
  change (index (a0 :: rest) 0) with (Ok a0). cbn [mbind result_bind].
  rewrite (for_each_collect
             (λ s1, completions crystal elements rest 1 ([] ++ [s1])
                      ([] ++ [q 0 s1]))); [done|].
  intros s1 se Hs1.
  rewrite set_charge_ok by (cbn [length] in *; eauto using list_elem_of_here with lia).
  cbn [mbind result_bind].
  assert (charges_begin (length (a0 :: rest)) ([] ++ [q 0 s1])
            (<[0 := q 0 s1]> (replicate (length (a0 :: rest)) 0%Z))) as Hc1.
  { split; [by rewrite length_insert, length_replicate|].
    by exists (replicate (length rest) 0%Z). }
  destruct rest as [|a1 rest].
  - cbn [length] in *. rewrite decide_True by done.
    unfold sites_2. cbn [length]. rewrite decide_False by lia.
    cbn [mbind result_bind snd]. by rewrite check_as_append.
  - rewrite decide_False by (cbn [length]; lia).
    edestruct (sites_2_spec (a0 :: a1 :: rest) a0 a1 rest s1 (q 0 s1))
      as (c1 & Hs2 & _);
      [done|cbn [length] in Hrest; lia| |done|exact Hc1|].
    { intros a s Ha Hs. apply (Hel a); [|done]. by right. }
    by rewrite Hs2.
Qed.

(** The compositions the loops append, described. *)
Lemma completions_spec rest : ∀ k prefix vals l,
  l ∈ completions crystal elements rest k prefix vals
  ↔ ∃ suffix,
      l = prefix ++ suffix
      ∧ Forall2 (λ s a, s ∈ a) suffix rest
      ∧ sum (vals ++ imap (λ i, q (k + i)) suffix) = 0%Z.
Proof.
  induction rest as [|a rest IH]; intros k prefix vals l; cbn [completions].
  - split.
    + case_decide as Hsum; [|by intros ?%elem_of_nil].
      intros ->%list_elem_of_singleton. exists [].
      by rewrite !app_nil_r.
    + intros (suffix & -> & Hall & Hsum). inv Hall.
      cbn [imap] in Hsum. rewrite ?app_nil_r in *.
      rewrite decide_True by done. by left.
  - rewrite list_elem_of_bind. split.
    + intros (s & Hl & Hs). apply IH in Hl as (suffix & -> & Hall & Hsum).
      exists (s :: suffix). split; [by rewrite <-app_assoc|].
      split; [by constructor|].
      rewrite <-app_assoc in Hsum. cbn [imap app] in *.
      rewrite Nat.add_0_r.
      erewrite imap_ext; [exact Hsum|]. intros i x _. cbn. f_equal. lia.
    + intros (suffix & -> & Hall & Hsum). inv Hall. eexists. split; [|done].
      apply IH. eexists. split; [by rewrite <-app_assoc|]. split; [done|].
      rewrite <-app_assoc. cbn [imap app] in *.
      rewrite Nat.add_0_r in Hsum.
      erewrite imap_ext; [exact Hsum|]. intros i x' _. cbn. f_equal. lia.
Qed.

End search.

Lemma candidates_allowed crystal (elements : gmap string Z) (l : list string) :
  length (sites crystal) ≤ length (site_oxidations crystal) →
  Forall2 (λ s a, s ∈ a) l
    (possible_elements elements
       <$> take (length (sites crystal)) (site_oxidations crystal))
  ↔ length l = length (sites crystal)
    ∧ ∀ i element, l !! i = Some element → allowed crystal elements i element.
Proof.
  intros Hlen.
  rewrite Forall2_same_length_lookup, length_fmap, length_take_le by done.
  split; intros [Hl Hall]; (split; [done|]).
  - intros i e Hi. pose proof (lookup_lt_Some _ _ _ Hi) as Hlt.
    destruct (lookup_lt_is_Some_2 (site_oxidations crystal) i) as [oxs Hoxs];
      [lia|].
    assert (e ∈ possible_elements elements oxs) as He.
    { apply (Hall i); [done|].
      rewrite list_lookup_fmap, lookup_take_lt, Hoxs by lia. done. }
    apply possible_elements_spec in He as (ox & Hox & Hin).
    by exists ox, oxs.
  - intros i e a Hi Ha.
    rewrite list_lookup_fmap in Ha.
    destruct (take _ _ !! i) as [oxs|] eqn:Hoxs; [|done].
    injection Ha as <-. apply lookup_take_Some in Hoxs as [Hoxs _].
    destruct (Hall i e Hi) as (ox & oxs' & Hox & Hoxs' & Hin).
    apply possible_elements_spec. exists ox. split; [done|]. congruence.
Qed.

Lemma possible_compositions_ok crystal (elements : gmap string Z) :
  1 ≤ length (sites crystal) ≤ 4 → well_formed crystal →
  possible_compositions crystal elements
  = Ok (completions crystal elements
          (possible_elements elements
             <$> take (length (sites crystal)) (site_oxidations crystal))
          0 [] []).
Proof.
  intros Hsites [Hratios Hox]. unfold possible_compositions.
  rewrite fill_atom_ok by done. cbn [mbind result_bind].
  set (atom := possible_elements elements <$> _).
  assert (length atom = length (sites crystal)) as Hlen.
  { subst atom. by rewrite length_fmap, length_take_le. }
  destruct atom as [|a0 rest] eqn:Hatom; [cbn in Hlen; lia|].
  apply (sites_1_spec crystal elements (a0 :: rest) a0 rest);
    [done|cbn in Hlen; lia| |lia].
  intros a s Ha Hs. rewrite <-Hatom in Ha. subst atom.
  apply list_elem_of_fmap in Ha as (oxs & -> & _).
  apply possible_elements_spec in Hs as (ox & Hox' & _). eauto.
Qed.

(** A composition the loops append is allowed on every site and
    neutral. *)
Lemma completions_allowed crystal (elements : gmap string Z) composition :
  length (sites crystal) ≤ length (site_oxidations crystal) →
  composition
    ∈ completions crystal elements
        (possible_elements elements
           <$> take (length (sites crystal)) (site_oxidations crystal))
        0 [] [] →
  length composition = length (sites crystal)
  ∧ (∀ i element, composition !! i = Some element →
                  allowed crystal elements i element)
  ∧ charge crystal elements composition = 0%Z.
Proof.
  intros Hox (suffix & -> & Hall & Hsum)%completions_spec.
  apply candidates_allowed in Hall as [Hlen Hall]; [|done].
  by repeat split.
Qed.

(** *** Charges that float64 holds exactly *)

Lemma largest_oxidation_bound (elements : gmap string Z) element oxidation :
  elements !! element = Some oxidation →
  (Z.abs oxidation ≤ largest_oxidation elements)%Z.
Proof.
  rewrite <-elem_of_map_to_list. unfold largest_oxidation.
  induction (map_to_list elements) as [|[e ox] l IH]; [by intros ?%elem_of_nil|].
  cbn [foldr]. intros [[= <- <-]|Hin]%elem_of_cons; [lia|].
  specialize (IH Hin). lia.
Qed.

Lemma largest_oxidation_nonneg (elements : gmap string Z) :
  (0 ≤ largest_oxidation elements)%Z.
Proof.
  unfold largest_oxidation.
  induction (map_to_list elements) as [|[e ox] l IH]; cbn [foldr]; lia.
Qed.

Lemma oxidation_of_bound (elements : gmap string Z) element :
  (Z.abs (oxidation_of elements element) ≤ largest_oxidation elements)%Z.
Proof.
  unfold oxidation_of.
  destruct (elements !! element) as [ox|] eqn:Hox; cbn.
  - by eapply largest_oxidation_bound.
  - apply largest_oxidation_nonneg.
Qed.

Lemma magnitudes_bound (elements : gmap string Z) (composition : list string) :
  ∀ ratios : list Z,
    (sum (imap (λ i element,
                  Z.abs (oxidation_of elements element
                         * default 0 (ratios !! i)))
            composition)
     ≤ largest_oxidation elements
       * sum (Z.abs <$> take (length composition) ratios))%Z.
Proof.
  pose proof (largest_oxidation_nonneg elements) as Hnonneg.
  induction composition as [|element composition IH]; intros ratios.
  - cbn [imap length]. rewrite take_0. unfold sum. cbn. lia.
  - pose proof (oxidation_of_bound elements element) as Hbound.
    cbn [imap length]. rewrite sum_cons.
    destruct ratios as [|ratio ratios].
    + specialize (IH []). rewrite take_nil in *.
      erewrite (imap_ext (_ ∘ S));
        [|intros i x _; cbn [compose];
          rewrite (lookup_nil (S i)), <-(lookup_nil i); done].
      rewrite (lookup_nil 0). cbn [default from_option id].
      rewrite Z.mul_0_r. cbn [Z.abs]. lia.
    + specialize (IH ratios). cbn [take fmap list_fmap]. rewrite sum_cons.
      cbn [lookup list_lookup default from_option id compose].
      rewrite Z.abs_mul.
      erewrite (imap_ext (_ ∘ S)); [|intros i x _; cbn [compose]; done].
      pose proof (Z.abs_nonneg ratio).
      set (rest := sum (Z.abs <$> take (length composition) ratios)) in *.
      set (charges := sum (imap _ composition)) in *. nia.
Qed.

(** In that range, the charges of every composition of at most one
    element per site add up to less than [2^53] in magnitude. *)
Lemma magnitude_exact crystal (elements : gmap string Z) composition :
  float64_exact crystal elements →
  length composition ≤ length (sites crystal) →
  (magnitude crystal elements composition < 2 ^ 53)%Z.
Proof.
  unfold float64_exact, magnitude. intros Hexact Hlen.
  eapply Z.le_lt_trans; [|exact Hexact].
  etrans; [apply (magnitudes_bound elements composition (site_ratios crystal))|].
  apply Z.mul_le_mono_nonneg_l; [apply largest_oxidation_nonneg|].
  apply (sum_take_mono Z.abs (site_ratios crystal)); [|done].
  intros; lia.
Qed.

Lemma float64_exact_scaled k crystal (elements : gmap string Z) :
  k ≠ 0%Z → float64_exact (scale_ratios k crystal) elements →
  float64_exact crystal elements.
Proof.
  unfold float64_exact, scale_ratios. cbn [sites site_ratios].
  intros Hk Hexact. eapply Z.le_lt_trans; [|exact Hexact].
  pose proof (largest_oxidation_nonneg elements) as Hnonneg.
  apply Z.mul_le_mono_nonneg_l; [done|].
  rewrite <-fmap_take, <-list_fmap_compose.
  clear Hexact.
  induction (take (length (sites crystal)) (site_ratios crystal))
    as [|ratio ratios IH]; [unfold sum; cbn; lia|].
  rewrite !fmap_cons, !sum_cons. cbn [compose]. rewrite Z.abs_mul. nia.
Qed.

End lattice_facts.

(** *** The claims about the site search *)

Section lattice_claims.
Import SmactLattice Examples.

(** The float64 array of the source stops being exact at [2^53]: it
    stores [2^53 + 1] as [2^53], which is why the statements below about
    the sum of the charges are made for charges in the exact range. *)
Example float64_rounds_from_2_53 :
  (float_of_int (2 ^ 53 + 1) =? float_of_int (2 ^ 53))%float = true
  ∧ (float_of_int (2 ^ 53 - 1) =? float_of_int (2 ^ 53))%float = false.
Proof. by vm_compute. Qed.

(** C8.  On a crystal of one to four sites, each with its ratio and its
    list of oxidation states, and with charges in the range where float64
    is exact, a search that finds no neutral composition returns the
    empty list.  On the five-site crystal, where every
    candidate has charge +1 and no composition is neutral either, it does
    not: the loop over the fifth site reads the unbound name
    [crystal_site_ratios] and the search raises [NameError].  Without any
    site it raises [IndexError] on [atom[0]]. *)
Theorem empty_result_or_error :
  (∀ crystal (elements : gmap string Z),
     1 ≤ length (sites crystal) ≤ 4 → well_formed crystal →
     float64_exact crystal elements →
     (∀ composition,
        length composition = length (sites crystal) →
        (∀ i element, composition !! i = Some element →
                      allowed crystal elements i element) →
        charge crystal elements composition ≠ 0%Z) →
     possible_compositions crystal elements = Ok [])
  ∧ (∀ composition,
       length composition = length (sites five_sites) →
       (∀ i element, composition !! i = Some element →
                     allowed five_sites oxidation i element) →
       charge five_sites oxidation composition ≠ 0%Z)
  ∧ possible_compositions five_sites oxidation
    = Raise (NameError "crystal_site_ratios")
  ∧ possible_compositions no_sites oxidation = Raise IndexError.
Proof.
  split; [|split; [|split; by vm_compute]].
  { intros crystal elements Hsites Hwf _ Hnone.
    rewrite possible_compositions_ok by done.
    destruct (completions _ _ _ _ _ _) as [|composition found] eqn:Hfound;
      [done|].
    destruct (completions_allowed crystal elements composition)
      as (Hlen & Hall & Hsum); [by destruct Hwf|rewrite Hfound; by left|].
    by destruct (Hnone composition). }
  intros composition Hlen Hallowed.
  assert (∀ i element, composition !! i = Some element →
            oxidation_of oxidation element = 1%Z) as Hone.
  { intros i e Hi. destruct (Hallowed i e Hi) as (ox & oxs & Hox & Hoxs & Hin).
    unfold oxidation_of. rewrite Hox. cbn.
    assert (oxs = [1%Z]) as ->.
    { apply lookup_lt_Some in Hi as Hlt. rewrite Hlen in Hlt. cbn in Hlt.
      do 5 (destruct i as [|i]; [by injection Hoxs as <-|]).
      cbn in Hlt. lia. }
    by apply list_elem_of_singleton in Hin. }
  do 5 (destruct composition as [|? composition]; [done|]).
  destruct composition; [|done].
  unfold charge. cbn [imap compose]. unfold site_charge.
  rewrite (Hone 0 _ eq_refl), (Hone 1 _ eq_refl), (Hone 2 _ eq_refl),
    (Hone 3 _ eq_refl), (Hone 4 _ eq_refl).
  by vm_compute.
Qed.

(** The two-site crystal without an anion. *)
Lemma empty_result_or_error_witness :
  (1 ≤ length (sites cations_only) ≤ 4)
  ∧ well_formed cations_only
  ∧ float64_exact cations_only oxidation
  ∧ (∀ composition,
       length composition = length (sites cations_only) →
       (∀ i element, composition !! i = Some element →
                     allowed cations_only oxidation i element) →
       charge cations_only oxidation composition ≠ 0%Z)
  ∧ possible_compositions cations_only oxidation = Ok [].
Proof.
  assert (1 ≤ length (sites cations_only) ≤ 4) as Hsites by (simpl; lia).
  assert (well_formed cations_only) as Hwf by (split; simpl; lia).
  assert (float64_exact cations_only oxidation) as Hexact by (by vm_compute).
  assert (∀ composition,
            length composition = length (sites cations_only) →
            (∀ i element, composition !! i = Some element →
                          allowed cations_only oxidation i element) →
            charge cations_only oxidation composition ≠ 0%Z) as Hnone.
  { intros composition Hlen Hallowed.
    assert (∀ i element, composition !! i = Some element →
              (1 ≤ oxidation_of oxidation element)%Z) as Hpos.
    { intros i e Hi.
      destruct (Hallowed i e Hi) as (ox & oxs & Hox & Hoxs & Hin).
      unfold oxidation_of. rewrite Hox. cbn.
      assert (oxs = [1; 2]%Z) as ->.
      { apply lookup_lt_Some in Hi as Hlt. rewrite Hlen in Hlt. cbn in Hlt.
        do 2 (destruct i as [|i]; [by injection Hoxs as <-|]).
        cbn in Hlt. lia. }
      apply elem_of_cons in Hin as [->|Hin]; [lia|].
      apply list_elem_of_singleton in Hin as ->. lia. }
    do 2 (destruct composition as [|? composition]; [done|]).
    destruct composition; [|done].
    pose proof (Hpos 0 _ eq_refl). pose proof (Hpos 1 _ eq_refl).
    unfold charge. cbn [imap compose]. unfold site_charge.
    change (ratio_of cations_only 0) with 1%Z.
    change (ratio_of cations_only 1) with 1%Z.
    rewrite !sum_cons. unfold sum. cbn [foldl]. lia. }
  split; [exact Hsites|]. split; [exact Hwf|]. split; [exact Hexact|].
  split; [exact Hnone|].
  exact (proj1 empty_result_or_error cations_only oxidation Hsites Hwf Hexact
           Hnone).
Defined.

(** C10, as stated, fails: magnesium and oxygen fill the two sites of
    [single_valent] with zero total charge, one element per site, and are
    not returned, because the sites list only the charges +1 and -1. *)
Lemma unlisted_oxidation_state_excluded :
  ¬ (∀ found, possible_compositions single_valent oxidation = Ok found →
       ∀ composition,
         composition ∈ found
         ↔ length composition = length (sites single_valent)
           ∧ charge single_valent oxidation composition = 0%Z).
Proof.
  intros Hclaim.
  specialize (Hclaim [["Na"; "Cl"]] ltac:(by vm_compute) ["Mg"; "O"]).
  destruct Hclaim as [_ Hin]. specialize (Hin ltac:(by vm_compute)).
  apply list_elem_of_singleton in Hin. discriminate.
Qed.

(** C10 (as amended).  For a crystal of one to four sites, each with
    its ratio and its list of oxidation states, and with charges in the
    range where float64 is exact, the charges of every composition of one
    element per site add up to less than [2^53] in magnitude, so that the
    float64 sum the source tests is their exact sum; and the search
    returns exactly the lists of one element per site, in site order, in
    which the oxidation state of every element is listed for its site and
    the sum over the sites of oxidation state times ratio is zero. *)
Theorem possible_compositions_neutral crystal (elements : gmap string Z) :
  1 ≤ length (sites crystal) ≤ 4 → well_formed crystal →
  float64_exact crystal elements →
  (∀ composition,
     length composition = length (sites crystal) →
     (magnitude crystal elements composition < 2 ^ 53)%Z)
  ∧ ∃ found,
      possible_compositions crystal elements = Ok found
      ∧ ∀ composition,
          composition ∈ found
          ↔ length composition = length (sites crystal)
            ∧ (∀ i element, composition !! i = Some element →
                            allowed crystal elements i element)
            ∧ charge crystal elements composition = 0%Z.
Proof.
  intros Hsites Hwf Hexact. split.
  { intros composition Hlen. apply magnitude_exact; [done|lia]. }
  eexists. split; [by apply possible_compositions_ok|].
  intros composition. destruct Hwf as [_ Hox]. split.
  - by apply completions_allowed.
  - intros (Hlen & Hall & Hsum). apply completions_spec.
    exists composition. split; [done|]. split; [|done].
    by apply candidates_allowed.
Qed.

Lemma possible_compositions_neutral_witness :
  (1 ≤ length (sites rock_salt) ≤ 4)
  ∧ well_formed rock_salt
  ∧ float64_exact rock_salt oxidation
  ∧ (∀ composition,
       length composition = length (sites rock_salt) →
       (magnitude rock_salt oxidation composition < 2 ^ 53)%Z)
  ∧ ∃ found,
      possible_compositions rock_salt oxidation = Ok found
      ∧ ∀ composition,
          composition ∈ found
          ↔ length composition = length (sites rock_salt)
            ∧ (∀ i element, composition !! i = Some element →
                            allowed rock_salt oxidation i element)
            ∧ charge rock_salt oxidation composition = 0%Z.
Proof.
  assert (1 ≤ length (sites rock_salt) ≤ 4) as Hsites by (simpl; lia).
  assert (well_formed rock_salt) as Hwf by (split; simpl; lia).
  assert (float64_exact rock_salt oxidation) as Hexact by (by vm_compute).
  split; [exact Hsites|]. split; [exact Hwf|]. split; [exact Hexact|].
  exact (possible_compositions_neutral rock_salt oxidation Hsites Hwf
           Hexact).
Defined.

(** What the search returns there. *)
Example rock_salt_compositions :
  possible_compositions rock_salt oxidation
  = Ok [["Mg"; "O"]; ["Na"; "Cl"]].
Proof. by vm_compute. Qed.

End lattice_claims.
(** *** Further properties of the site search *)

Section lattice_more.
Import SmactLattice.

(** **** The candidates of a site *)


Lemma listed_length (e e' : string) (o : Z) (oxidations : list Z) :
  length (filter (λ x, x = e)
            (ox_state_a ← oxidations;
             if decide (o = ox_state_a) then [e'] else []))
  = if decide (e' = e) then length (filter (λ x, x = o) oxidations) else 0.
Proof.
  induction oxidations as [|a l IH]; [case_decide; reflexivity|].
  rewrite bind_cons, filter_app, length_app, IH, (filter_cons _ a).
  destruct (decide (o = a)) as [->|Hne], (decide (e' = e)) as [->|He];
    rewrite ?filter_cons, ?filter_nil; repeat case_decide;
    cbn [length]; congruence || lia.
Qed.

Lemma listed_pairs (pairs : list (string * Z)) oxidations e :
  NoDup pairs.*1 →
  length (filter (λ x, x = e)
            ('(element, oxidation) ← pairs;
             ox_state_a ← oxidations;
             if decide (oxidation = ox_state_a) then [element] else []))
  = match list_to_map (M := gmap string Z) pairs !! e with
    | Some ox => length (filter (λ o, o = ox) oxidations)
    | None => 0
    end.
Proof.
  induction pairs as [|[e' o] pairs IH]; intros Hnodup; [done|].
  rewrite fmap_cons in Hnodup. apply NoDup_cons in Hnodup as [Hfresh Hnodup].
  rewrite bind_cons, filter_app, length_app, listed_length, IH by done.
  cbn [list_to_map foldr uncurry]. destruct (decide (e' = e)) as [->|Hne].
  - rewrite lookup_insert_eq.
    rewrite (not_elem_of_list_to_map_1 (M := gmap string)) by done.
    cbn [snd]. lia.
  - by rewrite lookup_insert_ne.
Qed.

(** An element is a candidate of a site once for every entry of the
    site's list of oxidation states that equals its own: not at all when
    its state is not listed or it is not in the dictionary, once when the
    list has no repetition. *)
Theorem possible_elements_multiplicity (elements : gmap string Z)
    oxidations e :
  length (filter (λ x, x = e) (possible_elements elements oxidations))
  = match elements !! e with
    | Some ox => length (filter (λ o, o = ox) oxidations)
    | None => 0
    end.
Proof.
  unfold possible_elements.
  rewrite listed_pairs by apply NoDup_fst_map_to_list.
  by rewrite list_to_map_to_list.
Qed.

(** **** Compositions found twice *)



(** **** Site ratios in proportion *)

Lemma sum_scaled (k : Z) (l : list Z) : sum (Z.mul k <$> l) = (k * sum l)%Z.
Proof.
  induction l as [|x l IH]; [unfold sum; simpl; lia|].
  rewrite fmap_cons, !sum_cons, IH. lia.
Qed.

Lemma site_charge_scaled k crystal (elements : gmap string Z) i element :
  site_charge (scale_ratios k crystal) elements i element
  = (k * site_charge crystal elements i element)%Z.
Proof.
  unfold site_charge, ratio_of, scale_ratios. cbn [site_ratios].
  rewrite list_lookup_fmap.
  destruct (site_ratios crystal !! i); cbn; lia.
Qed.

Lemma completions_scaled k crystal (elements : gmap string Z) rest :
  k ≠ 0%Z →
  ∀ i prefix charges,
    completions (scale_ratios k crystal) elements rest i prefix
      (Z.mul k <$> charges)
    = completions crystal elements rest i prefix charges.
Proof.
  intros Hk. induction rest as [|a rest IH]; intros i prefix charges;
    cbn [completions].
  - rewrite sum_scaled. repeat case_decide; try done; nia.
  - apply list_bind_ext; [|done]. intros site.
    by rewrite <-IH, fmap_app, site_charge_scaled.
Qed.

(** Only the proportions of the site ratios matter: multiplying all of
    them by the same non-zero integer leaves the result as it is, as long
    as the multiplied charges stay in the range where float64 is exact.
    The charges of the crystal itself are then in that range too. *)
Theorem ratios_in_proportion k crystal (elements : gmap string Z) :
  k ≠ 0%Z → 1 ≤ length (sites crystal) ≤ 4 → well_formed crystal →
  float64_exact (scale_ratios k crystal) elements →
  float64_exact crystal elements
  ∧ possible_compositions (scale_ratios k crystal) elements
    = possible_compositions crystal elements.
Proof.
  intros Hk Hsites [Hratios Hox] Hexact.
  split; [by eapply float64_exact_scaled|].
  rewrite !possible_compositions_ok; [|done|by split|done|].
  - f_equal. by apply (completions_scaled k crystal elements _ Hk 0 [] []).
  - split; cbn; [by rewrite length_fmap|done].
Qed.

(** **** Missing lists *)

Lemma fill_atom_short crystal (elements : gmap string Z) :
  length (site_oxidations crystal) < length (sites crystal) →
  fill_atom crystal elements = Raise IndexError.
Proof.
  intros Hshort. unfold fill_atom.
  assert (∀ k a acc,
    a ≤ length (site_oxidations crystal) < a + k →
    for_each (seq a k)
      (λ i atom,
         oxidations ← index (site_oxidations crystal) i;
         Ok (atom ++ [possible_elements elements oxidations]))
      acc
    = Raise IndexError) as Hgen.
  { induction k as [|k IH]; intros a acc Hk; [lia|].
    cbn [seq for_each].
    destruct (site_oxidations crystal !! a) as [ox|] eqn:Hox.
    - replace (index (site_oxidations crystal) a) with (Ok ox)
        by (unfold index; by rewrite Hox).
      cbn [mbind result_bind]. apply IH.
      apply lookup_lt_Some in Hox. lia.
    - replace (index (site_oxidations crystal) a)
        with (Raise (A := list Z) IndexError)
        by (unfold index; by rewrite Hox).
      reflexivity. }
  apply Hgen. lia.
Qed.

(** A crystal without sites, or with fewer lists of oxidation states
    than sites, makes the search raise [IndexError], whatever the
    dictionary. *)
Theorem missing_lists_raise crystal (elements : gmap string Z) :
  sites crystal = []
  ∨ length (site_oxidations crystal) < length (sites crystal) →
  possible_compositions crystal elements = Raise IndexError.
Proof.
  intros [Hnone|Hshort]; unfold possible_compositions.
  - unfold fill_atom. by rewrite Hnone.
  - by rewrite fill_atom_short.
Qed.

(** **** Five sites and more *)


Section many_sites.
Variables (crystal : Lattice) (elements : gmap string Z).
Variables (a0 a1 a2 a3 a4 : list string) (rest : list (list string)).

Abbreviation atom := (a0 :: a1 :: a2 :: a3 :: a4 :: rest).
Abbreviation unbound := (NameError "crystal_site_ratios").

Hypothesis Hel : ∀ a s, a ∈ atom → s ∈ a → is_Some (elements !! s).
Hypothesis Hr : 4 ≤ length (site_ratios crystal).






End many_sites.


(** **** The further properties at concrete inputs *)

Section lattice_more_examples.
Import Examples.


(** A state listed twice for a site makes its elements candidates twice,
    and their compositions are found twice. *)
Example repeated_state_found_twice :
  ∃ NaCl,
    possible_elements oxidation [1; 1]%Z = ["Na"; "Na"]
    ∧ possible_compositions single_valent oxidation = Ok [NaCl]
    ∧ possible_compositions repeated_state oxidation = Ok [NaCl; NaCl].
Proof. eexists. by vm_compute. Qed.

Lemma ratios_in_proportion_witness :
  2%Z ≠ 0%Z
  ∧ (1 ≤ length (sites rock_salt) ≤ 4)
  ∧ well_formed rock_salt
  ∧ float64_exact (scale_ratios 2 rock_salt) oxidation
  ∧ float64_exact rock_salt oxidation
  ∧ possible_compositions (scale_ratios 2 rock_salt) oxidation
    = possible_compositions rock_salt oxidation.
Proof.
  assert (2%Z ≠ 0%Z) as Hk by done.
  assert (1 ≤ length (sites rock_salt) ≤ 4) as Hsites by (simpl; lia).
  assert (well_formed rock_salt) as Hwf by (split; simpl; lia).
  assert (float64_exact (scale_ratios 2 rock_salt) oxidation) as Hexact
    by (by vm_compute).
  split; [exact Hk|]. split; [exact Hsites|]. split; [exact Hwf|].
  split; [exact Hexact|].
  exact (ratios_in_proportion 2 rock_salt oxidation Hk Hsites Hwf Hexact).
Defined.

Lemma missing_lists_raise_witness :
  (sites missing_list = []
   ∨ length (site_oxidations missing_list) < length (sites missing_list))
  ∧ possible_compositions missing_list oxidation = Raise IndexError.
Proof.
  assert (sites missing_list = []
          ∨ length (site_oxidations missing_list)
            < length (sites missing_list)) as Hmissing
    by (right; simpl; lia).
  split; [exact Hmissing|].
  exact (missing_lists_raise missing_list oxidation Hmissing).
Defined.


(** Without a candidate for the fourth site the loop over the fifth is
    still entered; without one for the fifth it is not. *)
Example five_sites_without_candidates :
  possible_compositions empty_fourth oxidation
  = Raise (NameError "crystal_site_ratios")
  ∧ possible_compositions empty_fifth oxidation = Ok [].
Proof. by vm_compute. Qed.

End lattice_more_examples.

End lattice_more.


(** ** [compound_electroneg] *)

Section properties_facts.
Import Properties.
Context {Element : Type}.
Variable element_dictionary :
  option (list string) → option (gmap string Element).
Variable get_mulliken get_pauling : Element → binary64.
Variable raw_input : string → string.
Variable parse_float : string → option binary64.
Variable pow : binary64 → binary64 → binary64 + pow_error.

(** Closes the goals about a computation that is a single step. *)
Ltac plain :=
  unfold quiet, harmless; cbn;
  first [by intros ? [=] | by repeat constructor].

Lemma value_bind {A B} (t : traced A) (k : A → traced B) :
  value (t ≫= k)
  = match value t with Ok a => value (k a) | Raise e => Raise e end.
Proof. unfold mbind, traced_bind. by destruct (value t). Qed.

Lemma log_bind {A B} (t : traced A) (k : A → traced B) :
  log (t ≫= k)
  = match value t with Ok a => log t ++ log (k a) | Raise _ => log t end.
Proof. unfold mbind, traced_bind. by destruct (value t). Qed.

Lemma bind_harmless {A B} (t : traced A) (k : A → traced B) :
  harmless t → (∀ a, harmless (k a)) → harmless (t ≫= k).
Proof.
  unfold harmless. intros Ht Hk e. rewrite value_bind.
  destruct (value t) as [a|e'] eqn:Hv; [apply Hk|].
  intros [= <-]. by apply Ht.
Qed.

Lemma bind_quiet {A B} (t : traced A) (k : A → traced B) :
  quiet t → (∀ a, quiet (k a)) → quiet (t ≫= k).
Proof.
  unfold quiet. intros Ht Hk. rewrite log_bind.
  destruct (value t); [apply Forall_app; auto|done].
Qed.

Lemma collect_harmless {A B} (body : A → traced B) l :
  (∀ x, harmless (body x)) → harmless (collect body l).
Proof.
  intros Hbody. induction l as [|x l IH]; [plain|].
  cbn [collect]. apply bind_harmless; [done|]. intros y.
  apply bind_harmless; [done|]. intros ys. plain.
Qed.

Lemma collect_quiet {A B} (body : A → traced B) l :
  (∀ x, quiet (body x)) → quiet (collect body l).
Proof.
  intros Hbody. induction l as [|x l IH]; [plain|].
  cbn [collect]. apply bind_quiet; [done|]. intros y.
  apply bind_quiet; [done|]. intros ys. plain.
Qed.

Lemma getitem_harmless (d : gmap string Element) el :
  harmless (lift (getitem d el)).
Proof.
  intros e. unfold getitem. cbn. destruct (d !! el); by intros [= <-].
Qed.

Lemma index_harmless (l : list binary64) i : harmless (lift (index l i)).
Proof. intros e. unfold index. cbn. destruct (l !! i); by intros [= <-]. Qed.

Lemma float_harmless x : harmless (lift (float parse_float x)).
Proof.
  intros e. destruct x as [x|s]; cbn; [done|].
  destruct (parse_float s); by intros [= <-].
Qed.

Lemma power_harmless x y : harmless (power pow x y).
Proof.
  unfold power. apply bind_harmless; [plain|]. intros _ e. cbn.
  destruct (pow x y) as [z|[]]; by intros [= <-].
Qed.

Lemma truediv_harmless a b : harmless (lift (truediv a b)).
Proof.
  intros e. unfold truediv. cbn. destruct (b =? 0)%float; by intros [= <-].
Qed.

Lemma ask_quiet prompt : quiet (ask raw_input prompt).
Proof. plain. Qed.

Lemma load_dictionary_quiet elements :
  quiet (load_dictionary element_dictionary elements).
Proof. plain. Qed.

Lemma load_dictionary_harmless elements :
  harmless (load_dictionary element_dictionary elements).
Proof.
  unfold load_dictionary. apply bind_harmless; [plain|].
  intros _ e. cbn. destruct (element_dictionary elements); by intros [= <-].
Qed.

(** Lines 127 to 144 read no electronegativity and raise only what the
    inputs make them raise. *)
Lemma arguments_quiet elements stoichs elements_dict :
  quiet (arguments element_dictionary raw_input parse_float elements stoichs
           elements_dict).
Proof.
  unfold arguments.
  apply bind_quiet.
  { destruct (given elements); [plain|apply ask_quiet]. }
  intros elementlist. apply bind_quiet.
  { destruct (given stoichs); [plain|].
    apply bind_quiet; [apply ask_quiet|]. intros. plain. }
  intros stoichslist. apply bind_quiet.
  { destruct elements_dict as [d|]; [|apply load_dictionary_quiet].
    case_decide; [apply load_dictionary_quiet|plain]. }
  intros d. apply bind_quiet; [|intros; plain].
  apply collect_quiet. intros x. plain.
Qed.

Lemma arguments_harmless elements stoichs elements_dict :
  harmless (arguments element_dictionary raw_input parse_float elements
              stoichs elements_dict).
Proof.
  unfold arguments.
  apply bind_harmless.
  { destruct (given elements); plain. }
  intros elementlist. apply bind_harmless.
  { destruct (given stoichs); [plain|].
    apply bind_harmless; [plain|intros; plain]. }
  intros stoichslist. apply bind_harmless.
  { destruct elements_dict as [d|]; [|apply load_dictionary_harmless].
    case_decide; [apply load_dictionary_harmless|plain]. }
  intros d. apply bind_harmless; [|intros; plain].
  apply collect_harmless. intros x. apply float_harmless.
Qed.

Lemma geometric_mean_harmless elementlist stoichslist :
  harmless (geometric_mean pow elementlist stoichslist).
Proof.
  unfold geometric_mean. apply bind_harmless.
  { apply collect_harmless. intros i.
    apply bind_harmless; [apply index_harmless|]. intros x.
    apply bind_harmless; [apply index_harmless|]. intros y.
    apply power_harmless. }
  intros powers. apply bind_harmless; [plain|]. intros _.
  apply bind_harmless; [apply truediv_harmless|]. intros exponent.
  apply power_harmless.
Qed.

(** With a recognised source the dispatch only looks elements up. *)
Lemma electronegativities_recognised source d elementlist :
  source = "Mulliken" ∨ source = "Pauling" →
  harmless (electronegativities get_mulliken get_pauling source d elementlist).
Proof.
  intros Hsource. unfold electronegativities.
  destruct (decide (source = "Mulliken")) as [|Hm];
    [|destruct (decide (source = "Pauling")); [|by destruct Hsource]];
    apply collect_harmless; intros el;
    (apply bind_harmless; [apply getitem_harmless|]); intros element;
    (apply bind_harmless; [plain|intros; plain]).
Qed.

Lemma electronegativities_unrecognised source d elementlist :
  source ≠ "Mulliken" → source ≠ "Pauling" →
  electronegativities get_mulliken get_pauling source d elementlist
  = lift (Raise (not_recognised source)).
Proof.
  intros Hm Hp. unfold electronegativities. by rewrite !decide_False by done.
Qed.

Abbreviation call verbose elements stoichs elements_dict source :=
  (compound_electroneg element_dictionary get_mulliken get_pauling raw_input
     parse_float pow verbose elements stoichs elements_dict source).
Abbreviation before elements stoichs elements_dict :=
  (arguments element_dictionary raw_input parse_float elements stoichs
     elements_dict).

Lemma call_recognised verbose elements stoichs elements_dict source :
  source = "Mulliken" ∨ source = "Pauling" →
  harmless (call verbose elements stoichs elements_dict source).
Proof.
  intros Hsource. unfold compound_electroneg.
  apply bind_harmless; [apply arguments_harmless|].
  intros [[elementlist stoichslist] d].
  apply bind_harmless; [by apply electronegativities_recognised|].
  intros electronegs. apply bind_harmless; [destruct verbose; plain|].
  intros _. apply bind_harmless; [apply geometric_mean_harmless|].
  intros compelectroneg.
  apply bind_harmless; [destruct verbose; plain|intros; plain].
Qed.

Lemma call_unrecognised verbose elements stoichs elements_dict source :
  source ≠ "Mulliken" → source ≠ "Pauling" →
  value (call verbose elements stoichs elements_dict source)
  = match value (before elements stoichs elements_dict) with
    | Ok _ => Raise (not_recognised source)
    | Raise e => Raise e
    end
  ∧ log (call verbose elements stoichs elements_dict source)
    = log (before elements stoichs elements_dict).
Proof.
  intros Hm Hp. unfold compound_electroneg. rewrite value_bind, log_bind.
  destruct (value (before _ _ _)) as [[[elementlist stoichslist] d]|e];
    [|done].
  rewrite value_bind, log_bind, electronegativities_unrecognised by done.
  cbn. by rewrite app_nil_r.
Qed.

(** C7 (as amended).  [compound_electroneg] raises its ["is not
    recognised"] exception exactly when the source is neither ["Mulliken"]
    nor ["Pauling"] and the lines before the dispatch raise nothing.  With
    such a source every call ends in an exception, and no electronegativity
    has been read or combined when it does.  With either recognised source
    no call raises an [Exception] of that kind. *)
Theorem unrecognised_source_raises verbose elements stoichs elements_dict
    source :
  (value (call verbose elements stoichs elements_dict source)
   = Raise (not_recognised source)
   ↔ source ≠ "Mulliken" ∧ source ≠ "Pauling"
     ∧ is_ok (value (before elements stoichs elements_dict)))
  ∧ (source ≠ "Mulliken" → source ≠ "Pauling" →
     raises (value (call verbose elements stoichs elements_dict source))
     ∧ quiet (call verbose elements stoichs elements_dict source))
  ∧ (source = "Mulliken" ∨ source = "Pauling" →
     ∀ args,
       value (call verbose elements stoichs elements_dict source)
       ≠ Raise (Exception args)).
Proof.
  split; [|split].
  - split.
    + intros Hraise.
      destruct (decide (source = "Mulliken")) as [Hm|Hm].
      { by apply (call_recognised verbose elements stoichs elements_dict
                    source (or_introl Hm)) in Hraise. }
      destruct (decide (source = "Pauling")) as [Hp|Hp].
      { by apply (call_recognised verbose elements stoichs elements_dict
                    source (or_intror Hp)) in Hraise. }
      split; [done|]. split; [done|].
      destruct (call_unrecognised verbose elements stoichs elements_dict
                  source Hm Hp) as [Hvalue _].
      rewrite Hvalue in Hraise.
      destruct (value (before _ _ _)) eqn:Hbefore; [done|].
      injection Hraise as ->.
      by apply (arguments_harmless elements stoichs elements_dict) in Hbefore.
    + intros (Hm & Hp & Hok).
      destruct (call_unrecognised verbose elements stoichs elements_dict
                  source Hm Hp) as [-> _].
      by destruct (value (before _ _ _)).
  - intros Hm Hp.
    destruct (call_unrecognised verbose elements stoichs elements_dict
                source Hm Hp) as [Hvalue Hlog].
    split.
    + rewrite Hvalue. by destruct (value (before _ _ _)).
    + unfold quiet. rewrite Hlog. apply arguments_quiet.
  - intros Hsource args Hraise.
    by apply (call_recognised verbose elements stoichs elements_dict source
                Hsource) in Hraise.
Qed.

(** *** Further properties of [compound_electroneg] *)

Variable eig eig_s : Element → binary64.

Lemma bind_logs {A B} (P : event → Prop) (t : traced A) (k : A → traced B) :
  Forall P (log t) → (∀ a, Forall P (log (k a))) → Forall P (log (t ≫= k)).
Proof.
  intros Ht Hk. rewrite log_bind.
  destruct (value t); [apply Forall_app; auto|done].
Qed.

Lemma collect_logs {A B} (P : event → Prop) (body : A → traced B) l :
  (∀ x, Forall P (log (body x))) → Forall P (log (collect body l)).
Proof.
  intros Hbody. induction l as [|x l IH]; [by constructor|].
  cbn [collect]. apply bind_logs; [done|]. intros y.
  apply bind_logs; [done|]. intros ys. by constructor.
Qed.

Lemma filter_none (Q : event → bool) (l : list event) :
  Forall (λ e, Q e = false) l → filter (λ e, Q e = true) l = [].
Proof.
  induction 1 as [|e l He _ IH]; [done|].
  rewrite filter_cons, decide_False by congruence. done.
Qed.

Lemma filter_all (Q : event → bool) (l : list event) :
  Forall (λ e, Q e = false) l → filter (λ e, Q e = false) l = l.
Proof.
  induction 1 as [|e l He _ IH]; [done|].
  rewrite filter_cons, decide_True by done. by f_equal.
Qed.

Lemma collect_length {A B} (body : A → traced B) l ys :
  value (collect body l) = Ok ys → length ys = length l.
Proof.
  revert ys. induction l as [|x l IH]; intros ys; cbn [collect].
  - by intros [= <-].
  - rewrite value_bind. destruct (value (body x)) as [y|e]; [|done].
    rewrite value_bind. destruct (value (collect body l)) as [ys'|e]; [|done].
    intros [= <-]. cbn [length]. f_equal. by apply IH.
Qed.

Lemma collect_ok {A B} (body : A → traced B) l ys x :
  value (collect body l) = Ok ys → x ∈ l → is_ok (value (body x)).
Proof.
  revert ys. induction l as [|x' l IH]; intros ys; cbn [collect].
  - by intros _ ?%elem_of_nil.
  - rewrite value_bind. destruct (value (body x')) as [y|e] eqn:Hy; [|done].
    rewrite value_bind. destruct (value (collect body l)) as [ys'|e]; [|done].
    intros _ [->|Hx]%elem_of_cons; [by rewrite Hy|]. by eapply IH.
Qed.

Lemma collect_numbers (xs : list binary64) :
  collect (λ x, lift (float parse_float x)) (Number <$> xs)
  = Traced [] (Ok xs).
Proof.
  induction xs as [|x xs IH]; [done|].
  rewrite fmap_cons. cbn [collect]. rewrite IH. done.
Qed.

(** What the dispatch and the lines after it log: no prompt. *)
Lemma electronegativities_unprompted source d elementlist :
  Forall (λ e, prompted e = false)
    (log (electronegativities get_mulliken get_pauling source d elementlist)).
Proof.
  unfold electronegativities. repeat case_decide; [| |by constructor];
    apply collect_logs; intros el;
    (apply bind_logs; [by constructor|]); intros element;
    (apply bind_logs; [by repeat constructor|]); intros; by constructor.
Qed.

Lemma electronegativities_unprinted source d elementlist :
  Forall (λ e, prints e = false)
    (log (electronegativities get_mulliken get_pauling source d elementlist)).
Proof.
  unfold electronegativities. repeat case_decide; [| |by constructor];
    apply collect_logs; intros el;
    (apply bind_logs; [by constructor|]); intros element;
    (apply bind_logs; [by repeat constructor|]); intros; by constructor.
Qed.

Lemma power_logs (P : event → Prop) x y :
  P Power → Forall P (log (power pow x y)).
Proof.
  intros HP. unfold power. apply bind_logs; [by repeat constructor|].
  intros. by constructor.
Qed.

Lemma geometric_mean_logs (P : event → Prop) elementlist stoichslist :
  P Power → P Product →
  Forall P (log (geometric_mean pow elementlist stoichslist)).
Proof.
  intros Hpower Hproduct. unfold geometric_mean. apply bind_logs.
  { apply collect_logs. intros i.
    apply bind_logs; [by constructor|]. intros x.
    apply bind_logs; [by constructor|]. intros y. by apply power_logs. }
  intros powers. apply bind_logs; [by repeat constructor|]. intros _.
  apply bind_logs; [by constructor|]. intros exponent. by apply power_logs.
Qed.

Lemma arguments_unprinted elements stoichs elements_dict :
  Forall (λ e, prints e = false) (log (before elements stoichs elements_dict)).
Proof.
  unfold arguments. apply bind_logs.
  { destruct (given elements); by repeat constructor. }
  intros elementlist. apply bind_logs.
  { destruct (given stoichs); [by constructor|].
    apply bind_logs; [by repeat constructor|]. intros. by constructor. }
  intros stoichslist. apply bind_logs.
  { destruct elements_dict as [d|]; [case_decide|]; by repeat constructor. }
  intros d. apply bind_logs; [|intros; by constructor].
  apply collect_logs. intros x. by constructor.
Qed.

Abbreviation elements_prompt := "Enter elements (space separated): ".
Abbreviation stoichs_prompt := "Enter stoichiometries (space separated): ".

Lemma arguments_prompts elements stoichs elements_dict :
  filter (λ e, prompted e = true)
    (log (before elements stoichs elements_dict))
  = (if given elements is Some _ then [] else [Prompted elements_prompt])
    ++ (if given stoichs is Some _ then [] else [Prompted stoichs_prompt]).
Proof.
  assert (∀ (elementlist : list string) (stoichslist : list stoich),
    Forall (λ e, prompted e = false)
      (log (elements_dict ←
              match elements_dict with
              | Some d =>
                  if decide (d = ∅)
                  then load_dictionary element_dictionary elements
                  else mret d
              | None => load_dictionary element_dictionary elements
              end;
            stoichslist ←
              collect (λ x, lift (float parse_float x)) stoichslist;
            mret (elementlist, stoichslist, elements_dict)))) as Hrest.
  { intros elementlist stoichslist. apply bind_logs.
    { destruct elements_dict as [d|]; [case_decide|]; by repeat constructor. }
    intros d. apply bind_logs; [|intros; by constructor].
    apply collect_logs. intros x. by constructor. }
  unfold arguments.
  destruct (given elements) as [els|], (given stoichs) as [sts|];
    rewrite !log_bind; cbn [value log mret traced_ret ask emit mbind
                             traced_bind app];
    rewrite ?filter_app, ?filter_cons, ?filter_nil;
    cbn [prompted decide_rel]; rewrite ?decide_True by done;
    rewrite (filter_none prompted) by apply Hrest; done.
Qed.

(** [raw_input] is called for the elements exactly when no element is
    given, and for the stoichiometries exactly when none is given (an
    empty list counts as not given), in this order and before anything
    else; nothing later in the call prompts. *)
Theorem prompts_for_missing_arguments verbose elements stoichs elements_dict
    source :
  filter (λ e, prompted e = true)
    (log (call verbose elements stoichs elements_dict source))
  = (if given elements is Some _ then [] else [Prompted elements_prompt])
    ++ (if given stoichs is Some _ then [] else [Prompted stoichs_prompt]).
Proof.
  rewrite <-(arguments_prompts elements stoichs elements_dict).
  unfold compound_electroneg. rewrite log_bind.
  destruct (value (before _ _ _)) as [[[elementlist stoichslist] d]|e];
    [|done].
  rewrite filter_app.
  match goal with
  | |- _ ++ filter _ ?l = _ =>
      assert (Forall (λ e, prompted e = false) l) as Hrest
  end.
  { apply bind_logs; [apply electronegativities_unprompted|].
    intros electronegs.
    apply bind_logs; [destruct verbose; by repeat constructor|].
    intros _. apply bind_logs; [by apply geometric_mean_logs|].
    intros compelectroneg.
    apply bind_logs; [destruct verbose; by repeat constructor|].
    intros. by constructor. }
  by rewrite (filter_none prompted _ Hrest), app_nil_r.
Qed.

Lemma note_bind {A} (verbose : bool) (k : unit → traced A) :
  value ((if verbose then emit Printed else mret ()) ≫= k) = value (k ())
  ∧ log ((if verbose then emit Printed else mret ()) ≫= k)
    = (if verbose then [Printed] else []) ++ log (k ()).
Proof. by destruct verbose. Qed.

(** [verbose] only adds printing: the value returned or the exception
    raised is the same with and without it, and so is everything else the
    call does; without it nothing is printed. *)
Theorem verbose_only_prints elements stoichs elements_dict source :
  value (call true elements stoichs elements_dict source)
  = value (call false elements stoichs elements_dict source)
  ∧ filter (λ e, prints e = false)
      (log (call true elements stoichs elements_dict source))
    = log (call false elements stoichs elements_dict source)
  ∧ Forall (λ e, prints e = false)
      (log (call false elements stoichs elements_dict source)).
Proof.
  assert (∀ verbose,
    value (call verbose elements stoichs elements_dict source)
    = value (call false elements stoichs elements_dict source)
    ∧ filter (λ e, prints e = false)
        (log (call verbose elements stoichs elements_dict source))
      = log (call false elements stoichs elements_dict source)) as Hsame.
  { intros verbose. unfold compound_electroneg.
    rewrite !value_bind, !log_bind.
    pose proof (arguments_unprinted elements stoichs elements_dict) as Hargs.
    destruct (value (before _ _ _)) as [[[elementlist stoichslist] d]|e];
      [|split; [done|by apply filter_all]].
    rewrite !value_bind, !log_bind.
    pose proof (electronegativities_unprinted source d elementlist) as Hel.
    destruct (value (electronegativities _ _ _ _ _)) as [electronegs|e];
      [|split; [done|]; rewrite filter_app; f_equal; by apply filter_all].
    destruct (note_bind verbose
                (λ _, compelectroneg ← geometric_mean pow electronegs
                                          stoichslist;
                      _ ← (if verbose then emit Printed else mret ());
                      mret compelectroneg)) as [-> ->].
    destruct (note_bind false
                (λ _, compelectroneg ← geometric_mean pow electronegs
                                          stoichslist;
                      _ ← (if false then emit Printed else mret ());
                      mret compelectroneg)) as [-> ->].
    rewrite !value_bind, !log_bind.
    pose proof (geometric_mean_logs (λ e, prints e = false) electronegs
                  stoichslist eq_refl eq_refl) as Hgm.
    destruct (value (geometric_mean _ _ _)) as [compelectroneg|e].
    - split; [by destruct verbose|].
      rewrite !filter_app, (filter_all prints _ Hargs),
        (filter_all prints _ Hel), (filter_all prints _ Hgm).
      by destruct verbose.
    - split; [done|].
      rewrite !filter_app, (filter_all prints _ Hargs),
        (filter_all prints _ Hel), (filter_all prints _ Hgm).
      by destruct verbose. }
  destruct (Hsame true) as [Hvalue Hlog]. split; [done|]. split; [done|].
  rewrite <-Hlog. apply Forall_forall.
  by intros e [He _]%list_elem_of_filter.
Qed.

(** [compound_electroneg_pauling] never raises the exception for an
    unrecognised source, and never reads a Mulliken electronegativity:
    what it does is the same whatever [get_mulliken] is. *)
Theorem pauling_call_reads_pauling verbose elements stoichs elements_dict
    (other_mulliken : Element → binary64) :
  harmless
    (compound_electroneg_pauling element_dictionary get_mulliken get_pauling
       raw_input parse_float pow verbose elements stoichs elements_dict)
  ∧ compound_electroneg_pauling element_dictionary other_mulliken
      get_pauling raw_input parse_float pow verbose elements stoichs
      elements_dict
    = compound_electroneg_pauling element_dictionary get_mulliken get_pauling
        raw_input parse_float pow verbose elements stoichs elements_dict.
Proof.
  split; [apply call_recognised; by right|reflexivity].
Qed.

(** **** Stoichiometries that cannot be used *)

Lemma arguments_given (els : list string) (xs : list binary64) elements_dict
    elementlist stoichslist d :
  els ≠ [] → xs ≠ [] →
  value (before (Some els) (Some (Number <$> xs)) elements_dict)
  = Ok (elementlist, stoichslist, d) →
  elementlist = els ∧ stoichslist = xs.
Proof.
  intros Hels Hxs. unfold arguments.
  destruct els as [|el els]; [done|]. destruct xs as [|x xs]; [done|].
  rewrite fmap_cons. cbn [given].
  rewrite value_bind. cbn [value mret traced_ret].
  rewrite value_bind. cbn [value mret traced_ret].
  rewrite value_bind.
  match goal with
  | |- match value ?t with _ => _ end = _ → _ =>
      destruct (value t) as [d'|e]; [|done]
  end.
  rewrite value_bind, <-fmap_cons, collect_numbers. cbn [value].
  by intros [= <- <- <-].
Qed.

Lemma electronegativities_length source d elementlist electronegs :
  value (electronegativities get_mulliken get_pauling source d elementlist)
  = Ok electronegs →
  length electronegs = length elementlist.
Proof.
  unfold electronegativities.
  repeat case_decide; [apply collect_length..|done].
Qed.

Lemma geometric_mean_unusable elementlist stoichslist :
  length stoichslist < length elementlist
  ∨ (foldl PrimFloat.add 0 stoichslist =? 0)%float = true →
  raises (value (geometric_mean pow elementlist stoichslist)).
Proof.
  intros Hbad. unfold geometric_mean. rewrite value_bind.
  destruct (value (collect _ _)) as [powers|e] eqn:Hpowers; [|done].
  destruct Hbad as [Hshort|Hzero].
  - exfalso.
    eapply (collect_ok _ _ _ (length stoichslist)) in Hpowers;
      [|apply range_elem_of; lia].
    cbv beta in Hpowers.
    rewrite !value_bind in Hpowers. cbn [value lift] in Hpowers.
    unfold index in Hpowers.
    destruct (elementlist !! length stoichslist); [|done].
    by rewrite (lookup_ge_None_2 stoichslist) in Hpowers.
  - rewrite !value_bind. cbn [value emit lift]. unfold truediv.
    by rewrite Hzero.
Qed.

(** With fewer stoichiometries than elements, or with stoichiometries
    that sum to zero, no call returns a value: whatever the dictionary
    and the source, it ends in an exception. *)
Theorem unusable_stoichiometries verbose (els : list string)
    (xs : list binary64) elements_dict source :
  els ≠ [] → xs ≠ [] →
  length xs < length els ∨ (foldl PrimFloat.add 0 xs =? 0)%float = true →
  raises (value (call verbose (Some els) (Some (Number <$> xs)) elements_dict
                   source)).
Proof.
  intros Hels Hxs Hbad. unfold compound_electroneg. rewrite value_bind.
  destruct (value (before _ _ _)) as [[[elementlist stoichslist] d]|e]
    eqn:Hbefore; [|done].
  destruct (arguments_given els xs elements_dict elementlist stoichslist d
              Hels Hxs Hbefore) as [-> ->].
  rewrite value_bind.
  destruct (value (electronegativities _ _ _ _ _)) as [electronegs|e]
    eqn:Helectronegs; [|done].
  apply electronegativities_length in Helectronegs.
  destruct (note_bind verbose
              (λ _, compelectroneg ← geometric_mean pow electronegs xs;
                    _ ← (if verbose then emit Printed else mret ());
                    mret compelectroneg)) as [-> _].
  rewrite value_bind.
  pose proof (geometric_mean_unusable electronegs xs) as Hraises.
  destruct (value (geometric_mean _ _ _)); [exfalso|done].
  apply Hraises. rewrite Helectronegs. exact Hbad.
Qed.

(** *** [band_gap_Harrison] *)

Abbreviation harrison verbose anion cation distance elements_dict :=
  (band_gap_Harrison element_dictionary raw_input parse_float pow eig eig_s
     verbose anion cation distance elements_dict).
Abbreviation anion_prompt := "Enter Anion Symbol:".
Abbreviation cation_prompt := "Enter Cation Symbol:".
Abbreviation distance_prompt := "Enter internuclear separation (Angstroms): ".

Lemma filter_log_bind {A B} (Q : event → bool) (t : traced A)
    (k : A → traced B) :
  filter (λ e, Q e = true) (log (t ≫= k))
  = filter (λ e, Q e = true) (log t)
    ++ match value t with
       | Ok a => filter (λ e, Q e = true) (log (k a))
       | Raise _ => []
       end.
Proof.
  rewrite log_bind. destruct (value t); [apply filter_app|].
  by rewrite app_nil_r.
Qed.

Lemma harrison_gap_logs (P : event → Prop) An Cat d :
  P Power → Forall P (log (harrison_gap pow eig eig_s An Cat d)).
Proof.
  intros HP. unfold harrison_gap.
  apply bind_logs; [by apply power_logs|]. intros d_squared.
  apply bind_logs; [by constructor|]. intros V2.
  apply bind_logs; [by apply power_logs|]. intros V2_squared.
  apply bind_logs; [by apply power_logs|]. intros V3_squared.
  apply bind_logs; [by apply power_logs|]. intros V2_squared'.
  apply bind_logs; [by apply power_logs|]. intros V3_squared'.
  by constructor.
Qed.

Lemma harrison_lookup_logs (P : event → Prop) (An Cat : string)
    (d : binary64) elements_dict :
  P LoadedDictionary →
  Forall P
    (log (elements_dict ←
            match elements_dict with
            | Some d' =>
                if decide (d' = ∅)
                then load_dictionary element_dictionary (Some [An; Cat])
                else mret d'
            | None => load_dictionary element_dictionary (Some [An; Cat])
            end;
          An ← lift (getitem elements_dict An);
          Cat ← lift (getitem elements_dict Cat);
          mret (An, Cat, d))).
Proof.
  intros HP. apply bind_logs.
  { destruct elements_dict as [d'|]; [case_decide|]; by repeat constructor. }
  intros d'. apply bind_logs; [by constructor|]. intros An'.
  apply bind_logs; [by constructor|]. intros Cat'. by constructor.
Qed.

Lemma harrison_arguments_prompts anion cation distance elements_dict :
  filter (λ e, prompted e = true)
    (log (harrison_arguments element_dictionary raw_input parse_float anion
            cation distance elements_dict))
  = (if given_text anion is Some _ then [] else [Prompted anion_prompt])
    ++ (if given_text cation is Some _ then [] else [Prompted cation_prompt])
    ++ (if given_distance distance is Some _ then []
        else [Prompted distance_prompt]).
Proof.
  unfold harrison_arguments.
  rewrite filter_log_bind. f_equal.
  { by destruct (given_text anion). }
  assert (∀ (t : traced string) (k : string → traced (Element * Element * binary64))
            (l1 l2 : list event),
    (∃ a, value t = Ok a) → filter (λ e, prompted e = true) (log t) = l1 →
    (∀ a, filter (λ e, prompted e = true) (log (k a)) = l2) →
    match value t with
    | Ok a => filter (λ e, prompted e = true) (log (k a))
    | Raise _ => []
    end = l2) as Hnext.
  { intros t k l1 l2 [a ->] _ Hk. apply Hk. }
  eapply Hnext; [by destruct (given_text anion); eexists|done|].
  intros An. rewrite filter_log_bind. f_equal.
  { by destruct (given_text cation). }
  eapply Hnext; [by destruct (given_text cation); eexists|done|].
  intros Cat. rewrite filter_log_bind.
  assert (∀ d : binary64,
            filter (λ e, prompted e = true)
                 (log (elements_dict ←
                         match elements_dict with
                         | Some d' =>
                             if decide (d' = ∅)
                             then load_dictionary element_dictionary
                                    (Some [An; Cat])
                             else mret d'
                         | None =>
                             load_dictionary element_dictionary
                               (Some [An; Cat])
                         end;
                       An ← lift (getitem elements_dict An);
                       Cat ← lift (getitem elements_dict Cat);
                       mret (An, Cat, d))) = []) as Hrest.
  { intros d. apply filter_none. by apply harrison_lookup_logs. }
  destruct (given_distance distance) as [dist|].
  - change (log (lift (float parse_float dist))) with (@nil event).
    rewrite filter_nil. cbn [app].
    destruct (value _); [apply Hrest|done].
  - rewrite filter_log_bind.
    change (log (prompt raw_input distance_prompt))
      with [Prompted distance_prompt].
    change (value (prompt raw_input distance_prompt))
      with (Ok (raw_input distance_prompt)).
    rewrite filter_cons, decide_True, filter_nil by done.
    change (log (lift (float parse_float (Text (raw_input distance_prompt)))))
      with (@nil event).
    rewrite filter_nil. cbn [app].
    destruct (value _); [by rewrite Hrest|done].
Qed.

(** [band_gap_Harrison] asks for the anion, the cation and the distance,
    in this order, each exactly when it is not given; an empty string
    and a distance of zero count as not given.  Nothing else in the call
    prompts. *)
Theorem harrison_prompts_for_missing_arguments verbose anion cation distance
    elements_dict :
  filter (λ e, prompted e = true)
    (log (harrison verbose anion cation distance elements_dict))
  = (if given_text anion is Some _ then [] else [Prompted anion_prompt])
    ++ (if given_text cation is Some _ then [] else [Prompted cation_prompt])
    ++ (if given_distance distance is Some _ then []
        else [Prompted distance_prompt]).
Proof.
  rewrite <-(harrison_arguments_prompts anion cation distance elements_dict).
  unfold band_gap_Harrison.
  rewrite filter_log_bind.
  destruct (value (harrison_arguments _ _ _ _ _ _ _)) as [[[An Cat] d]|e];
    [|by rewrite app_nil_r].
  match goal with
  | |- _ ++ filter _ ?l = _ =>
      assert (Forall (λ e, prompted e = false) l) as Hrest
  end.
  { apply bind_logs; [by apply harrison_gap_logs|]. intros Band_gap.
    apply bind_logs; [destruct verbose; by repeat constructor|].
    intros. by constructor. }
  by rewrite (filter_none prompted _ Hrest), app_nil_r.
Qed.

Lemma harrison_arguments_unprinted anion cation distance elements_dict :
  Forall (λ e, prints e = false)
    (log (harrison_arguments element_dictionary raw_input parse_float anion
            cation distance elements_dict)).
Proof.
  unfold harrison_arguments. apply bind_logs.
  { destruct (given_text anion); by repeat constructor. }
  intros An. apply bind_logs.
  { destruct (given_text cation); by repeat constructor. }
  intros Cat. apply bind_logs.
  { destruct (given_distance distance); [by constructor|].
    apply bind_logs; [by repeat constructor|]. intros. by constructor. }
  intros d. by apply harrison_lookup_logs.
Qed.

(** [verbose] only adds the four printed lines: the band gap returned or
    the exception raised is the same, and so is everything else the call
    does. *)
Theorem harrison_verbose_only_prints anion cation distance elements_dict :
  value (harrison true anion cation distance elements_dict)
  = value (harrison false anion cation distance elements_dict)
  ∧ filter (λ e, prints e = false)
      (log (harrison true anion cation distance elements_dict))
    = log (harrison false anion cation distance elements_dict).
Proof.
  unfold band_gap_Harrison. rewrite !value_bind, !log_bind.
  pose proof (harrison_arguments_unprinted anion cation distance
                elements_dict) as Hargs.
  destruct (value (harrison_arguments _ _ _ _ _ _ _)) as [[[An Cat] d]|e];
    [|split; [done|by apply filter_all]].
  rewrite !value_bind, !log_bind.
  pose proof (harrison_gap_logs (λ e, prints e = false) An Cat d eq_refl)
    as Hgap.
  destruct (value (harrison_gap _ _ _ _ _ _)) as [Band_gap|e].
  - split; [done|]. cbn [log value emit mret traced_ret mbind traced_bind app].
    rewrite !filter_app, (filter_all prints _ Hargs),
      (filter_all prints _ Hgap).
    reflexivity.
  - split; [done|].
    by rewrite !filter_app, (filter_all prints _ Hargs),
         (filter_all prints _ Hgap).
Qed.

(** Runs the binds whose first part is known. *)
Ltac simplify :=
  cbn [mbind traced_bind value log emit lift mret traced_ret app].

Lemma given_text_nonempty (s : string) : s ≠ "" → given_text (Some s) = Some s.
Proof. by destruct s. Qed.

(** With both symbols, the distance and a dictionary given, a symbol
    that the dictionary lacks makes the call raise [KeyError] at once:
    nothing has been prompted for, loaded or computed. *)
Theorem harrison_unknown_symbol verbose (anion cation : string) distance x
    (d : gmap string Element) :
  anion ≠ "" → cation ≠ "" →
  given_distance (Some distance) = Some distance →
  float parse_float distance = Ok x →
  d ≠ ∅ →
  d !! anion = None ∨ d !! cation = None →
  harrison verbose (Some anion) (Some cation) (Some distance) (Some d)
  = Traced [] (Raise KeyError).
Proof.
  intros Hanion Hcation Hdistance Hfloat Hd Hmissing.
  unfold band_gap_Harrison, harrison_arguments.
  rewrite (given_text_nonempty anion) by done. simplify.
  rewrite (given_text_nonempty cation) by done. simplify.
  rewrite Hdistance, Hfloat. simplify.
  rewrite decide_False by done. simplify.
  unfold getitem.
  destruct (d !! anion) as [An|]; [|done]. simplify.
  destruct (d !! cation) as [Cat|]; [|done].
  by destruct Hmissing.
Qed.

(** A distance whose square is zero, as the string ["0"] gives, makes
    the call raise [ZeroDivisionError] when it divides by the square. *)
Theorem harrison_zero_distance verbose (anion cation : string) distance x z
    (d : gmap string Element) An Cat :
  anion ≠ "" → cation ≠ "" →
  given_distance (Some distance) = Some distance →
  float parse_float distance = Ok x →
  d ≠ ∅ → d !! anion = Some An → d !! cation = Some Cat →
  pow x 2 = inl z → (z =? 0)%float = true →
  harrison verbose (Some anion) (Some cation) (Some distance) (Some d)
  = Traced [Power] (Raise ZeroDivisionError).
Proof.
  intros Hanion Hcation Hdistance Hfloat Hd HAn HCat Hpow Hzero.
  unfold band_gap_Harrison, harrison_arguments.
  rewrite (given_text_nonempty anion) by done. simplify.
  rewrite (given_text_nonempty cation) by done. simplify.
  rewrite Hdistance, Hfloat. simplify.
  rewrite decide_False by done. simplify.
  unfold getitem. rewrite HAn. simplify. rewrite HCat. simplify.
  unfold harrison_gap, power. simplify. rewrite Hpow. simplify.
  unfold truediv. rewrite Hzero. reflexivity.
Qed.

End properties_facts.

(** *** The claim at concrete inputs *)

Section properties_examples.
Import Properties Examples.

Abbreviation example_call :=
  (compound_electroneg element_dictionary fst snd no_input parse_float pow).

(** C7, as stated, fails both ways.  With the recognised source
    ["Mulliken"] a symbol missing from the dictionary raises [KeyError];
    and with the unrecognised source ["Allen"] a stoichiometry that is not
    a number raises [ValueError] before the source is looked at. *)
Lemma other_errors_with_any_source :
  value (example_call false (Some ["Cu"; "Xx"]) (Some [Number 2; Number 1])
           (Some electronegativity) "Mulliken")
  = Raise KeyError
  ∧ value (example_call false (Some ["Cu"; "S"]) (Some [Text "two"; Number 1])
             (Some electronegativity) "Allen")
    = Raise ValueError
  ∧ not_recognised "Allen" ≠ ValueError.
Proof. by vm_compute. Qed.

Lemma unrecognised_source_raises_witness :
  "Allen" ≠ "Mulliken" ∧ "Allen" ≠ "Pauling"
  ∧ (value (example_call false (Some ["Cu"; "S"]) (Some [Number 2; Number 1])
              (Some electronegativity) "Allen")
     = Raise (not_recognised "Allen")
     ↔ "Allen" ≠ "Mulliken" ∧ "Allen" ≠ "Pauling"
       ∧ is_ok (value (arguments element_dictionary no_input parse_float
                         (Some ["Cu"; "S"]) (Some [Number 2; Number 1])
                         (Some electronegativity))))
  ∧ raises (value (example_call false (Some ["Cu"; "S"])
                     (Some [Number 2; Number 1]) (Some electronegativity)
                     "Allen"))
  ∧ quiet (example_call false (Some ["Cu"; "S"]) (Some [Number 2; Number 1])
             (Some electronegativity) "Allen").
Proof.
  assert ("Allen" ≠ "Mulliken") as Hm by done.
  assert ("Allen" ≠ "Pauling") as Hp by done.
  destruct (unrecognised_source_raises element_dictionary fst snd no_input
              parse_float pow false (Some ["Cu"; "S"])
              (Some [Number 2; Number 1]) (Some electronegativity) "Allen")
    as (Hiff & Hraises & _).
  split; [exact Hm|]. split; [exact Hp|]. split; [exact Hiff|].
  exact (Hraises Hm Hp).
Defined.

(** The three calls, evaluated. *)
Example mulliken_call :
  log (example_call false (Some ["Cu"; "S"]) (Some [Number 2; Number 1])
         (Some electronegativity) "Mulliken")
  = [Electronegativity "Cu"; Electronegativity "S"; Power; Power; Product;
     Power].
Proof. by vm_compute. Qed.

Example allen_call :
  example_call false (Some ["Cu"; "S"]) (Some [Number 2; Number 1])
    (Some electronegativity) "Allen"
  = Traced [] (Raise (not_recognised "Allen")).
Proof. by vm_compute. Qed.

Example prompted_call :
  example_call false None None None "Allen"
  = Traced [Prompted "Enter elements (space separated): ";
            Prompted "Enter stoichiometries (space separated): ";
            LoadedDictionary]
      (Raise ValueError).
Proof. by vm_compute. Qed.

End properties_examples.
(** *** The further properties at concrete inputs *)

Section properties_more_examples.
Import Properties Examples.

#[local] Set Warnings "-inexact-float".

Abbreviation example_gap :=
  (band_gap_Harrison element_dictionary no_input parse_float pow fst snd).

(** One stoichiometry for two elements, and two that cancel. *)
Lemma unusable_stoichiometries_witness :
  ["Cu"; "S"] ≠ []
  ∧ [1; -1]%float ≠ []
  ∧ (length [1; -1]%float < length ["Cu"; "S"]
     ∨ (foldl PrimFloat.add 0 [1; -1] =? 0)%float = true)
  ∧ raises (value (compound_electroneg element_dictionary fst snd no_input
                     parse_float pow false (Some ["Cu"; "S"])
                     (Some (Number <$> [1; -1]%float))
                     (Some electronegativity) "Mulliken")).
Proof.
  assert (["Cu"; "S"] ≠ []) as Hels by done.
  assert ([1; -1]%float ≠ []) as Hxs by done.
  assert (length [1; -1]%float < length ["Cu"; "S"]
          ∨ (foldl PrimFloat.add 0 [1; -1] =? 0)%float = true) as Hbad
    by (right; reflexivity).
  split; [exact Hels|]. split; [exact Hxs|]. split; [exact Hbad|].
  exact (unusable_stoichiometries element_dictionary fst snd no_input
           parse_float pow false ["Cu"; "S"] [1; -1]%float
           (Some electronegativity) "Mulliken" Hels Hxs Hbad).
Defined.

Example unusable_stoichiometries_errors :
  value (compound_electroneg element_dictionary fst snd no_input parse_float
           pow false (Some ["Cu"; "S"]) (Some [Number 2])
           (Some electronegativity) "Mulliken")
  = Raise IndexError
  ∧ value (compound_electroneg element_dictionary fst snd no_input
             parse_float pow false (Some ["Cu"; "S"])
             (Some [Number 1; Number (-1)]) (Some electronegativity)
             "Mulliken")
    = Raise ZeroDivisionError.
Proof. by vm_compute. Qed.

(** An empty list of elements counts as not given. *)
Example empty_list_prompts :
  log (compound_electroneg element_dictionary fst snd no_input parse_float
         pow false (Some []) (Some [Number 1]) (Some electronegativity)
         "Mulliken")
  = [Prompted "Enter elements (space separated): "].
Proof. by vm_compute. Qed.

Lemma harrison_unknown_symbol_witness :
  "O" ≠ "" ∧ "Cu" ≠ ""
  ∧ given_distance (Some (Number 2)) = Some (Number 2)
  ∧ float parse_float (Number 2) = Ok 2%float
  ∧ electronegativity ≠ ∅
  ∧ (electronegativity !! "O" = None ∨ electronegativity !! "Cu" = None)
  ∧ example_gap false (Some "O") (Some "Cu") (Some (Number 2))
      (Some electronegativity)
    = Traced [] (Raise KeyError).
Proof.
  assert ("O" ≠ "") as Hanion by done.
  assert ("Cu" ≠ "") as Hcation by done.
  assert (given_distance (Some (Number 2)) = Some (Number 2)) as Hdistance
    by reflexivity.
  assert (float parse_float (Number 2) = Ok 2%float) as Hfloat
    by reflexivity.
  assert (electronegativity ≠ ∅) as Hdict.
  { intros Hempty.
    assert (electronegativity !! "Cu" = None) as Hnone
      by (by rewrite Hempty, lookup_empty).
    by vm_compute in Hnone. }
  assert (electronegativity !! "O" = None ∨ electronegativity !! "Cu" = None)
    as Hmissing by (left; by vm_compute).
  split; [exact Hanion|]. split; [exact Hcation|]. split; [exact Hdistance|].
  split; [exact Hfloat|]. split; [exact Hdict|]. split; [exact Hmissing|].
  exact (harrison_unknown_symbol element_dictionary no_input parse_float pow
           fst snd false "O" "Cu" (Number 2) 2%float electronegativity
           Hanion Hcation Hdistance Hfloat Hdict Hmissing).
Defined.

Lemma harrison_zero_distance_witness :
  "S" ≠ "" ∧ "Cu" ≠ ""
  ∧ given_distance (Some (Text "0")) = Some (Text "0")
  ∧ float parse_float (Text "0") = Ok 0%float
  ∧ electronegativity ≠ ∅
  ∧ electronegativity !! "S" = Some (6.25, 2.5)%float
  ∧ electronegativity !! "Cu" = Some (4.5, 2)%float
  ∧ pow 0 2 = inl 0%float
  ∧ (0 =? 0)%float = true
  ∧ example_gap false (Some "S") (Some "Cu") (Some (Text "0"))
      (Some electronegativity)
    = Traced [Power] (Raise ZeroDivisionError).
Proof.
  assert ("S" ≠ "") as Hanion by done.
  assert ("Cu" ≠ "") as Hcation by done.
  assert (given_distance (Some (Text "0")) = Some (Text "0")) as Hdistance
    by reflexivity.
  assert (float parse_float (Text "0") = Ok 0%float) as Hfloat
    by (by vm_compute).
  assert (electronegativity ≠ ∅) as Hdict.
  { intros Hempty.
    assert (electronegativity !! "Cu" = None) as Hnone
      by (by rewrite Hempty, lookup_empty).
    by vm_compute in Hnone. }
  assert (electronegativity !! "S" = Some (6.25, 2.5)%float) as HAn
    by (by vm_compute).
  assert (electronegativity !! "Cu" = Some (4.5, 2)%float) as HCat
    by (by vm_compute).
  assert (pow 0 2 = inl 0%float) as Hpow by (by vm_compute).
  assert ((0 =? 0)%float = true) as Hzero by reflexivity.
  split; [exact Hanion|]. split; [exact Hcation|]. split; [exact Hdistance|].
  split; [exact Hfloat|]. split; [exact Hdict|]. split; [exact HAn|].
  split; [exact HCat|]. split; [exact Hpow|]. split; [exact Hzero|].
  exact (harrison_zero_distance element_dictionary no_input parse_float pow
           fst snd false "S" "Cu" (Text "0") 0%float 0%float
           electronegativity _ _ Hanion Hcation Hdistance Hfloat Hdict HAn
           HCat Hpow Hzero).
Defined.

(** A distance of zero counts as not given: the call prompts for it. *)
Example zero_distance_prompts :
  example_gap false (Some "S") (Some "Cu") (Some (Number 0))
    (Some electronegativity)
  = Traced [Prompted "Enter internuclear separation (Angstroms): "]
      (Raise ValueError).
Proof. by vm_compute. Qed.

End properties_more_examples.

(** ** The solid-state-energy gaps *)

Section sse_facts.
Import SolidStateEnergy.

Implicit Types (Compound : list Species) (flag : bool).

Lemma anions_cations_filter Compound flag :
  anions_cations Compound flag
  = (energy flag <$> filter (λ ele, oxidation ele < 0)%Z Compound,
     energy flag <$> filter (λ ele, 0 ≤ oxidation ele)%Z Compound).
Proof.
  unfold anions_cations.
  assert (∀ anions cations,
    foldl (λ '(anions, cations) ele,
             if decide (oxidation ele < 0)%Z
             then (anions ++ [energy flag ele], cations)
             else (anions, cations ++ [energy flag ele]))
      (anions, cations) Compound
    = (anions
         ++ (energy flag <$> filter (λ ele, oxidation ele < 0)%Z Compound),
       cations
         ++ (energy flag <$> filter (λ ele, 0 ≤ oxidation ele)%Z Compound)))
    as Hgen.
  { induction Compound as [|ele Compound IH]; intros anions cations.
    - by rewrite !app_nil_r.
    - cbn [foldl]. rewrite !filter_cons.
      destruct (decide (oxidation ele < 0)%Z).
      + rewrite IH, decide_False by lia.
        by rewrite fmap_cons, <-app_assoc.
      + rewrite IH, decide_True by lia.
        by rewrite fmap_cons, <-app_assoc. }
  apply (Hgen [] []).
Qed.

Lemma fold_pick (choose : binary64 → binary64 → bool) (l : list binary64) :
  ∀ x, foldl (λ kept y, if choose kept y then y else kept) x l ∈ x :: l.
Proof.
  induction l as [|y l IH]; intros x; [by left|].
  cbn [foldl]. destruct (choose x y).
  - right. apply IH.
  - specialize (IH x). apply elem_of_cons in IH as [->|?]; [by left|].
    by right; right.
Qed.

Lemma min_cases (l : list binary64) :
  l = [] ∧ min l = Raise ValueError ∨ ∃ m, min l = Ok m ∧ m ∈ l.
Proof.
  destruct l as [|x l]; [by left|]. right. eexists. split; [done|].
  apply (fold_pick (λ least y, (y <? least)%float)).
Qed.

Lemma max_cases (l : list binary64) :
  l = [] ∧ max l = Raise ValueError ∨ ∃ m, max l = Ok m ∧ m ∈ l.
Proof.
  destruct l as [|x l]; [by left|]. right. eexists. split; [done|].
  apply (fold_pick (λ most y, (most <? y)%float)).
Qed.

Lemma fmap_nil_iff {A B} (f : A → B) (l : list A) : f <$> l = [] ↔ l = [].
Proof. split; [apply fmap_nil_inv|by intros ->]. Qed.

Lemma no_anions Compound flag :
  energy flag <$> filter (λ ele, oxidation ele < 0)%Z Compound = []
  ↔ Forall (λ ele, 0 ≤ oxidation ele)%Z Compound.
Proof.
  rewrite fmap_nil_iff. induction Compound as [|ele Compound IH].
  - split; [by constructor|done].
  - rewrite filter_cons, Forall_cons. case_decide.
    + split; [done|]. intros [? _]. lia.
    + rewrite IH. split; [|by intros [_ ?]]. intros ?. split; [lia|done].
Qed.

Lemma no_cations Compound flag :
  energy flag <$> filter (λ ele, 0 ≤ oxidation ele)%Z Compound = []
  ↔ Forall (λ ele, oxidation ele < 0)%Z Compound.
Proof.
  rewrite fmap_nil_iff. induction Compound as [|ele Compound IH].
  - split; [by constructor|done].
  - rewrite filter_cons, Forall_cons. case_decide.
    + split; [done|]. intros [? _]. lia.
    + rewrite IH. split; [|by intros [_ ?]]. intros ?. split; [lia|done].
Qed.

(** [SSE_min_gap] raises [ValueError], and nothing else, exactly when
    the compound has no species of negative oxidation state or none of
    non-negative oxidation state; a species of oxidation state zero counts
    as a cation.  Otherwise the gap is the energy of one of the cations
    minus the energy of one of the anions, read from [SSE_2015] or from
    [SSE] as the flag says. *)
Theorem min_gap_needs_both Compound flag :
  (SSE_min_gap Compound flag = Raise ValueError
   ↔ Forall (λ ele, 0 ≤ oxidation ele)%Z Compound
     ∨ Forall (λ ele, oxidation ele < 0)%Z Compound)
  ∧ (∀ e, SSE_min_gap Compound flag = Raise e → e = ValueError)
  ∧ ∀ gap,
      SSE_min_gap Compound flag = Ok gap →
      ∃ cation anion,
        cation ∈ Compound ∧ anion ∈ Compound
        ∧ (0 ≤ oxidation cation)%Z ∧ (oxidation anion < 0)%Z
        ∧ gap = (energy flag cation - energy flag anion)%float.
Proof.
  unfold SSE_min_gap. rewrite anions_cations_filter.
  rewrite <-(no_anions Compound flag), <-(no_cations Compound flag).
  set (anions := energy flag <$> filter _ Compound).
  set (cations := energy flag <$> filter (λ ele, 0 ≤ oxidation ele)%Z _).
  destruct (min_cases cations) as [[Hc ->]|(least & -> & Hleast)].
  { cbn [mbind result_bind]. split; [split; auto|].
    split; [by intros e [= <-]|done]. }
  destruct (max_cases anions) as [[Ha ->]|(most & -> & Hmost)].
  { cbn [mbind result_bind]. split; [split; auto|].
    split; [by intros e [= <-]|done]. }
  cbn [mbind result_bind]. split; [|split; [done|]].
  - split; [done|]. intros [Hnone|Hnone]; rewrite Hnone in *;
      by apply elem_of_nil in Hmost || by apply elem_of_nil in Hleast.
  - intros gap [= <-]. subst anions cations.
    apply list_elem_of_fmap in Hleast as (cation & -> & Hcation).
    apply list_elem_of_fmap in Hmost as (anion & -> & Hanion).
    apply list_elem_of_filter in Hcation as [? ?].
    apply list_elem_of_filter in Hanion as [? ?].
    by exists cation, anion.
Qed.

Section weights.
Variable exp : binary64 → binary64.
Variable pow : binary64 → binary64 → result binary64.

Lemma weight_nothing x : weight exp pow [] x = Raise ValueError.
Proof. done. Qed.

(** [SSE_weight_gap] returns no gap either for a compound without an
    anion or without a cation; without a cation it raises
    [ValueError]. *)
Theorem weight_gap_needs_both Compound x flag :
  Forall (λ ele, 0 ≤ oxidation ele)%Z Compound
  ∨ Forall (λ ele, oxidation ele < 0)%Z Compound →
  raises (SSE_weight_gap exp pow Compound x flag)
  ∧ (Forall (λ ele, oxidation ele < 0)%Z Compound →
     SSE_weight_gap exp pow Compound x flag = Raise ValueError).
Proof.
  rewrite <-(no_anions Compound flag), <-(no_cations Compound flag).
  unfold SSE_weight_gap. rewrite anions_cations_filter.
  set (anions := energy flag <$> filter _ Compound).
  set (cations := energy flag <$> filter (λ ele, 0 ≤ oxidation ele)%Z _).
  intros Hnone. split.
  - destruct Hnone as [->| ->]; [|done].
    by destruct (weight exp pow cations x).
  - by intros ->.
Qed.

(** When all the cations have the same energy and all the anions have
    the same energy, both weights are a half and the exponent [x] plays
    no part: the gap is the same for every [x], and neither [exp] nor
    [**] is used. *)
Theorem weight_gap_of_equal_energies Compound x flag (c a : binary64) :
  (c =? c)%float = true → (a =? a)%float = true →
  (∃ ele, ele ∈ Compound ∧ (0 ≤ oxidation ele)%Z) →
  (∃ ele, ele ∈ Compound ∧ (oxidation ele < 0)%Z) →
  (∀ ele, ele ∈ Compound →
          energy flag ele = if decide (oxidation ele < 0)%Z then a else c) →
  SSE_weight_gap exp pow Compound x flag
  = Ok (0.5 * c + (1 - 0.5) * c - (1 - 0.5) * a - 0.5 * a)%float.
Proof.
  intros Hc Ha (cation & Hcation & Hpos) (anion & Hanion & Hneg) Henergy.
  unfold SSE_weight_gap. rewrite anions_cations_filter.
  assert (∀ (P : Species → Prop) `{!∀ ele, Decision (P ele)} (v : binary64),
    (∃ ele, ele ∈ Compound ∧ P ele) →
    (∀ ele, ele ∈ Compound → P ele → energy flag ele = v) →
    ∃ k, energy flag <$> filter P Compound = replicate (S k) v) as Hsame.
  { intros P HP v (ele & Hele & HPele) Hv.
    exists (Nat.pred (length (filter P Compound))).
    assert (filter P Compound ≠ []) as Hne.
    { intros Hnil. eapply filter_nil_not_elem_of; eauto. }
    destruct (filter P Compound) as [|e l] eqn:Hfilter; [done|].
    cbn [length Nat.pred]. rewrite <-Hfilter. clear Hne.
    assert (∀ l', l' `sublist_of` Compound →
              energy flag <$> filter P l' = replicate (length (filter P l')) v)
      as Hgen.
    { intros l' Hl'. induction l' as [|e' l' IH]; [done|].
      rewrite filter_cons. destruct (decide (P e')) as [HPe'|].
      - cbn [length replicate]. rewrite fmap_cons. f_equal.
        + apply Hv; [|done]. eapply elem_of_sublist; [|done]. by left.
        + apply IH. etrans; [|done]. by apply sublist_cons.
      - apply IH. etrans; [|done]. by apply sublist_cons. }
    rewrite (Hgen Compound) by done. by rewrite Hfilter. }
  destruct (Hsame (λ ele, oxidation ele < 0)%Z _ a) as [ka ->]; [eauto|..].
  { intros ele Hele Hlt. rewrite Henergy by done. by rewrite decide_True. }
  destruct (Hsame (λ ele, 0 ≤ oxidation ele)%Z _ c) as [kc ->]; [eauto|..].
  { intros ele Hele Hge. rewrite Henergy by done.
    by rewrite decide_False by lia. }
  assert (∀ k v, (v =? v)%float = true →
    max (replicate (S k) v) = Ok v ∧ min (replicate (S k) v) = Ok v)
    as Hextreme.
  { intros k v Hv. cbn [replicate max min].
    assert ((v <? v)%float = false) as Hlt.
    { rewrite FloatAxioms.ltb_spec. rewrite FloatAxioms.eqb_spec in Hv.
      unfold SpecFloat.SFltb, SpecFloat.SFeqb in *.
      by destruct (SpecFloat.SFcompare _ _) as [[]|]. }
    split; f_equal; induction k as [|k IH]; cbn [replicate foldl];
      rewrite ?Hlt; done. }
  destruct (Hextreme kc c Hc) as [Hmaxc Hminc].
  destruct (Hextreme ka a Ha) as [Hmaxa Hmina].
  unfold weight. rewrite Hmaxc, Hminc, Hmaxa, Hmina.
  cbn [mbind result_bind]. rewrite Hc, Ha. done.
Qed.

End weights.
End sse_facts.
(** *** The gaps at concrete inputs *)

Section sse_examples.
Import Examples SolidStateEnergy.

#[local] Set Warnings "-inexact-float".

(** Copper and sulfide; two cations alone, one of oxidation state zero;
    the sulfide alone. *)
Example min_gap_examples :
  SSE_min_gap [copper; sulfide] true = Ok 2%float
  ∧ SSE_min_gap [copper; neutral_atom; sulfide] false = Ok 2%float
  ∧ SSE_min_gap [copper; neutral_atom] true = Raise ValueError
  ∧ SSE_min_gap [sulfide] true = Raise ValueError
  ∧ SSE_min_gap [] true = Raise ValueError.
Proof. by vm_compute. Qed.

Lemma weight_gap_needs_both_witness :
  (Forall (λ ele, 0 ≤ oxidation ele)%Z [copper; neutral_atom]
   ∨ Forall (λ ele, oxidation ele < 0)%Z [copper; neutral_atom])
  ∧ raises (SSE_weight_gap no_exp no_pow [copper; neutral_atom] 2 true)
  ∧ (Forall (λ ele, oxidation ele < 0)%Z [copper; neutral_atom] →
     SSE_weight_gap no_exp no_pow [copper; neutral_atom] 2 true
     = Raise ValueError).
Proof.
  assert (Forall (λ ele, 0 ≤ oxidation ele)%Z [copper; neutral_atom]
          ∨ Forall (λ ele, oxidation ele < 0)%Z [copper; neutral_atom])
    as Hnone by (left; repeat constructor; by vm_compute).
  split; [exact Hnone|].
  exact (weight_gap_needs_both no_exp no_pow [copper; neutral_atom] 2 true
           Hnone).
Defined.

Lemma weight_gap_of_equal_energies_witness :
  ((-4.5) =? (-4.5))%float = true
  ∧ ((-6.5) =? (-6.5))%float = true
  ∧ (∃ ele, ele ∈ [copper; sulfide] ∧ (0 ≤ oxidation ele)%Z)
  ∧ (∃ ele, ele ∈ [copper; sulfide] ∧ (oxidation ele < 0)%Z)
  ∧ (∀ ele, ele ∈ [copper; sulfide] →
            energy false ele
            = if decide (oxidation ele < 0)%Z then (-6.5)%float
              else (-4.5)%float)
  ∧ SSE_weight_gap no_exp no_pow [copper; sulfide] 2 false
    = Ok (0.5 * (-4.5) + (1 - 0.5) * (-4.5) - (1 - 0.5) * (-6.5)
          - 0.5 * (-6.5))%float.
Proof.
  assert (((-4.5) =? (-4.5))%float = true) as Hc by reflexivity.
  assert (((-6.5) =? (-6.5))%float = true) as Ha by reflexivity.
  assert (∃ ele, ele ∈ [copper; sulfide] ∧ (0 ≤ oxidation ele)%Z) as Hcation
    by (exists copper; split; [by left|by vm_compute]).
  assert (∃ ele, ele ∈ [copper; sulfide] ∧ (oxidation ele < 0)%Z) as Hanion
    by (exists sulfide; split; [by right; left|by vm_compute]).
  assert (∀ ele, ele ∈ [copper; sulfide] →
            energy false ele
            = if decide (oxidation ele < 0)%Z then (-6.5)%float
              else (-4.5)%float) as Henergy.
  { intros ele [->|[->|[]%elem_of_nil]%elem_of_cons]%elem_of_cons;
      reflexivity. }
  split; [exact Hc|]. split; [exact Ha|]. split; [exact Hcation|].
  split; [exact Hanion|]. split; [exact Henergy|].
  exact (weight_gap_of_equal_energies no_exp no_pow [copper; sulfide] 2 false
           (-4.5)%float (-6.5)%float Hc Ha Hcation Hanion Henergy).
Defined.

End sse_examples.

